(** * Cross-Based Cost Aggregation (pandora/aggregation/cbca.py)

    A shallow embedding of the numeric kernels [cbca_step_1] .. [cbca_step_4],
    of [cross_support], of the orchestrating [cost_volume_aggregation] and of
    the configuration check [check_conf], followed by the properties that the
    specification states about them.

    Conventions of the embedding:
    - [np.float32] values are IEEE-754 binary32 numbers, taken from the
      Standard Library's [SpecFloat] with precision 24 and maximal exponent
      128 (round to nearest even, NaN without payload);
    - numpy arrays are nested lists; an index is a [Z], and a negative index
      counts from the end of the axis as in numpy and numba;
    - [for] loops over [range] are left folds over the list of indices that
      thread the arrays which the loop body mutates. *)

From Stdlib Require Import ZArith Lia Bool QArith Qround.
From Stdlib Require Import Floats.SpecFloat.
From stdpp Require Import base list list_numbers strings gmap.

Local Open Scope Z_scope.

(** ** binary32 arithmetic *)

Module F32.

Definition prec : Z := 24.
Definition emax : Z := 128.

Definition t : Type := spec_float.

Definition zero : t := S754_zero false.
Definition nan : t := S754_nan.
Definition pinf : t := S754_infinity false.

Definition add : t -> t -> t := SFadd prec emax.
Definition sub : t -> t -> t := SFsub prec emax.
Definition mul : t -> t -> t := SFmul prec emax.
Definition div : t -> t -> t := SFdiv prec emax.
Definition abs : t -> t := SFabs.

(** Conversion of an integer, as numba does it when an [int64] meets a
    [float32] array cell. *)
Definition of_Z (n : Z) : t := binary_normalize prec emax n 0 false.

Definition one : t := of_Z 1.

(** [np.isnan] and [np.isfinite]. *)
Definition isnan (x : t) : bool :=
  match x with S754_nan => true | _ => false end.

Definition isfinite (x : t) : bool :=
  match x with S754_zero _ | S754_finite _ _ _ => true | _ => false end.

(** [x >= y]; false as soon as one side is NaN. *)
Definition ge (x y : t) : bool :=
  match SFcompare x y with
  | Some Gt | Some Eq => true
  | _ => false
  end.

(** [x == 0.0] *)
Definition is_zero (x : t) : bool :=
  match x with S754_zero _ => true | _ => false end.

(** Floats that compare greater than or equal to zero. *)
Definition nonneg (x : t) : Prop :=
  match x with
  | S754_zero _ => True
  | S754_finite s _ _ => s = false
  | S754_infinity s => s = false
  | S754_nan => False
  end.

End F32.

Abbreviation f32 := F32.t.

(** ** numpy arrays as nested lists *)

(** A negative index counts from the end of an axis of length [n]. *)
Definition pyidx (n i : Z) : Z := if i <? 0 then n + i else i.

Definition len {A} (l : list A) : Z := Z.of_nat (length l).

(** Read of cell [i].  The kernels are compiled by numba without bounds
    checks, so a read outside the axis has no defined result; here it
    yields [d]. *)
Definition get1 {A} (d : A) (l : list A) (i : Z) : A :=
  let j := pyidx (len l) i in
  if (0 <=? j) && (j <? len l) then default d (l !! Z.to_nat j) else d.

(** In-place write of cell [i]; a write outside the axis is dropped. *)
Definition set1 {A} (l : list A) (i : Z) (v : A) : list A :=
  let j := pyidx (len l) i in
  if (0 <=? j) && (j <? len l) then <[Z.to_nat j := v]> l else l.

Definition get2 {A} (d : A) (a : list (list A)) (y x : Z) : A :=
  get1 d (get1 [] a y) x.

Definition set2 {A} (a : list (list A)) (y x : Z) (v : A) : list (list A) :=
  set1 a y (set1 (get1 [] a y) x v).

Definition get3 {A} (d : A) (a : list (list (list A))) (i j k : Z) : A :=
  get1 d (get2 [] a i j) k.

Definition set3 {A} (a : list (list (list A))) (i j k : Z) (v : A)
  : list (list (list A)) :=
  set2 a i j (set1 (get2 [] a i j) k v).

(** [a.shape] of a two-dimensional array. *)
Definition nrows {A} (a : list (list A)) : Z := len a.
Definition ncols {A} (a : list (list A)) : Z := len (get1 [] a 0).

(** [np.zeros((n, m))] and [np.zeros((n, m, k))] *)
Definition full2 {A} (v : A) (n m : Z) : list (list A) :=
  replicate (Z.to_nat n) (replicate (Z.to_nat m) v).
Definition full3 {A} (v : A) (n m k : Z) : list (list (list A)) :=
  replicate (Z.to_nat n) (full2 v m k).

(** [range(a, b)] and [range(a, b, -1)] *)
Definition range (a b : Z) : list Z := seqZ a (b - a).
Definition range_down (a b : Z) : list Z := (fun i => a - i) <$> seqZ 0 (a - b).

(** [for i in idxs: s = body i s] *)
Definition for_each {S} (idxs : list Z) (body : Z -> S -> S) (s : S) : S :=
  foldl (fun s i => body i s) s idxs.

(** An array built cell by cell: the result of a vectorised numpy
    expression over an axis of length [n]. *)
Definition tabulate {A} (n : Z) (f : Z -> A) : list A := f <$> seqZ 0 n.

(** A rectangular array of [n] rows and [m] columns. *)
Definition rect {A} (n m : Z) (a : list (list A)) : Prop :=
  len a = n /\ Forall (fun r => len r = m) a.

(** ** The four passes *)

Abbreviation image := (list (list f32)).
Abbreviation cross := (list (list (list Z))).

(** Step 1: horizontal integral image.  The array has one more column than
    the cost slice; the loop never writes it, and [step1[y, x - 1]] at
    [x = 0] reads it through the index [-1]. *)
Definition cbca_step_1 (cv : image) : image :=
  let ny_ := nrows cv in
  let nx_ := ncols cv in
  let step1 := full2 F32.zero ny_ (nx_ + 1) in
  for_each (range 0 ny_) (fun y step1 =>
    for_each (range 0 nx_) (fun x step1 =>
      if negb (F32.isnan (get2 F32.zero cv y x)) then
        set2 step1 y x (F32.add (get2 F32.zero step1 y (x - 1)) (get2 F32.zero cv y x))
      else
        set2 step1 y x (get2 F32.zero step1 y (x - 1)))
    step1)
  step1.

(** Step 2: horizontal matching cost and the number of support pixels.
    [right + left] is an integer, the sum of two [int16]; it is converted
    when it is added to the [float32] cell, and binary32 holds every such
    sum exactly. *)
Definition cbca_step_2 (step1 : image) (cross_left cross_right : cross)
    (range_col range_col_right : list Z) : image * image :=
  let ny_ := nrows step1 in
  let nx_ := ncols step1 in
  let step2 := full2 F32.zero ny_ (nx_ - 1) in
  let sum_step2 := full2 F32.zero ny_ (nx_ - 1) in
  for_each (range 0 (nrows step1)) (fun y st =>
    for_each (range 0 (len range_col)) (fun x '(step2, sum_step2) =>
      let c := get1 0 range_col x in
      let cr := get1 0 range_col_right x in
      let right := Z.min (get3 0 cross_left y c 1) (get3 0 cross_right y cr 1) in
      let left := Z.min (get3 0 cross_left y c 0) (get3 0 cross_right y cr 0) in
      let step2 :=
        set2 step2 y c
          (F32.sub (get2 F32.zero step1 y (c + right))
                   (get2 F32.zero step1 y (c - left - 1))) in
      let sum_step2 :=
        set2 sum_step2 y c
          (F32.add (get2 F32.zero sum_step2 y c) (F32.of_Z (right + left))) in
      (step2, sum_step2))
    st)
  (step2, sum_step2).

(** Step 3: vertical integral image, with one more row than [step2]. *)
Definition cbca_step_3 (step2 : image) : image :=
  let ny_ := nrows step2 in
  let nx_ := ncols step2 in
  let step3 := full2 F32.zero (ny_ + 1) nx_ in
  let step3 := set1 step3 0 (get1 [] step2 0) in
  for_each (range 1 ny_) (fun y step3 =>
    for_each (range 0 nx_) (fun x step3 =>
      set2 step3 y x
        (F32.add (get2 F32.zero step3 (y - 1) x) (get2 F32.zero step2 y x)))
    step3)
  step3.

(** The rows selected by the slice [a[start:stop]] of an axis of length
    [n]: negative bounds count from the end, then both are clipped. *)
Definition slice_bound (n i : Z) : Z := Z.max 0 (Z.min n (pyidx n i)).
Definition slice (n start stop : Z) : list Z :=
  range (slice_bound n start) (slice_bound n stop).

(** [np.sum(a[start:stop, c])], accumulated from zero in index order. *)
Definition sum_col (a : image) (start stop c : Z) : f32 :=
  foldl (fun acc y => F32.add acc (get2 F32.zero a y c)) F32.zero
        (slice (nrows a) start stop).

(** Step 4: fully aggregated cost and total number of support pixels. *)
Definition cbca_step_4 (step3 sum2 : image) (cross_left cross_right : cross)
    (range_col range_col_right : list Z) : image * image :=
  let ny_ := nrows step3 in
  let nx_ := ncols step3 in
  let step4 := full2 F32.zero (ny_ - 1) nx_ in
  let sum4 := sum2 in
  for_each (range 0 (nrows step4)) (fun y st =>
    for_each (range 0 (len range_col)) (fun x '(step4, sum4) =>
      let c := get1 0 range_col x in
      let cr := get1 0 range_col_right x in
      let top := Z.min (get3 0 cross_left y c 2) (get3 0 cross_right y cr 2) in
      let bot := Z.min (get3 0 cross_left y c 3) (get3 0 cross_right y cr 3) in
      let step4 :=
        set2 step4 y c
          (F32.sub (get2 F32.zero step3 (y + bot) c)
                   (get2 F32.zero step3 (y - top - 1) c)) in
      let sum4 :=
        set2 sum4 y c (F32.add (get2 F32.zero sum4 y c) (F32.of_Z (top + bot))) in
      let sum4 :=
        if negb (top =? 0) then
          set2 sum4 y c (F32.add (get2 F32.zero sum4 y c) (sum_col sum2 (y - top) y c))
        else sum4 in
      let sum4 :=
        if negb (bot =? 0) then
          set2 sum4 y c
            (F32.add (get2 F32.zero sum4 y c) (sum_col sum2 (y + 1) (y + bot + 1) c))
        else sum4 in
      (step4, sum4))
    st)
  (step4, sum4).

(** ** Cross support *)

(** A store into an [int16] cell wraps around. *)
Definition int16 (z : Z) : Z := (z + 32768) mod 65536 - 32768.

(** One arm: [for i in idxs: if stop i: break; n += 1].  Returns the count
    [n] together with the value the loop variable holds afterwards, which
    is [last] when the range is empty. *)
Fixpoint arm_walk (stop : Z -> bool) (idxs : list Z) (n last : Z) : Z * Z :=
  match idxs with
  | [] => (n, last)
  | i :: rest => if stop i then (n, i) else arm_walk stop rest (n + 1) i
  end.

(** [abs(image[y, x] - image[y', x']) >= intensity] *)
Definition differs (img : image) (intensity : f32) (y x y' x' : Z) : bool :=
  F32.ge (F32.abs (F32.sub (get2 F32.zero img y x) (get2 F32.zero img y' x')))
         intensity.

(** [max(n, 1 * inside * np.isfinite(v))] *)
Definition min_region (n : Z) (inside : bool) (v : f32) : Z :=
  Z.max n (1 * Z.b2z inside * Z.b2z (F32.isfinite v)).

(** The four walks from pixel [(y, x)]. *)
Definition walk_left (img : image) (len_arms : Z) (intensity : f32) (y x : Z) :=
  arm_walk (fun left_ => differs img intensity y x y left_)
           (range_down (x - 1) (Z.max (x - len_arms) (-1))) 0 x.
Definition walk_right (img : image) (len_arms : Z) (intensity : f32) (y x : Z) :=
  arm_walk (fun right_ => differs img intensity y x y right_)
           (range (x + 1) (Z.min (x + len_arms) (ncols img))) 0 x.
Definition walk_up (img : image) (len_arms : Z) (intensity : f32) (y x : Z) :=
  arm_walk (fun up => differs img intensity y x up x)
           (range_down (y - 1) (Z.max (y - len_arms) (-1))) 0 y.
Definition walk_bot (img : image) (len_arms : Z) (intensity : f32) (y x : Z) :=
  arm_walk (fun bot => differs img intensity y x bot x)
           (range (y + 1) (Z.min (y + len_arms) (nrows img))) 0 y.

(** [cross_support].  [len_arms] is the value that the compiled kernel
    receives in its [int16] parameter, between -32768 and 32767. *)
Definition cross_support (img : image) (len_arms : Z) (intensity : f32) : cross :=
  let ny_ := nrows img in
  let nx_ := ncols img in
  let cross := full3 0 ny_ nx_ 4 in
  for_each (range 0 ny_) (fun y cross =>
    for_each (range 0 nx_) (fun x cross =>
      if F32.isfinite (get2 F32.zero img y x) then
        let '(left_len, left_) := walk_left img len_arms intensity y x in
        let cross :=
          set3 cross y x 0
            (int16 (min_region left_len (1 <=? x) (get2 F32.zero img y left_))) in
        let '(right_len, right_) := walk_right img len_arms intensity y x in
        let cross :=
          set3 cross y x 1
            (int16 (min_region right_len (x <? nx_ - 1) (get2 F32.zero img y right_))) in
        let '(up_len, up) := walk_up img len_arms intensity y x in
        let cross :=
          set3 cross y x 2
            (int16 (min_region up_len (1 <=? y) (get2 F32.zero img up x))) in
        let '(bot_len, bot) := walk_bot img len_arms intensity y x in
        let cross :=
          set3 cross y x 3
            (int16 (min_region bot_len (y <? ny_ - 1) (get2 F32.zero img bot x))) in
        cross
      else cross)
    cross)
  cross.

(** ** The orchestrator *)

Abbreviation volume := (list (list (list f32))).

(** The cost-volume dataset: [cost_volume] indexed (row, col, disp), the
    [disp] coordinate and the attributes the aggregation reads or writes.
    Disparities are multiples of 1/4 and [cmax] is a Python float on which
    no rounding takes place here; both are carried as rationals.  On such
    disparities the float arithmetic of the orchestrator is exact; a
    product of [cmax] that rounds is outside the model. *)
Record dataset := {
  cost_volume : volume;
  disp : list Q;
  subpixel : Z;
  cmax : Q;
  aggregation : string
}.

(** [cv.shape] *)
Definition dim0 (cv : volume) : Z := len cv.
Definition dim1 (cv : volume) : Z := len (get1 [] cv 0).
Definition dim2 (cv : volume) : Z := len (get2 [] cv 0 0).

(** [np.swapaxes(a, 0, 1)] and [np.swapaxes(a, 0, 2)], given the shape. *)
Definition swapaxes01 (n m : Z) (a : image) : image :=
  tabulate m (fun j => tabulate n (fun i => get2 F32.zero a i j)).
Definition swapaxes02 (n m k : Z) (a : volume) : volume :=
  tabulate k (fun c => tabulate m (fun b => tabulate n (fun a_ => get3 F32.zero a a_ b c))).

(** [cv[:, :, d]] *)
Definition layer (cv : volume) (d : Z) : image :=
  tabulate (dim0 cv) (fun y => tabulate (dim1 cv) (fun x => get3 F32.zero cv y x d)).

(** Element-wise [a op= b] on arrays of shape (n, m). *)
Definition zip2 (op : f32 -> f32 -> f32) (n m : Z) (a b : image) : image :=
  tabulate n (fun i => tabulate m (fun j =>
    op (get2 F32.zero a i j) (get2 F32.zero b i j))).

(** Element-wise [a op= scalar]. *)
Definition map2 (f : f32 -> f32) (a : image) : image :=
  (fun row : list f32 => f <$> row) <$> a.

(** [q % 1], [int(q)] and the tests on [range_col + disparity]. *)
Definition Qfrac (q : Q) : Q := (q - inject_Z (Qfloor q))%Q.
Definition Qint (q : Q) : Z := if Qle_bool 0 q then Qfloor q else Qceiling q.
Definition Qltb (p q : Q) : bool := negb (Qle_bool q p).

(** The right cross support selected for disparity [q],
    [int((q % 1) * subpix)], on the exact value of the disparity. *)
Definition i_right (q : Q) (subpix : Z) : Z := Qint (Qfrac q * inject_Z subpix)%Q.

(** [range_col[valid_index]]: the columns whose shifted counterpart lies
    inside a right image of [w] columns. *)
Definition valid_col (q : Q) (w : Z) (c : Z) : bool :=
  Qle_bool 0 (inject_Z c + q)%Q && Qltb (inject_Z c + q)%Q (inject_Z w).
Definition valid_columns (nx_ : Z) (q : Q) (w : Z) : list Z :=
  List.filter (valid_col q w) (range 0 nx_).
(** [range_col_right[valid_index].astype(int)] *)
Definition valid_columns_right (nx_ : Z) (q : Q) (w : Z) : list Z :=
  (fun c => Qint (inject_Z c + q)%Q) <$> valid_columns nx_ q w.

(** The four passes for disparity index [d], and [sum4 += 1]: the
    aggregated slice and its normalisation denominator. *)
Definition aggregate_layer (cross_left : cross) (cross_right : list cross)
    (cv : dataset) (d : Z) : image * image :=
  let nx_ := dim1 (cost_volume cv) in
  let q := get1 0%Q (disp cv) d in
  let cr := get1 [] cross_right (i_right q (subpixel cv)) in
  let step1 := cbca_step_1 (layer (cost_volume cv) d) in
  let range_col := valid_columns nx_ q (ncols cr) in
  let range_col_right := valid_columns_right nx_ q (ncols cr) in
  let '(step2, sum2) := cbca_step_2 step1 cross_left cr range_col range_col_right in
  let step3 := cbca_step_3 step2 in
  let '(step4, sum4) := cbca_step_4 step3 sum2 cross_left cr range_col range_col_right in
  let sum4 := map2 (fun v => F32.add v F32.one) sum4 in
  (step4, sum4).

(** [cost_volume_aggregation], from the cross supports that
    [computes_cross_supports] returns. *)
Definition cost_volume_aggregation (cbca_distance : Z)
    (cross_left : cross) (cross_right : list cross) (cv : dataset) : dataset :=
  let ny_ := dim0 (cost_volume cv) in
  let nx_ := dim1 (cost_volume cv) in
  let nb_disp := dim2 (cost_volume cv) in
  let agg := full3 F32.zero nb_disp nx_ ny_ in
  let agg :=
    tabulate nb_disp (fun d =>
      zip2 F32.add nx_ ny_ (get1 [] agg d)
           (get1 [] (swapaxes02 ny_ nx_ nb_disp (cost_volume cv)) d)) in
  let agg :=
    tabulate nb_disp (fun d =>
      tabulate nx_ (fun x => tabulate ny_ (fun y =>
        F32.mul (get3 F32.zero agg d x y) F32.zero))) in
  let agg :=
    for_each (range 0 nb_disp) (fun d agg =>
      let '(step4, sum4) := aggregate_layer cross_left cross_right cv d in
      let agg :=
        set1 agg d (zip2 F32.add nx_ ny_ (get1 [] agg d) (swapaxes01 ny_ nx_ step4)) in
      let agg :=
        set1 agg d (zip2 F32.div nx_ ny_ (get1 [] agg d) (swapaxes01 ny_ nx_ sum4)) in
      agg)
    agg in
  {| cost_volume := swapaxes02 nb_disp nx_ ny_ agg;
     disp := disp cv;
     subpixel := subpixel cv;
     cmax := (cmax cv * inject_Z ((cbca_distance * 2 - 1) ^ 2))%Q;
     aggregation := "cbca" |}.

(** The tail of [computes_cross_supports]: the cross supports of the
    masked, median-filtered and offset-trimmed left raster and of each
    shifted right raster.  The masking, the filter and the shift are done
    by collaborators; their results are the arguments. *)
Definition computes_cross_supports (left_masked : image) (right_masked : list image)
    (cbca_distance : Z) (cbca_intensity : f32) : cross * list cross :=
  (cross_support left_masked cbca_distance cbca_intensity,
   (fun r => cross_support r cbca_distance cbca_intensity) <$> right_masked).

(** ** Configuration *)

(** Python values that a configuration dictionary holds, and the results
    of the schema's lambdas.  A Python [float] is a binary64 number. *)
Inductive pyval :=
  | PStr (s : string)
  | PFloat (x : spec_float)
  | PInt (n : Z)
  | PBool (b : bool)
  | PNone.

Inductive pytype := TStr | TFloat | TInt.

Definition isinstance (v : pyval) (ty : pytype) : bool :=
  match ty, v with
  | TStr, PStr _ | TFloat, PFloat _ | TInt, PInt _ | TInt, PBool _ => true
  | _, _ => false
  end.

(** [bool(v)] *)
Definition truthy (v : pyval) : bool :=
  match v with
  | PStr s => negb (String.eqb s EmptyString)
  | PFloat x => negb (F32.is_zero x)
  | PInt n => negb (n =? 0)
  | PBool b => b
  | PNone => false
  end.

(** [lambda x: x > 0]; [None] stands for the [TypeError] of an unordered
    comparison. *)
Definition gt_0 (v : pyval) : option pyval :=
  match v with
  | PFloat x => Some (PBool (SFltb (S754_zero false) x))
  | PInt n => Some (PBool (0 <? n))
  | PBool b => Some (PBool b)
  | _ => None
  end.

(** The validators of [json_checker] that the schema uses: a type, which
    is checked with [isinstance], and a function, which passes when it
    returns a true value.  [And] passes when all its validators pass. *)
Inductive validator :=
  | Type_ (ty : pytype)
  | Func (f : pyval -> option pyval).

Definition validates (c : validator) (v : pyval) : bool :=
  match c with
  | Type_ ty => isinstance v ty
  | Func f => match f v with Some r => truthy r | None => false end
  end.

Definition And (cs : list validator) (v : pyval) : bool :=
  forallb (fun c => validates c v) cs.

Inductive result (A : Type) :=
  | Ok (a : A)
  | CheckerError.
Arguments Ok {A} a.
Arguments CheckerError {A}.

(** [Checker(schema).validate(cfg)] for a dictionary schema: every key of
    the schema is present with a valid value, and there is no other key. *)
Definition validate (schema : list (string * (pyval -> bool)))
    (cfg : gmap string pyval) : result (gmap string pyval) :=
  if forallb (fun '(k, c) => match cfg !! k with Some v => c v | None => false end) schema
     && bool_decide (dom cfg ⊆ list_to_set (fst <$> schema))
  then Ok cfg else CheckerError.

Definition _CBCA_INTENSITY : pyval := PFloat (binary_normalize 53 1024 30 0 false).
Definition _CBCA_DISTANCE : pyval := PInt 5.

Definition check_conf (cfg : gmap string pyval) : result (gmap string pyval) :=
  let cfg :=
    match cfg !! "cbca_intensity" with
    | None => <["cbca_intensity" := _CBCA_INTENSITY]> cfg
    | Some _ => cfg
    end in
  let cfg :=
    match cfg !! "cbca_distance" with
    | None => <["cbca_distance" := _CBCA_DISTANCE]> cfg
    | Some _ => cfg
    end in
  let schema :=
    [ ("aggregation_method", And [Type_ TStr; Func (fun x => Some (PStr "cbca"))]);
      ("cbca_intensity", And [Type_ TFloat; Func gt_0]);
      ("cbca_distance", And [Type_ TInt; Func gt_0]) ] in
  validate schema cfg.

(** [CrossBasedCostAggregation.__init__]: the checked configuration, or
    the error that [check_conf] raises. *)
Definition init (cfg : gmap string pyval) : result (gmap string pyval) :=
  check_conf cfg.

(** ** Raster helpers (pandora/img_tools.py) *)

(** [check_inside_image]: [img['im'].shape] is (rows, columns); [x] is
    compared with the first and [y] with the second. *)
Definition check_inside_image (img : image) (x y : Z) : bool :=
  let nx_ := nrows img in
  let ny_ := ncols img in
  (0 <=? x) && (x <? nx_) && ((0 <=? y) && (y <? ny_)).

(** [img[r0:r1, c0:c1]] *)
Definition sub_image (img : image) (r0 r1 c0 c1 : Z) : image :=
  (fun r => (fun c => get2 F32.zero img r c) <$> slice (ncols img) c0 c1)
    <$> slice (nrows img) r0 r1.

(** A value, or the [IndexError] that the function raises. *)
Inductive outcome (A : Type) :=
  | Returns (a : A)
  | IndexError.
Arguments Returns {A} a.
Arguments IndexError {A}.

(** [compute_mean_patch].  [int(win_size / 2)] truncates towards zero;
    [mean] is [np.mean(_, dtype=np.float32)], numpy's own reduction. *)
Definition compute_mean_patch (mean : image -> f32) (img : image)
    (x y win_size : Z) : outcome f32 :=
  let begin_window := (x - Z.quot win_size 2, y - Z.quot win_size 2) in
  let end_window := (x + Z.quot win_size 2, y + Z.quot win_size 2) in
  if check_inside_image img begin_window.1 begin_window.2
     && check_inside_image img end_window.1 end_window.2
  then
    Returns (mean (sub_image img begin_window.2 (end_window.2 + 1)
                             begin_window.1 (end_window.1 + 1)))
  else IndexError.

(** [create_downsampled_dataset]: a scale factor of 1 returns the dataset
    itself; otherwise the dataset is blurred and resized by OpenCV, which
    [blur_resize] stands for. *)
Definition create_downsampled_dataset {D} (blur_resize : D -> Z -> D)
    (img_orig : D) (scale_factor : Z) : D :=
  if scale_factor =? 1 then img_orig else blur_resize img_orig scale_factor.

(** [prepare_pyramid]: each pass of the loop appends the downsampling of
    the last level; both lists are returned reversed. *)
Definition prepare_pyramid {D} (blur_resize : D -> Z -> D)
    (img_left img_right : D) (num_scales scale_factor : Z) : list D * list D :=
  let '(pyramid_left, pyramid_right) :=
    for_each (range 0 (num_scales - 1)) (fun _ '(pyramid_left, pyramid_right) =>
      (pyramid_left
         ++ [create_downsampled_dataset blur_resize
               (get1 img_left pyramid_left (-1)) scale_factor],
       pyramid_right
         ++ [create_downsampled_dataset blur_resize
               (get1 img_right pyramid_right (-1)) scale_factor]))
    ([img_left], [img_right]) in
  (reverse pyramid_left, reverse pyramid_right).

(** The right image as [shift_right_img] uses it: the samples and the
    [col] coordinate. *)
Record right_image := {
  im : image;
  col : list Q
}.

(** [a[:, k::4]] *)
Definition every_4th (k : Z) (a : image) : image :=
  (fun row : list f32 =>
     (fun j => get1 F32.zero row (k + 4 * j)) <$> seqZ 0 ((len row - k + 3) / 4))
    <$> a.

(** [np.arange(start, stop, step=1)] *)
Definition arange (start stop : Q) : list Q :=
  (fun i => (start + inject_Z i)%Q) <$> seqZ 0 (Qceiling (stop - start)).

(** The right image shifted by [offset], from column [k] of the zoomed
    samples.  [zoom] stands for scipy's
    [zoom(_, (1, (nx_ * 4 - 3) / float(nx_)), order=1)]. *)
Definition shifted (zoom : image -> image) (img_right : right_image)
    (k : Z) (offset : Q) : right_image :=
  {| im := every_4th k (zoom (im img_right));
     col := arange (get1 0%Q (col img_right) 0 + offset)
                   (get1 0%Q (col img_right) (-1)) |}.

Definition shift_right_img (zoom : image -> image) (img_right : right_image)
    (subpix : Z) : list right_image :=
  let img_right_shift := [img_right] in
  let img_right_shift :=
    if subpix =? 2 then
      img_right_shift ++ [shifted zoom img_right 2 (1 # 2)]
    else img_right_shift in
  let img_right_shift :=
    if subpix =? 4 then
      img_right_shift ++ [shifted zoom img_right 1 (1 # 4)]
                      ++ [shifted zoom img_right 2 (1 # 2)]
                      ++ [shifted zoom img_right 3 (3 # 4)]
    else img_right_shift in
  img_right_shift.

(** * Vocabulary of the properties *)

(** The nested loop of the passes, over the rows [ys] and the column
    indices [xs]. *)
Definition loop2 {S} (ys xs : list Z) (body : Z -> Z -> S -> S) (s : S) : S :=
  for_each ys (fun y s => for_each xs (fun x s => body y x s) s) s.

(** The four arm lengths stored for pixel [(y, x)]. *)
Definition arm_left img len_arms intensity y x : Z :=
  let w := walk_left img len_arms intensity y x in
  int16 (min_region w.1 (1 <=? x) (get2 F32.zero img y w.2)).
Definition arm_right img len_arms intensity y x : Z :=
  let w := walk_right img len_arms intensity y x in
  int16 (min_region w.1 (x <? ncols img - 1) (get2 F32.zero img y w.2)).
Definition arm_up img len_arms intensity y x : Z :=
  let w := walk_up img len_arms intensity y x in
  int16 (min_region w.1 (1 <=? y) (get2 F32.zero img w.2 x)).
Definition arm_bot img len_arms intensity y x : Z :=
  let w := walk_bot img len_arms intensity y x in
  int16 (min_region w.1 (y <? nrows img - 1) (get2 F32.zero img w.2 x)).

(** The channels [left, right, top, bot] stored for pixel [(y, x)]. *)
Definition pixel_cross img len_arms intensity y x : list Z :=
  if F32.isfinite (get2 F32.zero img y x) then
    [arm_left img len_arms intensity y x; arm_right img len_arms intensity y x;
     arm_up img len_arms intensity y x; arm_bot img len_arms intensity y x]
  else [0; 0; 0; 0].

(** [r] is NaN or carries the sign [s]. *)
Definition has_sign (s : bool) (r : f32) : Prop :=
  match r with
  | S754_zero s' | S754_infinity s' | S754_finite s' _ _ => s' = s
  | S754_nan => True
  end.

(** The combined horizontal arms at row [y] for the [x]-th valid column. *)
Definition arm_min (cross_left cross_right : cross) (range_col range_col_right : list Z)
    (k y x : Z) : Z :=
  Z.min (get3 0 cross_left y (get1 0 range_col x) k)
        (get3 0 cross_right y (get1 0 range_col_right x) k).

(** The sum of column [c] of [a] over the rows [rows], from zero. *)
Definition rows_sum (a : image) (c : Z) (rows : list Z) : f32 :=
  foldl (fun acc y => F32.add acc (get2 F32.zero a y c)) F32.zero rows.

(** The count that one iteration of step 4 leaves in its cell, from the
    count [cur] found there. *)
Definition step4_count (sum2 : image) (top bot y c : Z) (cur : f32) : f32 :=
  let s := F32.add cur (F32.of_Z (top + bot)) in
  let s := if negb (top =? 0) then F32.add s (sum_col sum2 (y - top) y c) else s in
  if negb (bot =? 0) then F32.add s (sum_col sum2 (y + 1) (y + bot + 1) c) else s.

(** A cost volume of shape [(ny, nx, nb)]. *)
Definition box (ny nx nb : Z) (cv : volume) : Prop :=
  len cv = ny /\ Forall (rect nx nb) cv.

(** Every cell of a two-dimensional array satisfies [P]. *)
Definition all2 {A} (P : A -> Prop) (a : list (list A)) : Prop :=
  Forall (Forall P) a.

(** Arm lengths are never negative. *)
Definition cross_nonneg (c : cross) : Prop := all2 (Forall (fun a => 0 <= a)) c.

(** The costs 2.0, 3.0 and 5.0, which binary32 holds exactly. *)
Definition f2 : f32 := F32.of_Z 2.
Definition f3 : f32 := F32.of_Z 3.
Definition f5 : f32 := F32.of_Z 5.

(** A uniform 5 x 5 raster: its centre is at distance 2 from every border. *)
Definition uniform5 : image := full2 f3 5 5.

(** A raster with a non-finite pixel. *)
Definition raster_inf : image := [[f3; F32.pinf]].

(** A raster whose centre differs from its four neighbours by 2.0. *)
Definition raster_step : image := [[f5; f5; f5]; [f5; f3; f5]; [f5; f5; f5]].

(** One row of two columns, the cross supports of a uniform raster of
    that shape, and both columns valid. *)
Definition cross_1x2 : cross := cross_support (full2 f3 1 2) 2 F32.one.
Definition step1_1x2 : image := cbca_step_1 [[f5; f3]].

(** Three rows of one column: the vertical arms of the middle row are 1. *)
Definition cross_3x1 : cross := cross_support (full2 f3 3 1) 2 F32.one.
Definition sum2_3x1 : image := [[f2]; [f3]; [f5]].
Definition step3_3x1 : image := cbca_step_3 [[f2]; [f3]; [f5]].

(** A cost volume of one row, two columns and the disparities 0 and 1.
    At disparity 1 the right counterpart of column 1 would be column 2,
    outside the two columns of the right image. *)
Definition volume_1x2x2 (c : f32) : dataset :=
  {| cost_volume := [[[f5; f5]; [f3; c]]];
     disp := [0%Q; 1%Q];
     subpixel := 1;
     cmax := 1%Q;
     aggregation := EmptyString |}.

(** The cross supports of a uniform left and right raster of that shape. *)
Definition cross_left_1x2 : cross :=
  (computes_cross_supports (full2 f3 1 2) [full2 f3 1 2] 2 F32.one).1.
Definition cross_right_1x2 : list cross :=
  (computes_cross_supports (full2 f3 1 2) [full2 f3 1 2] 2 F32.one).2.

(** The running sum of the entries of [row] up to column [x], from zero
    and from left to right, in which a NaN entry adds nothing. *)
Definition running_sum (row : list f32) (x : Z) : f32 :=
  foldl (fun acc v => if F32.isnan v then acc else F32.add acc v) F32.zero
        (take (Z.to_nat (x + 1)) row).

(** One row of step 1: the inner loop, on the row [r] of the integral
    image and the row [c] of the cost slice. *)
Definition step1_row (c : list f32) (r : list f32) : list f32 :=
  for_each (range 0 (len c)) (fun x r =>
    if negb (F32.isnan (get1 F32.zero c x)) then
      set1 r x (F32.add (get1 F32.zero r (x - 1)) (get1 F32.zero c x))
    else
      set1 r x (get1 F32.zero r (x - 1)))
  r.

(** The running sum of column [x] of [a] over the rows 0 to [y], from the
    entry of row 0 and from top to bottom. *)
Definition column_sum (a : image) (x y : Z) : f32 :=
  foldl (fun acc r => F32.add acc (get2 F32.zero a r x)) (get2 F32.zero a 0 x)
        (range 1 (y + 1)).

(** The state of step 3 after the rows below [k]: these rows hold the
    running sums of their columns, the rows from [k] on are still zero. *)
Definition step3_upto (step2 : image) (ny nx k : Z) (a : image) : Prop :=
  rect (ny + 1) nx a
  /\ (forall y x, 0 <= y < k -> 0 <= x < nx ->
        get2 F32.zero a y x = column_sum step2 x y)
  /\ (forall y x, k <= y <= ny -> 0 <= x < nx -> get2 F32.zero a y x = F32.zero).

(** The configuration completed with the default values of the keys it
    lacks. *)
Definition with_defaults (cfg : gmap string pyval) : gmap string pyval :=
  let cfg :=
    match cfg !! "cbca_intensity" with
    | None => <["cbca_intensity" := _CBCA_INTENSITY]> cfg
    | Some _ => cfg
    end in
  match cfg !! "cbca_distance" with
  | None => <["cbca_distance" := _CBCA_DISTANCE]> cfg
  | Some _ => cfg
  end.

(** The value that the completed configuration holds for key [k]. *)
Definition default_of (k : string) : option pyval :=
  if String.eqb k "cbca_intensity" then Some _CBCA_INTENSITY
  else if String.eqb k "cbca_distance" then Some _CBCA_DISTANCE
  else None.

(** ** Image pyramid *)

(** [k] successive downsamplings by [scale_factor]. *)
Definition downsampled {D} (blur_resize : D -> Z -> D) (scale_factor : Z)
    (k : nat) (d : D) : D :=
  Nat.iter k (fun d => create_downsampled_dataset blur_resize d scale_factor) d.

(** The levels [0 .. k] in the order in which the loop appends them. *)
Definition levels {D} (blur_resize : D -> Z -> D) (scale_factor : Z)
    (k : nat) (d : D) : list D :=
  (fun i => downsampled blur_resize scale_factor i d) <$> seq 0 (S k).

(** A pyramid of [n] levels, from the coarsest to [orig]: the last level
    is [orig] and each level is the downsampling of the next one. *)
Definition pyramid_of {D} (blur_resize : D -> Z -> D) (scale_factor : Z)
    (n : Z) (orig : D) (pyramid : list D) : Prop :=
  len pyramid = n
  /\ get1 orig pyramid (-1) = orig
  /\ forall i, 0 <= i < n - 1 ->
       get1 orig pyramid i
       = create_downsampled_dataset blur_resize (get1 orig pyramid (i + 1))
           scale_factor.

(** ** Shifted right images *)

(** The element of [shift_right_img] that holds the image shifted by
    [k / subpix] of a pixel. *)
Definition shifted_by (zoom : image -> image) (img_right : right_image)
    (subpix k : Z) : right_image :=
  if k =? 0 then img_right
  else shifted zoom img_right (k * (4 / subpix)) (Qred (k # Z.to_pos subpix)).

(** ** Inputs of the examples *)

(** A raster and a cost slice with a NaN entry, and a column of
    horizontal costs with one. *)
Definition raster_nan : image := [[f3; F32.nan]].
Definition costs_nan : image := [[f5; F32.nan; f3]].
Definition column_nan : image := [[f2]; [F32.nan]; [f5]].

(** The smallest configuration that the check accepts. *)
Definition conf_minimal : gmap string pyval :=
  {[ "aggregation_method" := PStr "cbca" ]}.

(** Stand-ins for the collaborators in the examples: a mean that sums the
    samples row by row and divides by their number, and a zoom to
    [4 n - 3] columns that repeats the nearest sample. *)
Definition mean_by_rows (a : image) : f32 :=
  F32.div (foldl F32.add F32.zero (concat a)) (F32.of_Z (len (concat a))).
Definition zoom_nearest (a : image) : image :=
  (fun row : list f32 =>
     (fun j => get1 F32.zero row ((j + 2) / 4)) <$> seqZ 0 (4 * len row - 3))
    <$> a.

(** A right image of one row and three columns. *)
Definition right_1x3 : right_image :=
  {| im := [[f2; f3; f5]]; col := [0%Q; 1%Q; 2%Q] |}.

(** * Properties *)

(** ** Reads and writes of arrays *)

Section Array1.
Context {A : Type}.
Implicit Types (l : list A) (d v : A).

Lemma len_nonneg l : 0 <= len l.
Proof. unfold len. lia. Qed.

Lemma len_set1 l i v : len (set1 l i v) = len l.
Proof.
  unfold set1. destruct (_ && _); [|done].
  unfold len. by rewrite length_insert.
Qed.

Lemma get1_in d l i :
  0 <= i < len l -> get1 d l i = default d (l !! Z.to_nat i).
Proof.
  intros Hi. unfold get1, pyidx.
  destruct (Z.ltb_spec i 0); [lia|].
  destruct (Z.leb_spec 0 i); [|lia].
  destruct (Z.ltb_spec i (len l)); [done|lia].
Qed.

Lemma get1_set1_same d l i v :
  0 <= i < len l -> get1 d (set1 l i v) i = v.
Proof.
  intros Hi. rewrite get1_in by (by rewrite len_set1).
  unfold set1, pyidx.
  destruct (Z.ltb_spec i 0); [lia|].
  destruct (Z.leb_spec 0 i); [|lia].
  destruct (Z.ltb_spec i (len l)); [|lia]. simpl.
  rewrite list_lookup_insert_eq; [done|]. unfold len in *. lia.
Qed.

Lemma get1_set1_other d l i j v :
  0 <= i -> 0 <= j -> i <> j -> get1 d (set1 l i v) j = get1 d l j.
Proof.
  intros Hi Hj Hne. unfold get1. rewrite len_set1.
  unfold set1, pyidx.
  destruct (Z.ltb_spec i 0); [lia|].
  destruct (Z.ltb_spec j 0); [lia|].
  destruct (_ && _); [|done].
  destruct (_ && _); [|done].
  rewrite list_lookup_insert_ne; [done|]. lia.
Qed.

Lemma set1_set1 l i v w : set1 (set1 l i v) i w = set1 l i w.
Proof.
  unfold set1 at 1 3. rewrite len_set1. unfold set1.
  destruct (_ && _); [|done]. by rewrite list_insert_insert_eq.
Qed.

Lemma set1_out l i v : 0 <= i -> len l <= i -> set1 l i v = l.
Proof.
  intros Hi Hl. unfold set1, pyidx.
  destruct (Z.ltb_spec i 0); [lia|].
  destruct (Z.ltb_spec i (len l)); [lia|].
  by rewrite andb_false_r.
Qed.

Lemma get1_elem_of (P : A -> Prop) d l i :
  P d -> Forall P l -> P (get1 d l i).
Proof.
  intros Hd Hl. unfold get1. destruct (_ && _); [|done].
  destruct (l !! _) as [x|] eqn:E; simpl; [|done].
  eapply Forall_lookup_1; eauto.
Qed.

Lemma Forall_set1 (P : A -> Prop) l i v :
  P v -> Forall P l -> Forall P (set1 l i v).
Proof.
  intros Hv Hl. unfold set1. destruct (_ && _); [|done].
  by apply Forall_insert.
Qed.

End Array1.

Section Array2.
Context {A : Type}.
Implicit Types (a : list (list A)) (d v : A).

Lemma rect_row n m a y : 0 <= y < n -> rect n m a -> len (get1 [] a y) = m.
Proof.
  intros Hy [Hn Hm]. rewrite get1_in by lia.
  destruct (a !! Z.to_nat y) as [r|] eqn:E; simpl.
  - eapply Forall_lookup_1 in Hm; eauto.
  - apply lookup_ge_None in E. unfold len in *. lia.
Qed.

Lemma rect_set2 n m a y x v : rect n m a -> rect n m (set2 a y x v).
Proof.
  intros [Hn Hm]. split.
  - unfold set2. by rewrite len_set1.
  - unfold set2. unfold set1 at 1. destruct (_ && _) eqn:E; [|done].
    apply Forall_insert; [done|]. rewrite len_set1.
    unfold get1. rewrite E.
    destruct (a !! _) as [r|] eqn:E'; simpl.
    + eapply Forall_lookup_1 in Hm; eauto.
    + apply lookup_ge_None in E'. apply andb_true_iff in E as [E0 E].
      apply Z.ltb_lt in E. apply Z.leb_le in E0. unfold len in *. lia.
Qed.

Lemma rect_full2 v n m : 0 <= n -> 0 <= m -> rect n m (full2 v n m).
Proof.
  intros Hn Hm. unfold full2, rect, len. split.
  - rewrite length_replicate. lia.
  - apply Forall_replicate. rewrite length_replicate. lia.
Qed.

Lemma get2_full2 d v n m y x :
  0 <= y < n -> 0 <= x < m -> get2 d (full2 v n m) y x = v.
Proof.
  intros Hy Hx. unfold get2, full2.
  rewrite (get1_in _ (replicate _ _)) by (unfold len; rewrite length_replicate; lia).
  rewrite lookup_replicate_2 by lia. simpl.
  rewrite get1_in by (unfold len; rewrite length_replicate; lia).
  by rewrite lookup_replicate_2 by lia.
Qed.

Lemma get2_set2_same n m d a y x v :
  rect n m a -> 0 <= y < n -> 0 <= x < m -> get2 d (set2 a y x v) y x = v.
Proof.
  intros Hr Hy Hx. unfold get2, set2.
  destruct Hr as [Hn Hm].
  rewrite get1_set1_same by lia.
  apply get1_set1_same. by rewrite (rect_row n m).
Qed.

Lemma get2_set2_other d a y x y' x' v :
  0 <= y -> 0 <= x -> 0 <= y' -> 0 <= x' -> (y, x) <> (y', x') ->
  get2 d (set2 a y x v) y' x' = get2 d a y' x'.
Proof.
  intros Hy Hx Hy' Hx' Hne. unfold get2, set2.
  destruct (decide (y = y')) as [->|Hyy].
  - destruct (decide (y' < len a)).
    + rewrite get1_set1_same by lia.
      apply get1_set1_other; [done..|]. congruence.
    + by rewrite set1_out by lia.
  - by rewrite get1_set1_other.
Qed.

Lemma set2_set2 a y x v w : 0 <= y -> set2 (set2 a y x v) y x w = set2 a y x w.
Proof.
  intros Hy. unfold set2.
  destruct (decide (y < len a)).
  - rewrite get1_set1_same by lia. by rewrite set1_set1, set1_set1.
  - by rewrite !(set1_out a) by lia.
Qed.

End Array2.

(** ** Loops *)

Lemma for_each_cons {S} i idxs (body : Z -> S -> S) s :
  for_each (i :: idxs) body s = for_each idxs body (body i s).
Proof. done. Qed.

Lemma for_each_inv {S} (P : S -> Prop) idxs (body : Z -> S -> S) s :
  P s -> (forall i s, i ∈ idxs -> P s -> P (body i s)) ->
  P (for_each idxs body s).
Proof.
  revert s. induction idxs as [|i idxs IH]; intros s Hs Hb; [done|].
  rewrite for_each_cons. apply IH.
  - apply Hb; [left|done].
  - intros j t Hj. apply Hb. by right.
Qed.

(** A loop over a pair of arrays whose updates do not read each other is
    a pair of loops. *)
Lemma for_each_pair {S T} idxs (body : Z -> S * T -> S * T) f g s t :
  (forall i s t, body i (s, t) = (f i s, g i t)) ->
  for_each idxs body (s, t) = (for_each idxs f s, for_each idxs g t).
Proof.
  intros Hb. revert s t. induction idxs as [|i idxs IH]; intros s t; [done|].
  by rewrite !for_each_cons, Hb, IH.
Qed.

Lemma elem_of_range a b i : i ∈ range a b <-> a <= i < b.
Proof. unfold range. rewrite elem_of_seqZ. lia. Qed.

Lemma NoDup_range a b : NoDup (range a b).
Proof. apply NoDup_seqZ. Qed.

Lemma len_tabulate {A} n (f : Z -> A) : 0 <= n -> len (tabulate n f) = n.
Proof.
  intros Hn. unfold len, tabulate. rewrite length_fmap, length_seqZ. lia.
Qed.

Lemma get1_tabulate {A} (d : A) n f i :
  0 <= i < n -> get1 d (tabulate n f) i = f i.
Proof.
  intros Hi. rewrite get1_in by (rewrite len_tabulate; lia).
  unfold tabulate. rewrite list_lookup_fmap, lookup_seqZ_lt by lia.
  simpl. f_equal. lia.
Qed.

(** A loop whose iteration [i] writes cell [key i] of a one-dimensional
    array, as a function of the former content of that cell.  The lemmas
    on [loop2] say the same of a nested loop whose iteration [(y, x)]
    writes cell [(y, key x)]. *)

Lemma loop1_frame {A} (d : A) key (body : Z -> list A -> list A) idxs a j :
  (forall i a, i ∈ idxs -> j <> key i -> get1 d (body i a) j = get1 d a j) ->
  j ∉ key <$> idxs ->
  get1 d (for_each idxs body a) j = get1 d a j.
Proof.
  revert a. induction idxs as [|i l IH]; intros a Hf Hn; [done|].
  rewrite for_each_cons. rewrite fmap_cons, not_elem_of_cons in Hn.
  rewrite IH.
  - apply Hf; [left|tauto].
  - intros. apply Hf; [by right|done].
  - tauto.
Qed.

Lemma loop1_val {A} (d : A) key (body : Z -> list A -> list A) G idxs a i :
  (forall i a, len (body i a) = len a) ->
  (forall i0 a, i0 ∈ idxs -> key i <> key i0 ->
     get1 d (body i0 a) (key i) = get1 d a (key i)) ->
  (forall a, 0 <= key i < len a ->
     get1 d (body i a) (key i) = G i (get1 d a (key i))) ->
  NoDup (key <$> idxs) -> i ∈ idxs -> 0 <= key i < len a ->
  get1 d (for_each idxs body a) (key i) = G i (get1 d a (key i)).
Proof.
  intros Hlen. revert a.
  induction idxs as [|i0 l IH]; intros a Hf Hv Hnd Hi Hk.
  { by apply elem_of_nil in Hi. }
  rewrite fmap_cons in Hnd. apply NoDup_cons in Hnd as [Hnot Hnd].
  rewrite for_each_cons.
  apply elem_of_cons in Hi as [->|Hi].
  - rewrite (loop1_frame d key); [by apply Hv| |done].
    intros. apply Hf; [by right|done].
  - rewrite IH; try done.
    + f_equal. apply Hf; [left|].
      intros Heq. apply Hnot. rewrite <- Heq.
      apply list_elem_of_fmap. eauto.
    + intros. apply Hf; [by right|done..].
    + by rewrite Hlen.
Qed.

Lemma loop2_inv {S} (P : S -> Prop) ys xs (body : Z -> Z -> S -> S) s :
  P s -> (forall y x s, y ∈ ys -> x ∈ xs -> P s -> P (body y x s)) ->
  P (loop2 ys xs body s).
Proof.
  intros Hs Hb. unfold loop2. apply for_each_inv; [done|].
  intros y t Hy Ht. apply for_each_inv; [done|].
  intros x u Hx Hu. by apply Hb.
Qed.

Lemma loop2_pair {S T} ys xs (body : Z -> Z -> S * T -> S * T) f g s t :
  (forall y x s t, body y x (s, t) = (f y x s, g y x t)) ->
  loop2 ys xs body (s, t) = (loop2 ys xs f s, loop2 ys xs g t).
Proof.
  intros Hb. unfold loop2.
  apply (for_each_pair ys _
    (fun y s => for_each xs (fun x s => f y x s) s)
    (fun y t => for_each xs (fun x t => g y x t) t)).
  intros y s' t'. by apply for_each_pair.
Qed.

Lemma loop2_frame {A} (d : A) key (body : Z -> Z -> list (list A) -> list (list A))
    ys xs a y' c' :
  (forall y x a, y ∈ ys -> x ∈ xs -> (y', c') <> (y, key x) ->
     get2 d (body y x a) y' c' = get2 d a y' c') ->
  y' ∉ ys \/ c' ∉ key <$> xs ->
  get2 d (loop2 ys xs body a) y' c' = get2 d a y' c'.
Proof.
  intros Hf Hn.
  apply (loop2_inv (fun b => get2 d b y' c' = get2 d a y' c')); [done|].
  intros y x b Hy Hx <-. apply Hf; [done..|].
  intros [= -> ->]. destruct Hn as [Hn|Hn]; [done|].
  apply Hn, list_elem_of_fmap. eauto.
Qed.

Lemma loop2_val {A} (d : A) key (body : Z -> Z -> list (list A) -> list (list A)) G
    (I : list (list A) -> Prop) ys xs a y x :
  (forall y x a, I a -> I (body y x a)) ->
  (forall y0 x0 a, y0 ∈ ys -> x0 ∈ xs -> (y, key x) <> (y0, key x0) ->
     get2 d (body y0 x0 a) y (key x) = get2 d a y (key x)) ->
  (forall a, I a -> get2 d (body y x a) y (key x) = G (get2 d a y (key x))) ->
  NoDup ys -> NoDup (key <$> xs) -> y ∈ ys -> x ∈ xs -> I a ->
  get2 d (loop2 ys xs body a) y (key x) = G (get2 d a y (key x)).
Proof.
  intros HI Hf Hv Hndy Hndx Hy Hx. unfold loop2.
  revert a Hf Hndy Hy. induction ys as [|y0 ys IH]; intros a Hf Hndy Hy Ha.
  { by apply elem_of_nil in Hy. }
  apply NoDup_cons in Hndy as [Hnot Hndy].
  rewrite for_each_cons.
  assert (HIin : forall y1 l b, I b -> I (for_each l (fun x s => body y1 x s) b)).
  { intros y1 l b Hb. apply for_each_inv; [done|]. intros. by apply HI. }
  apply elem_of_cons in Hy as [->|Hy].
  - (* the row of the cell: the remaining rows leave it alone *)
    fold (loop2 ys xs body (for_each xs (fun x s => body y0 x s) a)).
    rewrite (loop2_frame d key); [| |by left].
    2:{ intros y1 x1 b Hy1 Hx1 Hne. apply Hf; [by right|done|done]. }
    clear IH Hnot Hndy.
    assert (Hf' : forall x0 a, x0 ∈ xs -> key x <> key x0 ->
              get2 d (body y0 x0 a) y0 (key x) = get2 d a y0 (key x)).
    { intros. apply Hf; [left|done|congruence]. }
    clear Hf. revert a Ha Hf' Hndx Hx.
    induction xs as [|x0 xs IHx]; intros a Ha Hf Hndx Hx.
    { by apply elem_of_nil in Hx. }
    rewrite fmap_cons in Hndx. apply NoDup_cons in Hndx as [Hnotx Hndx].
    rewrite for_each_cons.
    apply elem_of_cons in Hx as [->|Hx].
    + transitivity (get2 d (body y0 x0 a) y0 (key x0)); [|by apply Hv].
      apply (for_each_inv (fun b => get2 d b y0 (key x0) = _)); [done|].
      intros x1 b Hx1 <-. apply Hf; [by right|].
      intros Heq. apply Hnotx. rewrite Heq. apply list_elem_of_fmap. eauto.
    + rewrite IHx; try done.
      * f_equal. apply Hf; [left|].
        intros Heq. apply Hnotx. rewrite <- Heq. apply list_elem_of_fmap. eauto.
      * by apply HI.
      * intros. apply Hf; [by right|done].
  - rewrite IH; try done.
    + f_equal.
      apply (for_each_inv (fun b => get2 d b y (key x) = _)); [done|].
      intros x1 b Hx1 <-. apply Hf; [left|done|].
      intros [= -> _]. done.
    + intros. apply Hf; [by right|done..].
    + by apply HIin.
Qed.

(** ** Cross support, pixel by pixel *)

Lemma rect_dims {A} n m (a : list (list A)) :
  0 < n -> rect n m a -> nrows a = n /\ ncols a = m.
Proof.
  intros Hn Hr. split; [apply Hr|]. unfold ncols. by apply (rect_row n m).
Qed.

Lemma get2_full3 {A} (d : A) n m k y x :
  0 <= y < n -> 0 <= x < m -> get2 [] (full3 d n m k) y x = replicate (Z.to_nat k) d.
Proof.
  intros Hy Hx. unfold full3, get2, full2.
  rewrite (get1_in _ (replicate _ _)) by (unfold len; rewrite length_replicate; lia).
  rewrite lookup_replicate_2 by lia. simpl.
  rewrite get1_in by (unfold len; rewrite length_replicate; lia).
  by rewrite lookup_replicate_2 by lia.
Qed.

Lemma rect_full3 {A} (d : A) n m k :
  0 <= n -> 0 <= m -> rect n m (full3 d n m k).
Proof.
  intros Hn Hm. unfold full3, full2, rect, len. split.
  - rewrite length_replicate. lia.
  - apply Forall_replicate. rewrite length_replicate. lia.
Qed.

Lemma cross_support_cell img len_arms intensity ny nx y x :
  rect ny nx img -> 0 <= y < ny -> 0 <= x < nx ->
  get2 [] (cross_support img len_arms intensity) y x
  = pixel_cross img len_arms intensity y x.
Proof.
  intros Hr Hy Hx.
  destruct (rect_dims ny nx img) as [Hny Hnx]; [lia|done|].
  unfold cross_support. rewrite Hny, Hnx.
  set (body := fun (y x : Z) (cross : cross) =>
    if F32.isfinite (get2 F32.zero img y x) then
      let '(left_len, left_) := walk_left img len_arms intensity y x in
      let cross :=
        set3 cross y x 0
          (int16 (min_region left_len (1 <=? x) (get2 F32.zero img y left_))) in
      let '(right_len, right_) := walk_right img len_arms intensity y x in
      let cross :=
        set3 cross y x 1
          (int16 (min_region right_len (x <? nx - 1) (get2 F32.zero img y right_))) in
      let '(up_len, up) := walk_up img len_arms intensity y x in
      let cross :=
        set3 cross y x 2
          (int16 (min_region up_len (1 <=? y) (get2 F32.zero img up x))) in
      let '(bot_len, bot) := walk_bot img len_arms intensity y x in
      let cross :=
        set3 cross y x 3
          (int16 (min_region bot_len (y <? ny - 1) (get2 F32.zero img bot x))) in
      cross
    else cross).
  change (get2 [] (loop2 (range 0 ny) (range 0 nx) body (full3 0 ny nx 4)) y x
          = pixel_cross img len_arms intensity y x).
  set (G := fun c : list Z =>
    if F32.isfinite (get2 F32.zero img y x) then
      set1 (set1 (set1 (set1 c 0 (arm_left img len_arms intensity y x))
                       1 (arm_right img len_arms intensity y x))
                 2 (arm_up img len_arms intensity y x))
           3 (arm_bot img len_arms intensity y x)
    else c).
  assert (Hrect : forall y x a, rect ny nx a -> rect ny nx (body y x a)).
  { intros y0 x0 a Ha. unfold body.
    destruct (F32.isfinite (get2 F32.zero img y0 x0)); [|done].
    destruct (walk_left _ _ _ _ _), (walk_right _ _ _ _ _),
             (walk_up _ _ _ _ _), (walk_bot _ _ _ _ _).
    unfold set3. by repeat apply rect_set2. }
  rewrite (loop2_val [] (fun x => x) body G (rect ny nx)
             (range 0 ny) (range 0 nx) _ y x).
  - rewrite get2_full3 by lia. unfold G, pixel_cross.
    by destruct (F32.isfinite _).
  - done.
  - intros y0 x0 a Hy0%elem_of_range Hx0%elem_of_range Hne.
    unfold body. destruct (F32.isfinite (get2 F32.zero img y0 x0)); [|done].
    destruct (walk_left _ _ _ _ _), (walk_right _ _ _ _ _),
             (walk_up _ _ _ _ _), (walk_bot _ _ _ _ _).
    unfold set3. rewrite !get2_set2_other by (done || lia). done.
  - intros a Ha. unfold body, G.
    destruct (F32.isfinite (get2 F32.zero img y x)); [|done].
    unfold arm_left, arm_right, arm_up, arm_bot. rewrite Hny, Hnx.
    destruct (walk_left _ _ _ _ _), (walk_right _ _ _ _ _),
             (walk_up _ _ _ _ _), (walk_bot _ _ _ _ _).
    unfold set3. simpl.
    rewrite !(get2_set2_same ny nx) by (done || lia || by repeat apply rect_set2).
    done.
  - apply NoDup_range.
  - rewrite list_fmap_id. apply NoDup_range.
  - apply elem_of_range. lia.
  - apply elem_of_range. lia.
  - apply rect_full3; lia.
Qed.

Lemma get3_cross_support img len_arms intensity ny nx y x k :
  rect ny nx img -> 0 <= y < ny -> 0 <= x < nx ->
  get3 0 (cross_support img len_arms intensity) y x k
  = get1 0 (pixel_cross img len_arms intensity y x) k.
Proof. intros. unfold get3. by rewrite (cross_support_cell _ _ _ ny nx). Qed.

(** The count of a walk lies between its start and the number of probes. *)
Lemma arm_walk_bounds stop idxs n last :
  n <= (arm_walk stop idxs n last).1 <= n + len idxs.
Proof.
  revert n last. induction idxs as [|i idxs IH]; intros n last; simpl.
  - unfold len. simpl. lia.
  - destruct (stop i); simpl.
    + unfold len. simpl. lia.
    + specialize (IH (n + 1) i). unfold len in *. simpl. lia.
Qed.

Lemma len_range a b : len (range a b) = Z.max 0 (b - a).
Proof. unfold len, range. rewrite length_seqZ. lia. Qed.

Lemma len_range_down a b : len (range_down a b) = Z.max 0 (a - b).
Proof. unfold len, range_down. rewrite length_fmap, length_seqZ. lia. Qed.

Lemma range_cons a b : a < b -> range a b = a :: range (a + 1) b.
Proof.
  intros H. unfold range. rewrite seqZ_cons by lia.
  f_equal. f_equal; lia.
Qed.

Lemma range_nil a b : b <= a -> range a b = [].
Proof. intros H. unfold range. apply seqZ_nil. lia. Qed.

Lemma range_down_cons a b : b < a -> range_down a b = a :: range_down (a - 1) b.
Proof.
  intros H. unfold range_down. rewrite seqZ_cons by lia. simpl.
  f_equal; [lia|].
  replace (Z.succ 0) with (1 + 0) by lia.
  rewrite <- fmap_add_seqZ, <- list_fmap_compose.
  replace (Z.pred (a - b)) with (a - 1 - b) by lia.
  apply list_fmap_ext. intros _ i _. simpl. lia.
Qed.

Lemma range_down_nil a b : a <= b -> range_down a b = [].
Proof. intros H. unfold range_down. rewrite seqZ_nil by lia. done. Qed.

Lemma int16_small z : -32768 <= z <= 32767 -> int16 z = z.
Proof. intros H. unfold int16. rewrite Z.mod_small by lia. lia. Qed.

Lemma min_region_bounds n inside v :
  0 <= n -> 0 <= min_region n inside v <= Z.max n 1.
Proof.
  intros Hn. unfold min_region.
  destruct inside, (F32.isfinite v); simpl; lia.
Qed.

(** Every arm of a finite pixel is at most [max (len_arms - 1) 1]. *)
Lemma arm_left_bounds img len_arms intensity y x :
  len_arms <= 32767 ->
  0 <= arm_left img len_arms intensity y x <= Z.max (len_arms - 1) 1.
Proof.
  intros HL. unfold arm_left, walk_left. cbv zeta.
  match goal with |- context [arm_walk ?s ?l 0 ?z] =>
    pose proof (arm_walk_bounds s l 0 z) as Hw;
    destruct (arm_walk s l 0 z) as [n last] end.
  rewrite len_range_down in Hw. simpl in *.
  pose proof (min_region_bounds n (1 <=? x) (get2 F32.zero img y last)).
  rewrite int16_small; lia.
Qed.

Lemma arm_up_bounds img len_arms intensity y x :
  len_arms <= 32767 ->
  0 <= arm_up img len_arms intensity y x <= Z.max (len_arms - 1) 1.
Proof.
  intros HL. unfold arm_up, walk_up. cbv zeta.
  match goal with |- context [arm_walk ?s ?l 0 ?z] =>
    pose proof (arm_walk_bounds s l 0 z) as Hw;
    destruct (arm_walk s l 0 z) as [n last] end.
  rewrite len_range_down in Hw. simpl in *.
  pose proof (min_region_bounds n (1 <=? y) (get2 F32.zero img last x)).
  rewrite int16_small; lia.
Qed.

Lemma arm_right_bounds img len_arms intensity y x :
  len_arms <= 32767 ->
  0 <= arm_right img len_arms intensity y x <= Z.max (len_arms - 1) 1.
Proof.
  intros HL. unfold arm_right, walk_right. cbv zeta.
  match goal with |- context [arm_walk ?s ?l 0 ?z] =>
    pose proof (arm_walk_bounds s l 0 z) as Hw;
    destruct (arm_walk s l 0 z) as [n last] end.
  rewrite len_range in Hw. simpl in *.
  pose proof (min_region_bounds n (x <? ncols img - 1) (get2 F32.zero img y last)).
  rewrite int16_small; lia.
Qed.

Lemma arm_bot_bounds img len_arms intensity y x :
  len_arms <= 32767 ->
  0 <= arm_bot img len_arms intensity y x <= Z.max (len_arms - 1) 1.
Proof.
  intros HL. unfold arm_bot, walk_bot. cbv zeta.
  match goal with |- context [arm_walk ?s ?l 0 ?z] =>
    pose proof (arm_walk_bounds s l 0 z) as Hw;
    destruct (arm_walk s l 0 z) as [n last] end.
  rewrite len_range in Hw. simpl in *.
  pose proof (min_region_bounds n (y <? nrows img - 1) (get2 F32.zero img last x)).
  rewrite int16_small; lia.
Qed.

Lemma pixel_cross_bounds img len_arms intensity y x k :
  len_arms <= 32767 ->
  0 <= get1 0 (pixel_cross img len_arms intensity y x) k <= Z.max (len_arms - 1) 1.
Proof.
  intros HL.
  apply (get1_elem_of (fun a => 0 <= a <= Z.max (len_arms - 1) 1)); [lia|].
  unfold pixel_cross. destruct (F32.isfinite _).
  - repeat apply Forall_cons_2; [by apply arm_left_bounds|by apply arm_right_bounds
      |by apply arm_up_bounds|by apply arm_bot_bounds|done].
  - repeat apply Forall_cons_2; try done; lia.
Qed.

(** C9: in the tensor returned by [cross_support] for a maximal arm length
    [0 < len_arms] (an [int16]), a pixel whose raster value is not finite
    has its four arm lengths equal to 0, and every pixel has each of its
    four arm lengths between 0 and [len_arms]. *)
Theorem cross_support_invariant img len_arms intensity ny nx y x k :
  rect ny nx img -> 0 < len_arms <= 32767 ->
  0 <= y < ny -> 0 <= x < nx -> 0 <= k < 4 ->
  (F32.isfinite (get2 F32.zero img y x) = false ->
     get3 0 (cross_support img len_arms intensity) y x k = 0)
  /\ 0 <= get3 0 (cross_support img len_arms intensity) y x k <= len_arms.
Proof.
  intros Hr HL Hy Hx Hk.
  rewrite (get3_cross_support _ _ _ ny nx) by done. split.
  - intros Hnf. unfold pixel_cross. rewrite Hnf.
    apply (get1_elem_of (fun a => a = 0)); [done|].
    by repeat constructor.
  - pose proof (pixel_cross_bounds img len_arms intensity y x k). lia.
Qed.

(** No arm reaches beyond the border of the raster. *)
Lemma arm_left_border img len_arms intensity y x :
  len_arms <= 32767 -> 0 <= x -> arm_left img len_arms intensity y x <= x.
Proof.
  intros HL Hx. unfold arm_left, walk_left. cbv zeta.
  match goal with |- context [arm_walk ?s ?l 0 ?z] =>
    pose proof (arm_walk_bounds s l 0 z) as Hw;
    destruct (arm_walk s l 0 z) as [n last] end.
  rewrite len_range_down in Hw. simpl in *. unfold min_region.
  destruct (Z.leb_spec 1 x), (F32.isfinite _); simpl; rewrite int16_small; lia.
Qed.

Lemma arm_up_border img len_arms intensity y x :
  len_arms <= 32767 -> 0 <= y -> arm_up img len_arms intensity y x <= y.
Proof.
  intros HL Hy. unfold arm_up, walk_up. cbv zeta.
  match goal with |- context [arm_walk ?s ?l 0 ?z] =>
    pose proof (arm_walk_bounds s l 0 z) as Hw;
    destruct (arm_walk s l 0 z) as [n last] end.
  rewrite len_range_down in Hw. simpl in *. unfold min_region.
  destruct (Z.leb_spec 1 y), (F32.isfinite _); simpl; rewrite int16_small; lia.
Qed.

Lemma arm_right_border img len_arms intensity y x :
  len_arms <= 32767 -> x < ncols img ->
  arm_right img len_arms intensity y x <= ncols img - 1 - x.
Proof.
  intros HL Hx. unfold arm_right, walk_right. cbv zeta.
  match goal with |- context [arm_walk ?s ?l 0 ?z] =>
    pose proof (arm_walk_bounds s l 0 z) as Hw;
    destruct (arm_walk s l 0 z) as [n last] end.
  rewrite len_range in Hw. simpl in *. unfold min_region.
  destruct (Z.ltb_spec x (ncols img - 1)), (F32.isfinite _); simpl;
    rewrite int16_small; lia.
Qed.

Lemma arm_bot_border img len_arms intensity y x :
  len_arms <= 32767 -> y < nrows img ->
  arm_bot img len_arms intensity y x <= nrows img - 1 - y.
Proof.
  intros HL Hy. unfold arm_bot, walk_bot. cbv zeta.
  match goal with |- context [arm_walk ?s ?l 0 ?z] =>
    pose proof (arm_walk_bounds s l 0 z) as Hw;
    destruct (arm_walk s l 0 z) as [n last] end.
  rewrite len_range in Hw. simpl in *. unfold min_region.
  destruct (Z.ltb_spec y (nrows img - 1)), (F32.isfinite _); simpl;
    rewrite int16_small; lia.
Qed.

(** X25: an arm never leaves the raster.  At every pixel the left arm
    is at most the column index, the right arm at most the number of
    columns that follow, the top arm at most the row index and the
    bottom arm at most the number of rows that follow.  So the indices
    [c + right], [c - left - 1], [y + bot] and [y - top - 1] that steps 2
    and 4 read are inside the integral images, the index -1 being their
    sentinel. *)
Lemma cross_support_within_borders img len_arms intensity ny nx y x :
  rect ny nx img -> len_arms <= 32767 -> 0 <= y < ny -> 0 <= x < nx ->
  let arm := get3 0 (cross_support img len_arms intensity) y x in
  arm 0 <= x /\ arm 1 <= nx - 1 - x /\ arm 2 <= y /\ arm 3 <= ny - 1 - y.
Proof.
  intros Hr HL Hy Hx arm. unfold arm.
  destruct (rect_dims ny nx img) as [Hny Hnx]; [lia|done|].
  rewrite !(get3_cross_support _ _ _ ny nx) by done.
  unfold pixel_cross. destruct (F32.isfinite _).
  - change (get1 0 [?a; ?b; ?c; ?e] 0) with a.
    change (get1 0 [?a; ?b; ?c; ?e] 1) with b.
    change (get1 0 [?a; ?b; ?c; ?e] 2) with c.
    change (get1 0 [?a; ?b; ?c; ?e] 3) with e.
    pose proof (arm_left_border img len_arms intensity y x HL).
    pose proof (arm_up_border img len_arms intensity y x HL).
    pose proof (arm_right_border img len_arms intensity y x HL).
    pose proof (arm_bot_border img len_arms intensity y x HL).
    rewrite Hny, Hnx in *. lia.
  - change (get1 0 [0; 0; 0; 0] 0) with 0.
    change (get1 0 [0; 0; 0; 0] 1) with 0.
    change (get1 0 [0; 0; 0; 0] 2) with 0.
    change (get1 0 [0; 0; 0; 0] 3) with 0.
    lia.
Qed.

Lemma cross_support_within_borders_witness :
  let arm := get3 0 (cross_support uniform5 2 F32.one) 2 2 in
  arm 0 <= 2 /\ arm 1 <= 5 - 1 - 2 /\ arm 2 <= 2 /\ arm 3 <= 5 - 1 - 2.
Proof.
  apply (cross_support_within_borders uniform5 2 F32.one 5 5 2 2).
  - split; [reflexivity|]. repeat constructor.
  - lia.
  - lia.
  - lia.
Defined.

(** A walk that accepts no sample stopped at its first probe, or had
    nothing to probe. *)
Lemma arm_walk_zero stop idxs last :
  (arm_walk stop idxs 0 last).1 = 0 ->
  (arm_walk stop idxs 0 last).2 = default last (head idxs).
Proof.
  destruct idxs as [|i idxs]; simpl; [done|].
  destruct (stop i); [done|].
  pose proof (arm_walk_bounds stop idxs (0 + 1) i). lia.
Qed.

Lemma head_range a b : head (range a b) = if a <? b then Some a else None.
Proof.
  destruct (Z.ltb_spec a b).
  - by rewrite range_cons.
  - by rewrite range_nil.
Qed.

Lemma head_range_down a b : head (range_down a b) = if b <? a then Some a else None.
Proof.
  destruct (Z.ltb_spec b a).
  - by rewrite range_down_cons.
  - by rewrite range_down_nil.
Qed.

(** C8: for a pixel with a finite value whose walk in some direction
    accepts no sample, if the neighbour in that direction lies inside
    the image and has a finite value, the arm length stored for that
    direction is 1.  The four conjuncts are the directions left, right,
    up and down. *)
Theorem cross_support_minimum_region img len_arms intensity ny nx y x :
  rect ny nx img -> 0 <= y < ny -> 0 <= x < nx ->
  F32.isfinite (get2 F32.zero img y x) = true ->
  ((walk_left img len_arms intensity y x).1 = 0 ->
   1 <= x -> F32.isfinite (get2 F32.zero img y (x - 1)) = true ->
   get3 0 (cross_support img len_arms intensity) y x 0 = 1)
  /\ ((walk_right img len_arms intensity y x).1 = 0 ->
      x < nx - 1 -> F32.isfinite (get2 F32.zero img y (x + 1)) = true ->
      get3 0 (cross_support img len_arms intensity) y x 1 = 1)
  /\ ((walk_up img len_arms intensity y x).1 = 0 ->
      1 <= y -> F32.isfinite (get2 F32.zero img (y - 1) x) = true ->
      get3 0 (cross_support img len_arms intensity) y x 2 = 1)
  /\ ((walk_bot img len_arms intensity y x).1 = 0 ->
      y < ny - 1 -> F32.isfinite (get2 F32.zero img (y + 1) x) = true ->
      get3 0 (cross_support img len_arms intensity) y x 3 = 1).
Proof.
  intros Hr Hy Hx Hfin.
  destruct (rect_dims ny nx img) as [Hny Hnx]; [lia|done|].
  rewrite !(get3_cross_support _ _ _ ny nx) by done.
  unfold pixel_cross. rewrite Hfin.
  repeat split; intros Hw Hin Hn.
  - change (arm_left img len_arms intensity y x = 1).
    unfold arm_left. cbv zeta. rewrite Hw.
    unfold walk_left in *. rewrite (arm_walk_zero _ _ _ Hw), head_range_down.
    destruct (Z.ltb_spec (Z.max (x - len_arms) (-1)) (x - 1)); simpl;
      destruct (Z.leb_spec 1 x); try lia; unfold min_region;
      [rewrite Hn|rewrite Hfin]; done.
  - change (arm_right img len_arms intensity y x = 1).
    unfold arm_right. cbv zeta. rewrite Hw.
    unfold walk_right in *. rewrite (arm_walk_zero _ _ _ Hw), head_range, Hnx.
    destruct (Z.ltb_spec (x + 1) (Z.min (x + len_arms) nx)); simpl;
      destruct (Z.ltb_spec x (nx - 1)); try lia; unfold min_region;
      [rewrite Hn|rewrite Hfin]; done.
  - change (arm_up img len_arms intensity y x = 1).
    unfold arm_up. cbv zeta. rewrite Hw.
    unfold walk_up in *. rewrite (arm_walk_zero _ _ _ Hw), head_range_down.
    destruct (Z.ltb_spec (Z.max (y - len_arms) (-1)) (y - 1)); simpl;
      destruct (Z.leb_spec 1 y); try lia; unfold min_region;
      [rewrite Hn|rewrite Hfin]; done.
  - change (arm_bot img len_arms intensity y x = 1).
    unfold arm_bot. cbv zeta. rewrite Hw.
    unfold walk_bot in *. rewrite (arm_walk_zero _ _ _ Hw), head_range, Hny.
    destruct (Z.ltb_spec (y + 1) (Z.min (y + len_arms) ny)); simpl;
      destruct (Z.ltb_spec y (ny - 1)); try lia; unfold min_region;
      [rewrite Hn|rewrite Hfin]; done.
Qed.

(** ** Uniform rasters *)

Lemma F32_sub_diag v : F32.isfinite v = true -> F32.sub v v = F32.zero.
Proof.
  destruct v as [[]|[]| |[] m e]; try done; intros _;
    unfold F32.sub, SFsub; cbv zeta; by rewrite Z.sub_diag.
Qed.

(** With [len_arms = 2] a walk has at most one probe. *)
Section Uniform.
Context (img : image) (ny nx : Z) (v : f32).
Hypothesis img_rect : rect ny nx img.
Hypothesis v_finite : F32.isfinite v = true.
Hypothesis img_uniform :
  forall y x, 0 <= y < ny -> 0 <= x < nx -> get2 F32.zero img y x = v.

Lemma uniform_differs y x y' x' :
  0 <= y < ny -> 0 <= x < nx -> 0 <= y' < ny -> 0 <= x' < nx ->
  differs img F32.one y x y' x' = false.
Proof using img_uniform v_finite.
  intros. unfold differs. rewrite !img_uniform by done.
  by rewrite F32_sub_diag.
Qed.

Lemma uniform_arm_left y x :
  0 <= y < ny -> 0 <= x < nx -> arm_left img 2 F32.one y x = Z.min 1 x.
Proof using All.
  intros Hy Hx. unfold arm_left, walk_left. cbv zeta.
  destruct (decide (x = 0)) as [->|Hx0].
  - rewrite range_down_nil by lia. simpl. by rewrite Z.min_r by lia.
  - rewrite range_down_cons, range_down_nil by lia. simpl.
    rewrite uniform_differs by lia. simpl.
    rewrite img_uniform by lia. unfold min_region. rewrite v_finite.
    destruct (Z.leb_spec 1 x); [|lia]. by rewrite Z.min_l by lia.
Qed.

Lemma uniform_arm_up y x :
  0 <= y < ny -> 0 <= x < nx -> arm_up img 2 F32.one y x = Z.min 1 y.
Proof using All.
  intros Hy Hx. unfold arm_up, walk_up. cbv zeta.
  destruct (decide (y = 0)) as [->|Hy0].
  - rewrite range_down_nil by lia. simpl. by rewrite Z.min_r by lia.
  - rewrite range_down_cons, range_down_nil by lia. simpl.
    rewrite uniform_differs by lia. simpl.
    rewrite img_uniform by lia. unfold min_region. rewrite v_finite.
    destruct (Z.leb_spec 1 y); [|lia]. by rewrite Z.min_l by lia.
Qed.

Lemma uniform_arm_right y x :
  0 <= y < ny -> 0 <= x < nx -> arm_right img 2 F32.one y x = Z.min 1 (nx - 1 - x).
Proof using All.
  intros Hy Hx.
  destruct (rect_dims ny nx img) as [Hny Hnx]; [lia|done|].
  unfold arm_right, walk_right. cbv zeta. rewrite Hnx.
  destruct (decide (x = nx - 1)) as [->|Hx0].
  - rewrite range_nil by lia. simpl.
    destruct (Z.ltb_spec (nx - 1) (nx - 1)); [lia|].
    transitivity 0; [done|lia].
  - rewrite range_cons, range_nil by lia. simpl.
    rewrite uniform_differs by lia. simpl.
    rewrite img_uniform by lia. unfold min_region. rewrite v_finite.
    destruct (Z.ltb_spec x (nx - 1)); [|lia]. by rewrite Z.min_l by lia.
Qed.

Lemma uniform_arm_bot y x :
  0 <= y < ny -> 0 <= x < nx -> arm_bot img 2 F32.one y x = Z.min 1 (ny - 1 - y).
Proof using All.
  intros Hy Hx.
  destruct (rect_dims ny nx img) as [Hny Hnx]; [lia|done|].
  unfold arm_bot, walk_bot. cbv zeta. rewrite Hny.
  destruct (decide (y = ny - 1)) as [->|Hy0].
  - rewrite range_nil by lia. simpl.
    destruct (Z.ltb_spec (ny - 1) (ny - 1)); [lia|].
    transitivity 0; [done|lia].
  - rewrite range_cons, range_nil by lia. simpl.
    rewrite uniform_differs by lia. simpl.
    rewrite img_uniform by lia. unfold min_region. rewrite v_finite.
    destruct (Z.ltb_spec y (ny - 1)); [|lia]. by rewrite Z.min_l by lia.
Qed.

Lemma uniform_cross y x :
  0 <= y < ny -> 0 <= x < nx ->
  get2 [] (cross_support img 2 F32.one) y x
  = [Z.min 1 x; Z.min 1 (nx - 1 - x); Z.min 1 y; Z.min 1 (ny - 1 - y)].
Proof using All.
  intros Hy Hx. rewrite (cross_support_cell _ _ _ ny nx) by done.
  unfold pixel_cross. rewrite img_uniform, v_finite by done.
  by rewrite uniform_arm_left, uniform_arm_right, uniform_arm_up,
    uniform_arm_bot.
Qed.
End Uniform.

(** C3, as the code has it: on a raster whose values are all equal and
    finite, with maximal arm length 2 and intensity threshold 1.0, every
    pixel at distance at least 1 from every border (so every pixel at
    distance at least 2) has its four arm lengths equal to 1, and the arm
    lengths of every pixel are bounded by its distance to the border in
    the direction of the arm. *)
Theorem cross_support_uniform img ny nx v y x :
  rect ny nx img -> F32.isfinite v = true ->
  (forall y x, 0 <= y < ny -> 0 <= x < nx -> get2 F32.zero img y x = v) ->
  0 <= y < ny -> 0 <= x < nx ->
  let arm := get3 0 (cross_support img 2 F32.one) y x in
  (1 <= x <= nx - 2 -> 1 <= y <= ny - 2 ->
     arm 0 = 1 /\ arm 1 = 1 /\ arm 2 = 1 /\ arm 3 = 1)
  /\ arm 0 <= x /\ arm 1 <= nx - 1 - x /\ arm 2 <= y /\ arm 3 <= ny - 1 - y.
Proof.
  intros Hr Hv Hu Hy Hx arm. unfold arm, get3.
  rewrite (uniform_cross img ny nx v) by done.
  change (get1 0 [?a; ?b; ?c; ?e] 0) with a.
  change (get1 0 [?a; ?b; ?c; ?e] 1) with b.
  change (get1 0 [?a; ?b; ?c; ?e] 2) with c.
  change (get1 0 [?a; ?b; ?c; ?e] 3) with e.
  lia.
Qed.

(** ** binary32 facts *)

Lemma binary_round_aux_sign s m e l :
  has_sign s (binary_round_aux F32.prec F32.emax s m e l).
Proof.
  unfold binary_round_aux.
  destruct (shr_fexp _ _ _ _ _) as [mrs' e'].
  destruct (shr_fexp _ _ _ _ _) as [mrs'' e''].
  destruct (shr_m mrs''); [done| |done].
  by destruct (_ <=? _).
Qed.

Lemma of_Z_sign n : 0 <= n -> has_sign false (F32.of_Z n).
Proof.
  intros Hn. destruct n as [|p|p]; [done| |lia].
  unfold F32.of_Z, binary_normalize, binary_round.
  destruct (shl_align _ _ _). apply binary_round_aux_sign.
Qed.

Lemma F32_add_zero_l r : has_sign false r -> F32.add F32.zero r = r.
Proof. destruct r as [[]|[]| |[] m e]; done. Qed.

(** ** Step 2 *)

Lemma fmap_get1_range {A} (d : A) l : get1 d l <$> range 0 (len l) = l.
Proof.
  apply list_eq. intros i. unfold range. rewrite list_lookup_fmap.
  destruct (decide (i < length l)%nat) as [Hi|Hi].
  - rewrite lookup_seqZ_lt by (unfold len; lia). simpl.
    rewrite get1_in by (unfold len; lia).
    replace (Z.to_nat (0 + Z.of_nat i)) with i by lia.
    destruct (l !! i) eqn:E; [done|].
    apply lookup_ge_None in E. lia.
  - rewrite lookup_seqZ_ge by (unfold len; lia). simpl.
    symmetry. apply lookup_ge_None. lia.
Qed.

Lemma cbca_step_2_loops step1 cl cr rc rcr :
  cbca_step_2 step1 cl cr rc rcr
  = (loop2 (range 0 (nrows step1)) (range 0 (len rc))
       (fun y x a =>
          let c := get1 0 rc x in
          set2 a y c
            (F32.sub (get2 F32.zero step1 y (c + arm_min cl cr rc rcr 1 y x))
                     (get2 F32.zero step1 y (c - arm_min cl cr rc rcr 0 y x - 1))))
       (full2 F32.zero (nrows step1) (ncols step1 - 1)),
     loop2 (range 0 (nrows step1)) (range 0 (len rc))
       (fun y x a =>
          let c := get1 0 rc x in
          set2 a y c
            (F32.add (get2 F32.zero a y c)
               (F32.of_Z (arm_min cl cr rc rcr 1 y x + arm_min cl cr rc rcr 0 y x))))
       (full2 F32.zero (nrows step1) (ncols step1 - 1))).
Proof. unfold cbca_step_2. by apply loop2_pair. Qed.

(** C7: for the [i]-th valid column pair, with [left] and [right] the
    minima of the two images' left and right arms, step 2 writes
    [step1[y, c + right] - step1[y, c - left - 1]] as horizontal aggregate
    at the left column [c], and [left + right] as support count. *)
Theorem cbca_step_2_cell step1 cl cr rc rcr ny nx y i :
  rect ny (nx + 1) step1 ->
  NoDup rc -> (forall c, c ∈ rc -> 0 <= c < nx) ->
  0 <= y < ny -> 0 <= i < len rc ->
  let c := get1 0 rc i in
  let c_right := get1 0 rcr i in
  let right_ := Z.min (get3 0 cl y c 1) (get3 0 cr y c_right 1) in
  let left_ := Z.min (get3 0 cl y c 0) (get3 0 cr y c_right 0) in
  0 <= left_ + right_ ->
  let '(step2, sum_step2) := cbca_step_2 step1 cl cr rc rcr in
  get2 F32.zero step2 y c
  = F32.sub (get2 F32.zero step1 y (c + right_))
            (get2 F32.zero step1 y (c - left_ - 1))
  /\ get2 F32.zero sum_step2 y c = F32.of_Z (left_ + right_).
Proof.
  intros Hr Hnd Hrc Hy Hi c c_right right_ left_ Hpos.
  destruct (rect_dims ny (nx + 1) step1) as [Hny Hnx]; [lia|done|].
  rewrite cbca_step_2_loops, Hny, Hnx.
  replace (nx + 1 - 1) with nx by lia.
  assert (Hc : 0 <= c < nx).
  { apply Hrc. unfold c. rewrite <- (fmap_get1_range 0 rc) at 2.
    apply list_elem_of_fmap_2, elem_of_range. lia. }
  assert (Hkey : forall x, x ∈ range 0 (len rc) -> 0 <= get1 0 rc x < nx).
  { intros x Hx. apply Hrc. rewrite <- (fmap_get1_range 0 rc) at 2.
    by apply list_elem_of_fmap_2. }
  split.
  - rewrite (loop2_val F32.zero (get1 0 rc) _
      (fun _ => F32.sub (get2 F32.zero step1 y (c + right_))
                        (get2 F32.zero step1 y (c - left_ - 1)))
      (rect ny nx) _ _ _ y i); try done.
    + intros. by apply rect_set2.
    + intros y0 x0 a Hy0%elem_of_range Hx0%Hkey Hne. cbv zeta.
      apply get2_set2_other; try lia. congruence.
    + intros a Ha. cbv zeta. by rewrite (get2_set2_same ny nx).
    + apply NoDup_range.
    + by rewrite fmap_get1_range.
    + apply elem_of_range. lia.
    + apply elem_of_range. lia.
    + apply rect_full2; lia.
  - rewrite (loop2_val F32.zero (get1 0 rc) _
      (fun cur => F32.add cur (F32.of_Z (right_ + left_)))
      (rect ny nx) _ _ _ y i); try done.
    + rewrite get2_full2 by done. rewrite F32_add_zero_l.
      * f_equal. lia.
      * apply of_Z_sign. lia.
    + intros. by apply rect_set2.
    + intros y0 x0 a Hy0%elem_of_range Hx0%Hkey Hne. cbv zeta.
      apply get2_set2_other; try lia. congruence.
    + intros a Ha. cbv zeta. by rewrite (get2_set2_same ny nx).
    + apply NoDup_range.
    + by rewrite fmap_get1_range.
    + apply elem_of_range. lia.
    + apply elem_of_range. lia.
    + apply rect_full2; lia.
Qed.

(** ** Step 4 *)

Lemma slice_inside n a b : 0 <= a <= n -> 0 <= b <= n -> slice n a b = range a b.
Proof.
  intros Ha Hb. unfold slice, slice_bound, pyidx.
  destruct (Z.ltb_spec a 0), (Z.ltb_spec b 0); try lia.
  f_equal; lia.
Qed.

Lemma sum_col_inside a n m start stop c :
  rect n m a -> 0 <= start <= n -> 0 <= stop <= n ->
  sum_col a start stop c = rows_sum a c (range start stop).
Proof.
  intros [Hn _] Hs He. unfold sum_col, rows_sum, nrows.
  by rewrite Hn, slice_inside.
Qed.

Lemma cbca_step_4_loops step3 sum2 cl cr rc rcr :
  cbca_step_4 step3 sum2 cl cr rc rcr
  = (loop2 (range 0 (nrows (full2 F32.zero (nrows step3 - 1) (ncols step3))))
       (range 0 (len rc))
       (fun y x a =>
          let c := get1 0 rc x in
          set2 a y c
            (F32.sub (get2 F32.zero step3 (y + arm_min cl cr rc rcr 3 y x) c)
                     (get2 F32.zero step3 (y - arm_min cl cr rc rcr 2 y x - 1) c)))
       (full2 F32.zero (nrows step3 - 1) (ncols step3)),
     loop2 (range 0 (nrows (full2 F32.zero (nrows step3 - 1) (ncols step3))))
       (range 0 (len rc))
       (fun y x a =>
          let c := get1 0 rc x in
          let top := arm_min cl cr rc rcr 2 y x in
          let bot := arm_min cl cr rc rcr 3 y x in
          let a := set2 a y c (F32.add (get2 F32.zero a y c) (F32.of_Z (top + bot))) in
          let a :=
            if negb (top =? 0) then
              set2 a y c (F32.add (get2 F32.zero a y c) (sum_col sum2 (y - top) y c))
            else a in
          if negb (bot =? 0) then
            set2 a y c
              (F32.add (get2 F32.zero a y c) (sum_col sum2 (y + 1) (y + bot + 1) c))
          else a)
       sum2).
Proof. unfold cbca_step_4. by apply loop2_pair. Qed.

(** One iteration of the count loop of step 4 is a single write. *)
Lemma step4_count_write sum2 n m a y c top bot :
  rect n m a -> 0 <= y < n -> 0 <= c < m ->
  (let a := set2 a y c (F32.add (get2 F32.zero a y c) (F32.of_Z (top + bot))) in
   let a :=
     if negb (top =? 0) then
       set2 a y c (F32.add (get2 F32.zero a y c) (sum_col sum2 (y - top) y c))
     else a in
   if negb (bot =? 0) then
     set2 a y c
       (F32.add (get2 F32.zero a y c) (sum_col sum2 (y + 1) (y + bot + 1) c))
   else a)
  = set2 a y c (step4_count sum2 top bot y c (get2 F32.zero a y c)).
Proof.
  intros Ha Hy Hc. cbv zeta. unfold step4_count.
  destruct (negb (top =? 0)), (negb (bot =? 0));
    rewrite ?(get2_set2_same n m), ?set2_set2 by (done || lia || by apply rect_set2);
    rewrite ?(get2_set2_same n m), ?set2_set2 by (done || lia || by apply rect_set2);
    done.
Qed.

Lemma nrows_full2 {A} (v : A) n m : 0 <= n -> nrows (full2 v n m) = n.
Proof. intros. unfold nrows, full2, len. rewrite length_replicate. lia. Qed.

(** C6: for the [i]-th valid column [c] and the combined vertical arms
    [top] and [bot], inside the image, the total support count at [(y, c)]
    is the horizontal count there plus [top + bot], plus the horizontal
    counts of rows [y - top .. y - 1] when [top > 0], plus those of rows
    [y + 1 .. y + bot] when [bot > 0]. *)
Theorem cbca_step_4_count step3 sum2 cl cr rc rcr ny nx y i :
  rect (ny + 1) nx step3 -> rect ny nx sum2 ->
  NoDup rc -> (forall c, c ∈ rc -> 0 <= c < nx) ->
  0 <= y < ny -> 0 <= i < len rc ->
  let c := get1 0 rc i in
  let c_right := get1 0 rcr i in
  let top := Z.min (get3 0 cl y c 2) (get3 0 cr y c_right 2) in
  let bot := Z.min (get3 0 cl y c 3) (get3 0 cr y c_right 3) in
  0 <= top <= y -> 0 <= bot <= ny - 1 - y ->
  let total := F32.add (get2 F32.zero sum2 y c) (F32.of_Z (top + bot)) in
  let total :=
    if 0 <? top then F32.add total (rows_sum sum2 c (range (y - top) y))
    else total in
  let total :=
    if 0 <? bot then F32.add total (rows_sum sum2 c (range (y + 1) (y + bot + 1)))
    else total in
  get2 F32.zero (cbca_step_4 step3 sum2 cl cr rc rcr).2 y c = total.
Proof.
  intros Hr3 Hr2 Hnd Hrc Hy Hi c c_right top bot Htop Hbot.
  destruct (rect_dims (ny + 1) nx step3) as [Hny Hnx]; [lia|done|].
  rewrite cbca_step_4_loops, Hny, Hnx. cbn [snd].
  replace (ny + 1 - 1) with ny by lia. rewrite nrows_full2 by lia.
  assert (Hc : 0 <= c < nx).
  { apply Hrc. unfold c. rewrite <- (fmap_get1_range 0 rc) at 2.
    apply list_elem_of_fmap_2, elem_of_range. lia. }
  assert (Hkey : forall x, x ∈ range 0 (len rc) -> 0 <= get1 0 rc x < nx).
  { intros x Hx. apply Hrc. rewrite <- (fmap_get1_range 0 rc) at 2.
    by apply list_elem_of_fmap_2. }
  rewrite (loop2_val F32.zero (get1 0 rc) _
    (step4_count sum2 top bot y c) (rect ny nx) _ _ _ y i); try done.
  - unfold step4_count. cbv zeta.
    rewrite !(sum_col_inside sum2 ny nx) by (done || lia).
    replace (negb (top =? 0)) with (0 <? top) by
      (destruct (Z.ltb_spec 0 top), (Z.eqb_spec top 0); simpl; lia || done).
    replace (negb (bot =? 0)) with (0 <? bot) by
      (destruct (Z.ltb_spec 0 bot), (Z.eqb_spec bot 0); simpl; lia || done).
    done.
  - intros y0 x0 a Ha. cbv zeta.
    destruct (negb _), (negb _); by repeat apply rect_set2.
  - intros y0 x0 a Hy0%elem_of_range Hx0%Hkey Hne. cbv zeta.
    destruct (negb _), (negb _);
      rewrite ?get2_set2_other by (lia || congruence); done.
  - intros a Ha. rewrite (step4_count_write sum2 ny nx) by done.
    by rewrite (get2_set2_same ny nx).
  - apply NoDup_range.
  - by rewrite fmap_get1_range.
  - apply elem_of_range. lia.
  - apply elem_of_range. lia.
Qed.

(** ** Rounding keeps counts at or above one *)

Lemma iter_pos_inv {A} (P : A -> Prop) (f : A -> A) n x :
  (forall x, P x -> P (f x)) -> P x -> P (SpecFloat.iter_pos f n x).
Proof.
  intros Hf. revert x. induction n as [n IH|n IH|]; intros x Hx; simpl; auto.
Qed.

Lemma shr_1_m r : 0 <= shr_m r -> shr_m (shr_1 r) = shr_m r / 2.
Proof.
  destruct r as [m rb sb]. simpl. intros Hm.
  destruct m as [|[p|p|]|p]; simpl; [done| | |done|lia].
  - rewrite Pos2Z.inj_xI. apply Z.div_unique with 1; lia.
  - rewrite Pos2Z.inj_xO. apply Z.div_unique with 0; lia.
Qed.

Lemma iter_shr_1_m n r :
  0 <= shr_m r -> shr_m (SpecFloat.iter_pos shr_1 n r) = shr_m r / 2 ^ Z.pos n.
Proof.
  assert (Hnn : forall r, 0 <= shr_m r -> 0 <= shr_m (shr_1 r)).
  { intros r' Hr'. rewrite shr_1_m by done. apply Z.div_pos; lia. }
  revert r. induction n as [n IH|n IH|]; intros r Hr; simpl.
  - rewrite IH, IH, shr_1_m by (try apply iter_pos_inv; auto).
    assert (Hp : 0 < 2 ^ Z.pos n) by (apply Z.pow_pos_nonneg; lia).
    rewrite !Z.div_div by lia.
    f_equal. rewrite (Pos2Z.inj_xI n).
    replace (2 * Z.pos n + 1) with (1 + Z.pos n + Z.pos n) by lia.
    rewrite !Z.pow_add_r by lia. change (2 ^ 1) with 2. ring.
  - rewrite IH, IH by (try apply iter_pos_inv; auto).
    assert (Hp : 0 < 2 ^ Z.pos n) by (apply Z.pow_pos_nonneg; lia).
    rewrite !Z.div_div by lia.
    f_equal. rewrite (Pos2Z.inj_xO n).
    replace (2 * Z.pos n) with (Z.pos n + Z.pos n) by lia.
    rewrite !Z.pow_add_r by lia. ring.
  - rewrite shr_1_m by done. done.
Qed.

Lemma shr_m_of_loc m l : shr_m (shr_record_of_loc m l) = m.
Proof. by destruct l as [|[]]. Qed.

Lemma shr_fexp_nonneg m e l :
  0 <= m -> 0 <= shr_m (shr_fexp F32.prec F32.emax m e l).1.
Proof.
  intros Hm. unfold shr_fexp, shr.
  destruct (_ - e) as [|n|n]; simpl; rewrite ?shr_m_of_loc; try done.
  rewrite iter_shr_1_m by (by rewrite shr_m_of_loc).
  rewrite shr_m_of_loc. apply Z.div_pos; lia.
Qed.

Lemma round_nearest_even_bounds m l :
  m <= round_nearest_even m l <= m + 1.
Proof.
  unfold round_nearest_even. destruct l as [|[]]; try lia.
  destruct (Z.even m); lia.
Qed.

Lemma binary_round_aux_nonneg m e l :
  0 <= m -> F32.nonneg (binary_round_aux F32.prec F32.emax false m e l).
Proof.
  intros Hm. unfold binary_round_aux.
  pose proof (shr_fexp_nonneg m e l Hm) as H1.
  destruct (shr_fexp _ _ m e l) as [mrs' e']. simpl in H1.
  pose proof (round_nearest_even_bounds (shr_m mrs') (loc_of_shr_record mrs')) as H2.
  pose proof (shr_fexp_nonneg
    (round_nearest_even (shr_m mrs') (loc_of_shr_record mrs')) e' loc_Exact) as H3.
  destruct (shr_fexp _ _ _ e' _) as [mrs'' e'']. simpl in H3.
  destruct (shr_m mrs'') as [|q|q]; [done| |lia].
  by destruct (_ <=? _).
Qed.

Lemma binary_round_nonneg p e :
  F32.nonneg (binary_round F32.prec F32.emax false p e).
Proof.
  unfold binary_round. destruct (shl_align _ _ _).
  by apply binary_round_aux_nonneg.
Qed.

Lemma of_Z_nonneg n : 0 <= n -> F32.nonneg (F32.of_Z n).
Proof.
  intros Hn. destruct n as [|p|p]; [done| |lia].
  apply binary_round_nonneg.
Qed.

Lemma F32_add_nonneg x y :
  F32.nonneg x -> F32.nonneg y -> F32.nonneg (F32.add x y).
Proof.
  destruct x as [sx|sx| |sx mx ex], y as [sy|sy| |sy my ey]; simpl;
    try done; intros Hx Hy; subst; try done.
  - by destruct sx, sy.
  - unfold F32.add, SFadd. cbv zeta. simpl. apply binary_round_nonneg.
Qed.

(** The number of binary digits of a positive number. *)
Lemma digits2_pos_bounds p :
  2 ^ (Z.pos (digits2_pos p) - 1) <= Z.pos p < 2 ^ Z.pos (digits2_pos p).
Proof.
  induction p as [p IH|p IH|]; simpl digits2_pos.
  - rewrite Pos2Z.inj_succ, (Pos2Z.inj_xI p).
    replace (Z.succ (Z.pos (digits2_pos p)) - 1)
      with (Z.succ (Z.pos (digits2_pos p) - 1)) by lia.
    rewrite !Z.pow_succ_r by lia. lia.
  - rewrite Pos2Z.inj_succ, (Pos2Z.inj_xO p).
    replace (Z.succ (Z.pos (digits2_pos p)) - 1)
      with (Z.succ (Z.pos (digits2_pos p) - 1)) by lia.
    rewrite !Z.pow_succ_r by lia. lia.
  - done.
Qed.

Lemma Zdigits2_bounds m :
  0 < m -> 2 ^ (Zdigits2 m - 1) <= m < 2 ^ Zdigits2 m.
Proof. destruct m as [|p|p]; [lia| |lia]. intros _. apply digits2_pos_bounds. Qed.

Lemma Zdigits2_ge m k : 0 <= k -> 2 ^ k <= m -> k < Zdigits2 m.
Proof.
  intros Hk Hm.
  assert (0 < m) by (pose proof (Z.pow_pos_nonneg 2 k); lia).
  pose proof (Zdigits2_bounds m) as [_ Hd]; [done|].
  destruct (Z.lt_ge_cases k (Zdigits2 m)) as [|Hle]; [done|].
  assert (0 <= Zdigits2 m) by (destruct m; simpl; lia).
  pose proof (Z.pow_le_mono_r 2 (Zdigits2 m) k). lia.
Qed.

(** A mantissa of at least 24 digits is shifted down to exactly 24. *)
Lemma shr_fexp_normal m e l :
  0 < m -> 24 <= Zdigits2 m -> -149 <= Zdigits2 m + e - 24 ->
  exists r, shr_fexp F32.prec F32.emax m e l = (r, Zdigits2 m + e - 24)
            /\ 2 ^ 23 <= shr_m r < 2 ^ 24.
Proof.
  intros Hm Hd He.
  pose proof (Zdigits2_bounds m Hm) as Hb.
  unfold shr_fexp, fexp, emin, F32.prec, F32.emax.
  replace (Z.max (Zdigits2 m + e - 24) (3 - 128 - 24) - e) with (Zdigits2 m - 24) by lia.
  unfold shr. destruct (Zdigits2 m - 24) as [|n|n] eqn:En; [| |lia].
  - eexists. split; [f_equal; lia|]. rewrite shr_m_of_loc.
    replace (Zdigits2 m) with 24 in Hb by lia. done.
  - eexists. split; [f_equal; lia|].
    rewrite iter_shr_1_m, shr_m_of_loc by (rewrite shr_m_of_loc; lia).
    assert (Hp : 0 < 2 ^ Z.pos n) by (apply Z.pow_pos_nonneg; lia).
    replace (Zdigits2 m - 1) with (23 + Z.pos n) in Hb by lia.
    replace (Zdigits2 m) with (24 + Z.pos n) in Hb by lia.
    rewrite !Z.pow_add_r in Hb by lia.
    split.
    + apply Z.div_le_lower_bound; lia.
    + apply Z.div_lt_upper_bound; lia.
Qed.

(** Rounding a value of at least one yields at least one. *)
Lemma binary_round_ge_one p e :
  e <= -23 -> 2 ^ (- e) <= Z.pos p ->
  F32.ge (binary_round F32.prec F32.emax false p e) F32.one = true.
Proof.
  intros He Hp.
  pose proof (Zdigits2_ge (Z.pos p) (- e)) as Hd. simpl in Hd.
  specialize (Hd ltac:(lia) Hp).
  unfold binary_round.
  assert (Hal : shl_align p e (fexp F32.prec F32.emax (Z.pos (digits2_pos p) + e)) = (p, e)).
  { unfold shl_align, fexp, emin, F32.prec, F32.emax.
    destruct (_ - e) eqn:E; try done. lia. }
  rewrite Hal. unfold binary_round_aux.
  destruct (shr_fexp_normal (Z.pos p) e loc_Exact) as (r1 & -> & Hr1);
    [done|simpl; lia|simpl; lia|].
  simpl Zdigits2.
  pose proof (round_nearest_even_bounds (shr_m r1) (loc_of_shr_record r1)) as Hrn.
  set (m2 := round_nearest_even (shr_m r1) (loc_of_shr_record r1)) in *.
  pose proof (Zdigits2_ge m2 23) as Hd2. specialize (Hd2 ltac:(lia) ltac:(lia)).
  destruct (shr_fexp_normal m2 (Z.pos (digits2_pos p) + e - 24) loc_Exact)
    as (r2 & -> & Hr2); [lia|lia|lia|].
  destruct (shr_m r2) as [|q|q] eqn:Eq; [lia| |lia].
  destruct (_ <=? _); [|done].
  unfold F32.ge, SFcompare. change F32.one with (S754_finite false 8388608 (-23)).
  cbv iota.
  destruct (Z.compare_spec (Zdigits2 m2 + (Z.pos (digits2_pos p) + e - 24) - 24) (-23))
    as [Heq|Hlt|Hgt]; [|lia|done].
  rewrite Pos.compare_cont_spec. simpl.
  destruct (Pos.compare_spec q 8388608) as [|Hlt|]; [done| |done].
  destruct Hr2 as [Hr2 _]. apply Pos2Z.pos_lt_pos in Hlt.
  destruct (Z.lt_irrefl _ (Z.le_lt_trans _ _ _ Hr2 Hlt)).
Qed.

Lemma iter_xO_value m d : Z.pos (Pos.iter xO m d) = Z.pos m * 2 ^ Z.pos d.
Proof.
  induction d as [|d IH] using Pos.peano_ind.
  - simpl. lia.
  - rewrite Pos.iter_succ, Pos2Z.inj_xO, IH, Pos2Z.inj_succ, Z.pow_succ_r by lia.
    ring.
Qed.

Lemma shl_align_value m e e' :
  e' <= e -> Z.pos (shl_align m e e').1 = Z.pos m * 2 ^ (e - e').
Proof.
  intros He. unfold shl_align.
  destruct (e' - e) as [|d|d] eqn:E; [|lia|].
  - replace (e - e') with 0 by lia. simpl. lia.
  - replace (e - e') with (Z.pos d) by lia. simpl. apply iter_xO_value.
Qed.

(** Adding one to a count that is not negative gives at least one. *)
Lemma F32_add_one_ge_one x :
  F32.nonneg x -> F32.ge (F32.add x F32.one) F32.one = true.
Proof.
  intros Hx. change F32.one with (S754_finite false 8388608 (-23)).
  destruct x as [sx|sx| |sx mx ex]; unfold F32.nonneg in Hx; subst; try done.
  unfold F32.add, SFadd. cbv zeta. unfold cond_Zopp.
  set (ez := Z.min ex (-23)).
  assert (Hez : ez <= ex /\ ez <= -23) by (unfold ez; lia). clearbody ez.
  pose proof (shl_align_value mx ex ez ltac:(lia)) as Ha.
  pose proof (shl_align_value 8388608 (-23) ez ltac:(lia)) as Hb.
  destruct (shl_align mx ex ez) as [ma ea], (shl_align 8388608 (-23) ez) as [mb eb].
  simpl in *. apply binary_round_ge_one; [lia|].
  rewrite Pos2Z.inj_add, Hb.
  replace (- ez) with (23 + (-23 - ez)) by lia.
  rewrite Z.pow_add_r by lia. change (2 ^ 23) with 8388608. lia.
Qed.

(** ** The orchestrator, cell by cell *)

Lemma box_dims ny nx nb cv :
  0 < ny -> 0 < nx -> box ny nx nb cv ->
  dim0 cv = ny /\ dim1 cv = nx /\ dim2 cv = nb.
Proof.
  intros Hny Hnx [Hl Hr]. unfold dim0, dim1, dim2.
  assert (Hrow : rect nx nb (get1 [] cv 0)).
  { rewrite get1_in by lia.
    destruct (cv !! Z.to_nat 0) as [r|] eqn:E; simpl.
    - eapply Forall_lookup_1 in Hr; eauto.
    - apply lookup_ge_None in E. unfold len in *. lia. }
  repeat split; [done|apply Hrow|]. unfold get2. by apply (rect_row nx nb).
Qed.

Lemma get2_tabulate {A} (d : A) n m (f : Z -> Z -> A) i j :
  0 <= i < n -> 0 <= j < m ->
  get2 d (tabulate n (fun i => tabulate m (f i))) i j = f i j.
Proof.
  intros Hi Hj. unfold get2. by rewrite (get1_tabulate _ n), get1_tabulate.
Qed.

Lemma rect_tabulate {A} n m (f : Z -> Z -> A) :
  0 <= n -> 0 <= m -> rect n m (tabulate n (fun i => tabulate m (f i))).
Proof.
  intros Hn Hm. split; [by apply len_tabulate|].
  unfold tabulate at 1. apply Forall_fmap, Forall_forall.
  intros i _. simpl. by apply len_tabulate.
Qed.

Lemma get2_zip2 d op n m a b i j :
  0 <= i < n -> 0 <= j < m ->
  get2 d (zip2 op n m a b) i j = op (get2 F32.zero a i j) (get2 F32.zero b i j).
Proof. intros. unfold zip2. by rewrite (get2_tabulate _ n m). Qed.

Lemma get2_swapaxes01 d n m a i j :
  0 <= i < n -> 0 <= j < m ->
  get2 d (swapaxes01 n m a) j i = get2 F32.zero a i j.
Proof. intros. unfold swapaxes01. by rewrite (get2_tabulate _ m n). Qed.

Lemma get3_swapaxes02 d n m k a i j c :
  0 <= i < n -> 0 <= j < m -> 0 <= c < k ->
  get3 d (swapaxes02 n m k a) c j i = get3 F32.zero a i j c.
Proof.
  intros. unfold swapaxes02, get3, get2.
  by rewrite (get1_tabulate _ k), (get1_tabulate _ m), (get1_tabulate _ n).
Qed.

Lemma get2_map2 d f a n m i j :
  rect n m a -> 0 <= i < n -> 0 <= j < m ->
  get2 d (map2 f a) i j = f (get2 d a i j).
Proof.
  intros [Hn Hm] Hi Hj. unfold get2, map2.
  rewrite !(get1_in _ _ i) by (unfold len in *; rewrite ?length_fmap; lia).
  rewrite list_lookup_fmap.
  destruct (a !! Z.to_nat i) as [r|] eqn:E; simpl.
  - assert (len r = m) by (eapply Forall_lookup_1 in Hm; eauto).
    rewrite !get1_in by (unfold len in *; rewrite ?length_fmap; lia).
    rewrite list_lookup_fmap.
    destruct (r !! Z.to_nat j) eqn:E'; [done|].
    apply lookup_ge_None in E'. unfold len in *. lia.
  - apply lookup_ge_None in E. unfold len in *. lia.
Qed.

(** The layers of the output are computed independently; each cell is
    the seed [(0 + cost) * 0] plus the aggregated cost, divided by the
    denominator of its layer. *)
Lemma cost_volume_aggregation_cell cbca_distance cl cr cv ny nx nb y x d :
  box ny nx nb (cost_volume cv) ->
  0 <= y < ny -> 0 <= x < nx -> 0 <= d < nb ->
  get3 F32.zero (cost_volume (cost_volume_aggregation cbca_distance cl cr cv)) y x d
  = F32.div
      (F32.add
         (F32.mul (F32.add F32.zero (get3 F32.zero (cost_volume cv) y x d)) F32.zero)
         (get2 F32.zero (aggregate_layer cl cr cv d).1 y x))
      (get2 F32.zero (aggregate_layer cl cr cv d).2 y x).
Proof.
  intros Hb Hy Hx Hd.
  destruct (box_dims ny nx nb (cost_volume cv)) as (H0 & H1 & H2); [lia|lia|done|].
  unfold cost_volume_aggregation. cbv zeta. cbn [cost_volume].
  rewrite H0, H1, H2.
  rewrite (get3_swapaxes02 _ nb nx ny) by done.
  set (body := fun dd (agg : volume) =>
    let '(step4, sum4) := aggregate_layer cl cr cv dd in
    let agg :=
      set1 agg dd (zip2 F32.add nx ny (get1 [] agg dd) (swapaxes01 ny nx step4)) in
    set1 agg dd (zip2 F32.div nx ny (get1 [] agg dd) (swapaxes01 ny nx sum4))).
  set (G := fun dd (l : image) =>
    zip2 F32.div nx ny
      (zip2 F32.add nx ny l (swapaxes01 ny nx (aggregate_layer cl cr cv dd).1))
      (swapaxes01 ny nx (aggregate_layer cl cr cv dd).2)).
  unfold get3 at 1.
  change (get2 [] ?a d x) with (get1 [] (get1 [] a d) x).
  match goal with |- context [for_each ?r _ ?a0] =>
    change (for_each r _ a0) with (for_each r body a0);
    rewrite (loop1_val [] (fun i => i) body G r a0 d) end.
  - unfold G. rewrite (get1_tabulate _ nb) by done.
    change (get1 F32.zero (get1 [] ?a x) y) with (get2 F32.zero a x y).
    rewrite !(get2_zip2 _ _ nx ny), !(get2_swapaxes01 _ ny nx) by done.
    rewrite (get2_tabulate _ nx ny) by done.
    unfold get3 at 1.
    change (get1 F32.zero (get2 [] ?a d x) y) with (get2 F32.zero (get1 [] a d) x y).
    rewrite (get1_tabulate _ nb) by done.
    rewrite (get2_zip2 _ _ nx ny) by done.
    change (get2 F32.zero (get1 [] ?a d) x y) with (get3 F32.zero a d x y).
    rewrite (get3_swapaxes02 _ ny nx nb) by done.
    unfold get3 at 1. rewrite get2_full3 by lia.
    replace (get1 F32.zero (replicate (Z.to_nat ny) F32.zero) y) with F32.zero.
    2:{ symmetry. apply (get1_elem_of (fun v => v = F32.zero)); [done|].
        by apply Forall_replicate. }
    done.
  - intros i a. unfold body. destruct (aggregate_layer cl cr cv i).
    by rewrite !len_set1.
  - intros i a Hi%elem_of_range Hne. unfold body.
    destruct (aggregate_layer cl cr cv i).
    rewrite !get1_set1_other by (lia || done). done.
  - intros a Hlen. unfold body, G.
    destruct (aggregate_layer cl cr cv d). simpl.
    rewrite !get1_set1_same by (by rewrite ?len_set1). done.
  - rewrite list_fmap_id. apply NoDup_range.
  - apply elem_of_range. lia.
  - rewrite len_tabulate by lia. lia.
Qed.

(** C5: a cell whose input cost is NaN holds NaN after
    [cost_volume_aggregation], whatever the aggregation contributes to it:
    the seed [(0 + NaN) * 0] is NaN, and NaN absorbs the aggregated cost
    and the normalisation. *)
Theorem cost_volume_aggregation_keeps_nan cbca_distance cl cr cv ny nx nb y x d :
  box ny nx nb (cost_volume cv) ->
  0 <= y < ny -> 0 <= x < nx -> 0 <= d < nb ->
  F32.isnan (get3 F32.zero (cost_volume cv) y x d) = true ->
  F32.isnan
    (get3 F32.zero (cost_volume (cost_volume_aggregation cbca_distance cl cr cv)) y x d)
  = true.
Proof.
  intros Hb Hy Hx Hd Hnan.
  rewrite (cost_volume_aggregation_cell _ _ _ _ ny nx nb) by done.
  destruct (get3 F32.zero (cost_volume cv) y x d); try done.
Qed.

(** ** Shapes of the intermediate arrays *)

Lemma layer_rect cv ny nx nb d :
  0 < ny -> 0 < nx -> box ny nx nb cv -> rect ny nx (layer cv d).
Proof.
  intros Hny Hnx Hb.
  destruct (box_dims ny nx nb cv) as (H0 & H1 & H2); [done..|].
  unfold layer. rewrite H0, H1. apply rect_tabulate; lia.
Qed.

Lemma cbca_step_1_rect cv ny nx :
  0 < ny -> 0 <= nx -> rect ny nx cv -> rect ny (nx + 1) (cbca_step_1 cv).
Proof.
  intros Hny Hnx Hr.
  destruct (rect_dims ny nx cv) as [H0 H1]; [done..|].
  unfold cbca_step_1. rewrite H0, H1.
  apply for_each_inv; [apply rect_full2; lia|].
  intros y a _ Ha. apply for_each_inv; [done|].
  intros x a' _ Ha'. destruct (negb _); by apply rect_set2.
Qed.

Lemma cbca_step_2_rect step1 cl cr rc rcr ny nx :
  0 < ny -> 0 <= nx -> rect ny (nx + 1) step1 ->
  rect ny nx (cbca_step_2 step1 cl cr rc rcr).1
  /\ rect ny nx (cbca_step_2 step1 cl cr rc rcr).2.
Proof.
  intros Hny Hnx Hr.
  destruct (rect_dims ny (nx + 1) step1) as [H0 H1]; [done..|].
  rewrite cbca_step_2_loops, H0, H1. replace (nx + 1 - 1) with nx by lia.
  split; simpl; (apply loop2_inv; [apply rect_full2; lia|]);
    intros; by apply rect_set2.
Qed.

Lemma cbca_step_4_rect step3 sum2 cl cr rc rcr ny nx :
  rect ny nx sum2 -> rect ny nx (cbca_step_4 step3 sum2 cl cr rc rcr).2.
Proof.
  intros Hr. rewrite cbca_step_4_loops. simpl.
  apply loop2_inv; [done|].
  intros y x a _ _ Ha. cbv zeta.
  destruct (negb _), (negb _); by repeat apply rect_set2.
Qed.

(** ** Columns outside the valid set *)

Lemma get2_full2_any {A} (v : A) n m y x : get2 v (full2 v n m) y x = v.
Proof.
  unfold get2, full2.
  apply (get1_elem_of (fun c => c = v)); [done|].
  apply (get1_elem_of (Forall (fun c => c = v))); [done|].
  apply Forall_replicate. by apply Forall_replicate.
Qed.

Lemma cbca_step_2_outside step1 cl cr rc rcr y c :
  (forall c0, c0 ∈ rc -> 0 <= c0) -> 0 <= y -> 0 <= c -> c ∉ rc ->
  get2 F32.zero (cbca_step_2 step1 cl cr rc rcr).1 y c = F32.zero
  /\ get2 F32.zero (cbca_step_2 step1 cl cr rc rcr).2 y c = F32.zero.
Proof.
  intros Hrc Hy Hc Hn. rewrite cbca_step_2_loops. simpl.
  assert (Hkey : forall x, x ∈ range 0 (len rc) -> 0 <= get1 0 rc x).
  { intros x Hx. apply Hrc. rewrite <- (fmap_get1_range 0 rc) at 2.
    by apply list_elem_of_fmap_2. }
  split.
  - rewrite (loop2_frame F32.zero (get1 0 rc)).
    + apply get2_full2_any.
    + intros y0 x0 a Hy0%elem_of_range Hx0%Hkey Hne. cbv zeta.
      apply get2_set2_other; try lia. congruence.
    + right. by rewrite fmap_get1_range.
  - rewrite (loop2_frame F32.zero (get1 0 rc)).
    + apply get2_full2_any.
    + intros y0 x0 a Hy0%elem_of_range Hx0%Hkey Hne. cbv zeta.
      apply get2_set2_other; try lia. congruence.
    + right. by rewrite fmap_get1_range.
Qed.

Lemma cbca_step_4_outside step3 sum2 cl cr rc rcr y c :
  (forall c0, c0 ∈ rc -> 0 <= c0) -> 0 <= y -> 0 <= c -> c ∉ rc ->
  get2 F32.zero (cbca_step_4 step3 sum2 cl cr rc rcr).1 y c = F32.zero
  /\ get2 F32.zero (cbca_step_4 step3 sum2 cl cr rc rcr).2 y c
     = get2 F32.zero sum2 y c.
Proof.
  intros Hrc Hy Hc Hn. rewrite cbca_step_4_loops. simpl.
  assert (Hkey : forall x, x ∈ range 0 (len rc) -> 0 <= get1 0 rc x).
  { intros x Hx. apply Hrc. rewrite <- (fmap_get1_range 0 rc) at 2.
    by apply list_elem_of_fmap_2. }
  split.
  - rewrite (loop2_frame F32.zero (get1 0 rc)).
    + apply get2_full2_any.
    + intros y0 x0 a Hy0%elem_of_range Hx0%Hkey Hne. cbv zeta.
      apply get2_set2_other; try lia. congruence.
    + right. by rewrite fmap_get1_range.
  - rewrite (loop2_frame F32.zero (get1 0 rc)).
    + done.
    + intros y0 x0 a Hy0%elem_of_range Hx0%Hkey Hne. cbv zeta.
      destruct (negb _), (negb _);
        rewrite ?get2_set2_other by (lia || congruence); done.
    + right. by rewrite fmap_get1_range.
Qed.

Lemma elem_of_valid_columns nx_ q w c :
  c ∈ valid_columns nx_ q w <-> 0 <= c < nx_ /\ valid_col q w c = true.
Proof.
  unfold valid_columns. rewrite list_elem_of_In, filter_In, <- list_elem_of_In.
  by rewrite elem_of_range.
Qed.

(** The aggregated slice and its denominator, in terms of the passes. *)
Lemma aggregate_layer_passes cl cr cv d :
  let nx_ := dim1 (cost_volume cv) in
  let q := get1 0%Q (disp cv) d in
  let cr_ := get1 [] cr (i_right q (subpixel cv)) in
  let rc := valid_columns nx_ q (ncols cr_) in
  let rcr := valid_columns_right nx_ q (ncols cr_) in
  let s2 := cbca_step_2 (cbca_step_1 (layer (cost_volume cv) d)) cl cr_ rc rcr in
  let s4 := cbca_step_4 (cbca_step_3 s2.1) s2.2 cl cr_ rc rcr in
  aggregate_layer cl cr cv d = (s4.1, map2 (fun v => F32.add v F32.one) s4.2).
Proof.
  cbv zeta. unfold aggregate_layer.
  destruct (cbca_step_2 _ _ _ _ _) as [step2 sum2]. cbn [fst snd].
  by destruct (cbca_step_4 _ _ _ _ _ _).
Qed.

(** C1, as the code has it: a cell whose column lies outside the
    valid-column set of its disparity layer holds, after
    [cost_volume_aggregation], 0 when its input cost is finite, and NaN
    when its input cost is NaN or infinite. *)
Theorem cost_volume_aggregation_outside cbca_distance cl cr cv ny nx nb y x d :
  box ny nx nb (cost_volume cv) ->
  0 <= y < ny -> 0 <= x < nx -> 0 <= d < nb ->
  let q := get1 0%Q (disp cv) d in
  let w := ncols (get1 [] cr (i_right q (subpixel cv))) in
  valid_col q w x = false ->
  get3 F32.zero (cost_volume (cost_volume_aggregation cbca_distance cl cr cv)) y x d
  = if F32.isfinite (get3 F32.zero (cost_volume cv) y x d)
    then F32.zero else F32.nan.
Proof.
  intros Hb Hy Hx Hd q w Hv.
  rewrite (cost_volume_aggregation_cell _ _ _ _ ny nx nb) by done.
  destruct (box_dims ny nx nb (cost_volume cv)) as (H0 & H1 & H2); [lia|lia|done|].
  rewrite aggregate_layer_passes. cbv zeta. cbn [fst snd]. rewrite H1.
  fold q. fold w.
  assert (Hout : x ∉ valid_columns nx q w).
  { rewrite elem_of_valid_columns. rewrite Hv. intros [_ ?]. done. }
  assert (Hnn : forall c0, c0 ∈ valid_columns nx q w -> 0 <= c0).
  { intros c0 Hc0%elem_of_valid_columns. lia. }
  set (s2 := cbca_step_2 _ _ _ _ _).
  destruct (cbca_step_4_outside (cbca_step_3 s2.1) s2.2 cl
              (get1 [] cr (i_right q (subpixel cv)))
              (valid_columns nx q w) (valid_columns_right nx q w) y x)
    as [-> Hs4]; [done|lia|lia|done|].
  rewrite (get2_map2 _ _ _ ny nx); [|apply cbca_step_4_rect|done|done].
  2:{ apply cbca_step_2_rect; [lia|lia|].
      apply cbca_step_1_rect; [lia|lia|]. by apply (layer_rect _ ny nx nb); try lia. }
  rewrite Hs4. subst s2.
  destruct (cbca_step_2_outside (cbca_step_1 (layer (cost_volume cv) d)) cl
              (get1 [] cr (i_right q (subpixel cv)))
              (valid_columns nx q w) (valid_columns_right nx q w) y x)
    as [_ ->]; [done|lia|lia|done|].
  by destruct (get3 F32.zero (cost_volume cv) y x d) as [[]|[]| |[] m e].
Qed.

(** ** Support counts are never negative *)

Lemma all2_get2 {A} (P : A -> Prop) d a y x : P d -> all2 P a -> P (get2 d a y x).
Proof.
  intros Hd Ha. unfold get2. apply get1_elem_of; [done|].
  by apply (get1_elem_of (Forall P)).
Qed.

Lemma all2_set2 {A} (P : A -> Prop) a y x (v : A) :
  P v -> all2 P a -> all2 P (set2 a y x v).
Proof.
  intros Hv Ha. unfold set2. apply Forall_set1; [|done].
  apply Forall_set1; [done|]. by apply (get1_elem_of (Forall P)).
Qed.

Lemma all2_full2 {A} (P : A -> Prop) v n m : P v -> all2 P (full2 v n m).
Proof. intros. apply Forall_replicate. by apply Forall_replicate. Qed.

Lemma all2_get2_inside {A} (P : A -> Prop) d a n m y x :
  rect n m a -> 0 <= y < n -> 0 <= x < m -> all2 P a -> P (get2 d a y x).
Proof.
  intros [Hn Hm] Hy Hx Ha. unfold get2.
  rewrite (get1_in _ a) by lia.
  destruct (a !! Z.to_nat y) as [r|] eqn:E; simpl.
  - assert (len r = m) by (eapply Forall_lookup_1 in Hm; eauto).
    assert (Forall P r) by (eapply Forall_lookup_1 in Ha; eauto).
    rewrite get1_in by lia.
    destruct (r !! Z.to_nat x) as [c|] eqn:E'; simpl.
    + eapply Forall_lookup_1; eauto.
    + apply lookup_ge_None in E'. unfold len in *. lia.
  - apply lookup_ge_None in E. unfold len in *. lia.
Qed.

Lemma cross_nonneg_get3 c y x k : cross_nonneg c -> 0 <= get3 0 c y x k.
Proof.
  intros Hc. unfold get3. apply (get1_elem_of (fun a => 0 <= a)); [done|].
  by apply (all2_get2 (Forall (fun a => 0 <= a))).
Qed.

Lemma cross_nonneg_set3 c y x k v :
  0 <= v -> cross_nonneg c -> cross_nonneg (set3 c y x k v).
Proof.
  intros Hv Hc. unfold set3. apply all2_set2; [|done].
  apply Forall_set1; [done|].
  by apply (all2_get2 (Forall (fun a => 0 <= a))).
Qed.

Lemma cross_support_nonneg img len_arms intensity :
  len_arms <= 32767 -> cross_nonneg (cross_support img len_arms intensity).
Proof.
  intros HL. unfold cross_support.
  apply for_each_inv.
  { apply Forall_replicate. apply all2_full2. done. }
  intros y a _ Ha. apply for_each_inv; [done|].
  intros x c _ Hc. destruct (F32.isfinite _); [|done].
  pose proof (arm_left_bounds img len_arms intensity y x HL) as Hl.
  pose proof (arm_right_bounds img len_arms intensity y x HL) as Hr.
  pose proof (arm_up_bounds img len_arms intensity y x HL) as Hu.
  pose proof (arm_bot_bounds img len_arms intensity y x HL) as Hb.
  unfold arm_left, arm_right, arm_up, arm_bot in *. cbv zeta in *.
  destruct (walk_left _ _ _ _ _), (walk_right _ _ _ _ _),
           (walk_up _ _ _ _ _), (walk_bot _ _ _ _ _).
  simpl in *. repeat apply cross_nonneg_set3; tauto.
Qed.

Lemma arm_min_nonneg cl cr rc rcr k y x :
  cross_nonneg cl -> cross_nonneg cr -> 0 <= arm_min cl cr rc rcr k y x.
Proof.
  intros Hl Hr. unfold arm_min.
  pose proof (cross_nonneg_get3 cl y (get1 0 rc x) k Hl).
  pose proof (cross_nonneg_get3 cr y (get1 0 rcr x) k Hr). lia.
Qed.

Lemma sum_col_nonneg a start stop c :
  all2 F32.nonneg a -> F32.nonneg (sum_col a start stop c).
Proof.
  intros Ha. unfold sum_col.
  assert (Hz : F32.nonneg F32.zero) by done. revert Hz.
  generalize F32.zero at 1 3. generalize (slice (nrows a) start stop).
  intros l. induction l as [|y l IH]; intros acc Hacc; [done|].
  simpl. apply IH. apply F32_add_nonneg; [done|].
  by apply all2_get2.
Qed.

Lemma cbca_step_2_nonneg step1 cl cr rc rcr :
  cross_nonneg cl -> cross_nonneg cr ->
  all2 F32.nonneg (cbca_step_2 step1 cl cr rc rcr).2.
Proof.
  intros Hl Hr. rewrite cbca_step_2_loops. cbn [snd].
  apply loop2_inv; [by apply all2_full2|].
  intros y x a _ _ Ha. cbv zeta. apply all2_set2; [|done].
  apply F32_add_nonneg; [by apply all2_get2|].
  apply of_Z_nonneg.
  pose proof (arm_min_nonneg cl cr rc rcr 1 y x Hl Hr).
  pose proof (arm_min_nonneg cl cr rc rcr 0 y x Hl Hr). lia.
Qed.

Lemma cbca_step_4_nonneg step3 sum2 cl cr rc rcr :
  cross_nonneg cl -> cross_nonneg cr -> all2 F32.nonneg sum2 ->
  all2 F32.nonneg (cbca_step_4 step3 sum2 cl cr rc rcr).2.
Proof.
  intros Hl Hr H2. rewrite cbca_step_4_loops. cbn [snd].
  apply loop2_inv; [done|].
  intros y x a _ _ Ha. cbv zeta.
  pose proof (arm_min_nonneg cl cr rc rcr 2 y x Hl Hr).
  pose proof (arm_min_nonneg cl cr rc rcr 3 y x Hl Hr).
  assert (H1 : all2 F32.nonneg
    (set2 a y (get1 0 rc x)
       (F32.add (get2 F32.zero a y (get1 0 rc x))
          (F32.of_Z (arm_min cl cr rc rcr 2 y x + arm_min cl cr rc rcr 3 y x))))).
  { apply all2_set2; [|done]. apply F32_add_nonneg; [by apply all2_get2|].
    apply of_Z_nonneg. lia. }
  destruct (negb (arm_min cl cr rc rcr 2 y x =? 0)),
           (negb (arm_min cl cr rc rcr 3 y x =? 0));
    repeat (apply all2_set2;
            [apply F32_add_nonneg;
               [apply all2_get2; [done|]|by apply sum_col_nonneg]|]);
    done.
Qed.

Lemma computes_cross_supports_nonneg left_masked right_masked len_arms intensity i :
  len_arms <= 32767 ->
  cross_nonneg (computes_cross_supports left_masked right_masked len_arms intensity).1
  /\ cross_nonneg
       (get1 [] (computes_cross_supports left_masked right_masked len_arms intensity).2 i).
Proof.
  intros HL. unfold computes_cross_supports. cbn [fst snd]. split.
  - exact (cross_support_nonneg _ _ _ HL).
  - apply (get1_elem_of cross_nonneg); [constructor|].
    apply Forall_fmap, Forall_forall. intros r _.
    exact (cross_support_nonneg _ _ _ HL).
Qed.

(** C10: with the cross supports that [computes_cross_supports] builds
    for a maximal arm length that fits an [int16], the normalisation
    denominator [sum4 + 1] of every pixel of every disparity layer is at
    least 1, and so is not zero. *)
Theorem denominator_at_least_one left_masked right_masked len_arms intensity
    cv ny nx nb y x d :
  box ny nx nb (cost_volume cv) ->
  0 <= y < ny -> 0 <= x < nx -> 0 <= d < nb ->
  -32768 <= len_arms <= 32767 ->
  let cs := computes_cross_supports left_masked right_masked len_arms intensity in
  let denominator := (aggregate_layer cs.1 cs.2 cv d).2 in
  F32.ge (get2 F32.nan denominator y x) F32.one = true
  /\ F32.is_zero (get2 F32.nan denominator y x) = false.
Proof.
  intros Hb Hy Hx Hd HL cs denominator.
  destruct (box_dims ny nx nb (cost_volume cv)) as (H0 & H1 & H2); [lia|lia|done|].
  assert (Hge : F32.ge (get2 F32.nan denominator y x) F32.one = true).
  { unfold denominator. rewrite aggregate_layer_passes. cbv zeta. cbn [fst snd].
    set (q := get1 0%Q (disp cv) d).
    destruct (computes_cross_supports_nonneg left_masked right_masked len_arms
                intensity (i_right q (subpixel cv))) as [Hl Hr]; [lia|].
    fold cs in Hl, Hr.
    match goal with |- context [cbca_step_4 ?s3 ?s2 ?a ?b ?c ?e] =>
      pose proof (cbca_step_4_nonneg s3 s2 a b c e Hl Hr) as Hnn;
      pose proof (cbca_step_4_rect s3 s2 a b c e ny nx) as Hrect end.
    rewrite (get2_map2 _ _ _ ny nx); [| |done|done].
    - apply F32_add_one_ge_one.
      apply (all2_get2_inside F32.nonneg _ _ ny nx); [|done|done|].
      + apply Hrect. rewrite H1. apply cbca_step_2_rect; [lia|lia|].
        apply cbca_step_1_rect; [lia|lia|]. by apply (layer_rect _ ny nx nb); try lia.
      + apply Hnn. by apply cbca_step_2_nonneg.
    - apply Hrect. rewrite H1. apply cbca_step_2_rect; [lia|lia|].
      apply cbca_step_1_rect; [lia|lia|]. by apply (layer_rect _ ny nx nb); try lia. }
  split; [done|].
  destruct (get2 F32.nan denominator y x) as [[]|[]| |[] m e]; done.
Qed.

(** ** Worked inputs *)

(** C2, as the spec states it, fails: the first column of the result is
    not a sentinel 0. *)
Lemma cbca_step_1_no_leading_sentinel :
  cbca_step_1 [[f3; F32.nan; f2]] <> [[F32.zero; f3; f3; f5]].
Proof. vm_compute. discriminate. Qed.

(** C2, as the code has it: on the row [3.0, NaN, 2.0] step 1 returns
    [3.0, 3.0, 5.0, 0.0]: the running sums, in which NaN adds nothing and
    the total is carried forward, followed by one extra trailing column
    that holds 0 and is the one the index -1 reads. *)
Theorem cbca_step_1_row :
  cbca_step_1 [[f3; F32.nan; f2]] = [[f3; f3; f5; F32.zero]]
  /\ get2 F32.nan (cbca_step_1 [[f3; F32.nan; f2]]) 0 (-1) = F32.zero.
Proof. split; vm_compute; reflexivity. Qed.

(** C3, as the spec states it, fails at the centre of [uniform5]: the
    arms have length 1, not 2. *)
Lemma cross_support_uniform_not_2 :
  get2 [] (cross_support uniform5 2 F32.one) 2 2 = [1; 1; 1; 1]
  /\ ~ (forall k, 0 <= k < 4 -> get3 0 (cross_support uniform5 2 F32.one) 2 2 k = 2).
Proof.
  split; [vm_compute; reflexivity|].
  intros H. specialize (H 0 ltac:(lia)). vm_compute in H. discriminate.
Qed.

Lemma cross_support_uniform_witness :
  let arm := get3 0 (cross_support uniform5 2 F32.one) 2 2 in
  arm 0 = 1 /\ arm 1 = 1 /\ arm 2 = 1 /\ arm 3 = 1.
Proof.
  refine (proj1 (cross_support_uniform uniform5 5 5 f3 2 2 _ _ _ _ _) _ _).
  - split; [reflexivity|]. repeat constructor.
  - reflexivity.
  - intros y x Hy Hx.
    assert (Hy' : y = 0 \/ y = 1 \/ y = 2 \/ y = 3 \/ y = 4) by lia.
    assert (Hx' : x = 0 \/ x = 1 \/ x = 2 \/ x = 3 \/ x = 4) by lia.
    destruct Hy' as [->|[->|[->|[->| ->]]]], Hx' as [->|[->|[->|[->| ->]]]];
      vm_compute; reflexivity.
  - lia.
  - lia.
  - lia.
  - lia.
Defined.

Lemma cross_support_invariant_witness :
  (F32.isfinite (get2 F32.zero raster_inf 0 1) = false ->
     get3 0 (cross_support raster_inf 2 F32.one) 0 1 0 = 0)
  /\ 0 <= get3 0 (cross_support raster_inf 2 F32.one) 0 1 0 <= 2.
Proof.
  apply (cross_support_invariant raster_inf 2 F32.one 1 2 0 1 0).
  - split; [reflexivity|]. repeat constructor.
  - lia.
  - lia.
  - lia.
  - lia.
Defined.

Lemma cross_support_minimum_region_witness :
  get3 0 (cross_support raster_step 2 F32.one) 1 1 0 = 1
  /\ get3 0 (cross_support raster_step 2 F32.one) 1 1 1 = 1
  /\ get3 0 (cross_support raster_step 2 F32.one) 1 1 2 = 1
  /\ get3 0 (cross_support raster_step 2 F32.one) 1 1 3 = 1.
Proof.
  destruct (cross_support_minimum_region raster_step 2 F32.one 3 3 1 1)
    as (Hl & Hr & Hu & Hb).
  - split; [reflexivity|]. repeat constructor.
  - lia.
  - lia.
  - reflexivity.
  - split; [|split; [|split]].
    + apply Hl; [reflexivity|lia|reflexivity].
    + apply Hr; [reflexivity|lia|reflexivity].
    + apply Hu; [reflexivity|lia|reflexivity].
    + apply Hb; [reflexivity|lia|reflexivity].
Defined.

Lemma cbca_step_2_cell_witness :
  get2 F32.zero (cbca_step_2 step1_1x2 cross_1x2 cross_1x2 [0; 1] [0; 1]).1 0 0
  = F32.sub (get2 F32.zero step1_1x2 0 1) (get2 F32.zero step1_1x2 0 (-1))
  /\ get2 F32.zero (cbca_step_2 step1_1x2 cross_1x2 cross_1x2 [0; 1] [0; 1]).2 0 0
     = F32.of_Z 1.
Proof.
  pose proof (cbca_step_2_cell step1_1x2 cross_1x2 cross_1x2 [0; 1] [0; 1] 1 2 0 0) as H.
  cbv zeta in H.
  destruct (cbca_step_2 step1_1x2 cross_1x2 cross_1x2 [0; 1] [0; 1]) as [step2 sum2].
  apply H.
  - split; [reflexivity|]. repeat constructor.
  - compute_done.
  - intros c Hc. rewrite !elem_of_cons, elem_of_nil in Hc. lia.
  - lia.
  - vm_compute. split; [discriminate|reflexivity].
  - vm_compute. discriminate.
Defined.

Lemma cbca_step_4_count_witness :
  get2 F32.zero (cbca_step_4 step3_3x1 sum2_3x1 cross_3x1 cross_3x1 [0] [0]).2 1 0
  = F32.add (F32.add (F32.add f3 (F32.of_Z 2)) (rows_sum sum2_3x1 0 [0]))
            (rows_sum sum2_3x1 0 [2]).
Proof.
  apply (cbca_step_4_count step3_3x1 sum2_3x1 cross_3x1 cross_3x1 [0] [0] 3 1 1 0).
  - split; [reflexivity|]. repeat constructor.
  - split; [reflexivity|]. repeat constructor.
  - compute_done.
  - intros c Hc. rewrite !elem_of_cons, elem_of_nil in Hc. lia.
  - lia.
  - vm_compute. split; [discriminate|reflexivity].
  - vm_compute. split; discriminate.
  - vm_compute. split; discriminate.
Defined.

(** C1, as the spec states it, fails: the cost 2.0 of the cell of column
    1 at disparity 1 is replaced by 0. *)
Lemma cost_volume_aggregation_overwrites_outside :
  let cv := volume_1x2x2 f2 in
  let out := cost_volume_aggregation 2 cross_left_1x2 cross_right_1x2 cv in
  valid_col 1%Q (ncols (get1 [] cross_right_1x2 0)) 1 = false
  /\ get3 F32.nan (cost_volume cv) 0 1 1 = f2
  /\ get3 F32.nan (cost_volume out) 0 1 1 = F32.zero
  /\ get3 F32.nan (cost_volume out) 0 1 1 <> get3 F32.nan (cost_volume cv) 0 1 1.
Proof.
  cbv zeta. repeat split; try (vm_compute; reflexivity).
  vm_compute. discriminate.
Qed.

Lemma box_1x2x2 c : box 1 2 2 (cost_volume (volume_1x2x2 c)).
Proof. split; [reflexivity|]. repeat constructor. Qed.

Lemma cost_volume_aggregation_outside_witness :
  get3 F32.zero
    (cost_volume
       (cost_volume_aggregation 2 cross_left_1x2 cross_right_1x2 (volume_1x2x2 f2)))
    0 1 1
  = F32.zero.
Proof.
  apply (cost_volume_aggregation_outside 2 cross_left_1x2 cross_right_1x2
           (volume_1x2x2 f2) 1 2 2 0 1 1).
  - apply box_1x2x2.
  - lia.
  - lia.
  - lia.
  - vm_compute. reflexivity.
Defined.

Lemma cost_volume_aggregation_keeps_nan_witness :
  F32.isnan
    (get3 F32.zero
       (cost_volume
          (cost_volume_aggregation 2 cross_left_1x2 cross_right_1x2
             (volume_1x2x2 F32.nan)))
       0 1 1)
  = true.
Proof.
  apply (cost_volume_aggregation_keeps_nan 2 cross_left_1x2 cross_right_1x2
           (volume_1x2x2 F32.nan) 1 2 2 0 1 1).
  - apply box_1x2x2.
  - lia.
  - lia.
  - lia.
  - reflexivity.
Defined.

Lemma denominator_at_least_one_witness :
  let denominator :=
    (aggregate_layer cross_left_1x2 cross_right_1x2 (volume_1x2x2 f2) 1).2 in
  F32.ge (get2 F32.nan denominator 0 1) F32.one = true
  /\ F32.is_zero (get2 F32.nan denominator 0 1) = false.
Proof.
  apply (denominator_at_least_one (full2 f3 1 2) [full2 f3 1 2] 2 F32.one
           (volume_1x2x2 f2) 1 2 2 0 1 1).
  - apply box_1x2x2.
  - lia.
  - lia.
  - lia.
  - lia.
Defined.

(** ** Configuration *)

(** C4 fails on the code: the schema's test of [aggregation_method] is
    [lambda x: 'cbca'], which returns a non-empty string whatever [x] is,
    so every string passes and construction succeeds with the defaults
    filled in. *)
Theorem check_conf_accepts_other_method :
  init {[ "aggregation_method" := PStr "sgm" ]}
  = Ok {[ "aggregation_method" := PStr "sgm";
          "cbca_intensity" := _CBCA_INTENSITY;
          "cbca_distance" := _CBCA_DISTANCE ]}.
Proof. vm_compute. reflexivity. Qed.

(** The other entries of the schema do reject: a distance of 0 or a
    method that is not a string is a configuration error. *)
Example check_conf_rejects_distance :
  init {[ "aggregation_method" := PStr "cbca"; "cbca_distance" := PInt 0 ]}
  = CheckerError.
Proof. vm_compute. reflexivity. Qed.

Example check_conf_rejects_type :
  init {[ "aggregation_method" := PInt 1 ]} = CheckerError.
Proof. vm_compute. reflexivity. Qed.

(** ** Step 1, in general *)

Lemma set1_get1 {A} (d : A) l i : set1 l i (get1 d l i) = l.
Proof.
  unfold set1, get1. destruct (_ && _) eqn:E; [|done].
  destruct (l !! _) as [v|] eqn:E'; simpl.
  - by apply list_insert_id.
  - apply lookup_ge_None in E'. by apply list_insert_ge.
Qed.

(** A loop that rewrites row [y] only is a loop on that row. *)
Lemma for_each_row {A} (f : Z -> list A -> list A) xs (a : list (list A)) y :
  0 <= y < len a ->
  for_each xs (fun x a => set1 a y (f x (get1 [] a y))) a
  = set1 a y (for_each xs f (get1 [] a y)).
Proof.
  intros Hy. revert a Hy. induction xs as [|x xs IH]; intros a Hy.
  - simpl. by rewrite set1_get1.
  - rewrite !for_each_cons, IH by (by rewrite len_set1).
    by rewrite get1_set1_same, set1_set1.
Qed.

Lemma range_snoc a b : a <= b -> range a (b + 1) = range a b ++ [b].
Proof.
  intros H. unfold range.
  replace (b + 1 - a) with (Z.of_nat (S (Z.to_nat (b - a)))) by lia.
  rewrite seqZ_S. do 2 f_equal; lia.
Qed.

Lemma for_each_ext {S} idxs (body body' : Z -> S -> S) s :
  (forall i s, body i s = body' i s) ->
  for_each idxs body s = for_each idxs body' s.
Proof.
  intros Hb. revert s. induction idxs as [|i idxs IH]; intros s; [done|].
  by rewrite !for_each_cons, Hb, IH.
Qed.

Lemma for_each_snoc {S} idxs i (body : Z -> S -> S) s :
  for_each (idxs ++ [i]) body s = body i (for_each idxs body s).
Proof. unfold for_each. by rewrite foldl_app. Qed.

Lemma running_sum_step row x :
  0 <= x < len row ->
  running_sum row x
  = if F32.isnan (get1 F32.zero row x) then running_sum row (x - 1)
    else F32.add (running_sum row (x - 1)) (get1 F32.zero row x).
Proof.
  intros Hx. unfold running_sum.
  rewrite get1_in by done.
  destruct (row !! Z.to_nat x) as [v|] eqn:E.
  2:{ apply lookup_ge_None in E. unfold len in *. lia. }
  replace (Z.to_nat (x + 1)) with (S (Z.to_nat x)) by lia.
  replace (Z.to_nat (x - 1 + 1)) with (Z.to_nat x) by lia.
  rewrite (take_S_r _ _ v) by done. rewrite foldl_app. done.
Qed.

(** After the columns below [k] the row holds their running sums and is
    still zero from column [k] on. *)
Lemma step1_row_prefix c nx k :
  len c = nx -> (k <= Z.to_nat nx)%nat ->
  let r := for_each (range 0 (Z.of_nat k))
    (fun x r =>
       if negb (F32.isnan (get1 F32.zero c x)) then
         set1 r x (F32.add (get1 F32.zero r (x - 1)) (get1 F32.zero c x))
       else set1 r x (get1 F32.zero r (x - 1)))
    (replicate (Z.to_nat (nx + 1)) F32.zero) in
  len r = nx + 1
  /\ (forall j, 0 <= j < Z.of_nat k -> get1 F32.zero r j = running_sum c j)
  /\ (forall j, Z.of_nat k <= j -> get1 F32.zero r j = F32.zero).
Proof.
  intros Hc. induction k as [|k IH]; intros Hk; cbv zeta.
  - rewrite range_nil by lia. simpl.
    assert (0 <= nx) by (rewrite <- Hc; apply len_nonneg).
    split; [unfold len; rewrite length_replicate; lia|].
    split; [lia|]. intros j Hj.
    apply (get1_elem_of (fun v => v = F32.zero)); [done|].
    by apply Forall_replicate.
  - destruct IH as (Hlen & Hlow & Hhigh); [lia|].
    replace (Z.of_nat (S k)) with (Z.of_nat k + 1) by lia.
    rewrite range_snoc, for_each_snoc by lia.
    set (r := for_each (range 0 (Z.of_nat k)) _ _) in *.
    assert (Hprev : get1 F32.zero r (Z.of_nat k - 1) = running_sum c (Z.of_nat k - 1)).
    { destruct k as [|k'].
      - change (Z.of_nat 0 - 1) with (-1).
        assert (Hw : get1 F32.zero r (-1) = get1 F32.zero r nx).
        { unfold get1, pyidx. rewrite Hlen.
          destruct (Z.ltb_spec (-1) 0); [|lia].
          destruct (Z.ltb_spec nx 0); [lia|].
          replace (nx + 1 + -1) with nx by lia. done. }
        rewrite Hw, Hhigh by lia. done.
      - apply Hlow. lia. }
    assert (Hnew : forall v, len (set1 r (Z.of_nat k) v) = nx + 1)
      by (intros; by rewrite len_set1).
    assert (Hval : (if negb (F32.isnan (get1 F32.zero c (Z.of_nat k)))
                    then F32.add (get1 F32.zero r (Z.of_nat k - 1))
                                 (get1 F32.zero c (Z.of_nat k))
                    else get1 F32.zero r (Z.of_nat k - 1))
                   = running_sum c (Z.of_nat k)).
    { rewrite (running_sum_step c (Z.of_nat k)) by lia. rewrite Hprev.
      by destruct (F32.isnan _). }
    replace (if negb (F32.isnan (get1 F32.zero c (Z.of_nat k)))
             then set1 r (Z.of_nat k)
                    (F32.add (get1 F32.zero r (Z.of_nat k - 1))
                             (get1 F32.zero c (Z.of_nat k)))
             else set1 r (Z.of_nat k) (get1 F32.zero r (Z.of_nat k - 1)))
      with (set1 r (Z.of_nat k) (running_sum c (Z.of_nat k)))
      by (rewrite <- Hval; by destruct (F32.isnan _)).
    split; [done|]. split.
    + intros j Hj. destruct (decide (j = Z.of_nat k)) as [->|Hne].
      * rewrite get1_set1_same by lia. done.
      * rewrite get1_set1_other by lia. apply Hlow. lia.
    + intros j Hj. rewrite get1_set1_other by lia. apply Hhigh. lia.
Qed.

Lemma cbca_step_1_rows cv ny nx y :
  rect ny nx cv -> 0 <= y < ny ->
  get1 [] (cbca_step_1 cv) y
  = step1_row (get1 [] cv y) (replicate (Z.to_nat (nx + 1)) F32.zero).
Proof.
  intros Hr Hy.
  destruct (rect_dims ny nx cv) as [H0 H1]; [lia|done|].
  assert (Hnx : 0 <= nx) by (rewrite <- H1; apply len_nonneg).
  unfold cbca_step_1. rewrite H0, H1.
  set (body := fun y (a : image) =>
    set1 a y (for_each (range 0 nx) (fun x r =>
      if negb (F32.isnan (get2 F32.zero cv y x)) then
        set1 r x (F32.add (get1 F32.zero r (x - 1)) (get2 F32.zero cv y x))
      else set1 r x (get1 F32.zero r (x - 1))) (get1 [] a y))).
  assert (Hlen : forall l (a : image), len (for_each l body a) = len a).
  { intros l. induction l as [|i l IH]; intros a; [done|].
    rewrite for_each_cons, IH. unfold body. by rewrite len_set1. }
  transitivity (get1 [] (for_each (range 0 ny) body (full2 F32.zero ny (nx + 1))) y).
  { f_equal.
    assert (Hgen : forall l (a : image), (forall i, i ∈ l -> 0 <= i < len a) ->
      for_each l (fun y step1 => for_each (range 0 nx) (fun x step1 =>
        if negb (F32.isnan (get2 F32.zero cv y x)) then
          set2 step1 y x (F32.add (get2 F32.zero step1 y (x - 1)) (get2 F32.zero cv y x))
        else set2 step1 y x (get2 F32.zero step1 y (x - 1))) step1) a
      = for_each l body a).
    { intros l. induction l as [|i l IH]; intros a Hl; [done|].
      rewrite !for_each_cons.
      assert (Hi : 0 <= i < len a) by (apply Hl; left).
      rewrite <- IH.
      - f_equal. unfold body.
        rewrite <- (for_each_row (fun x r =>
          if negb (F32.isnan (get2 F32.zero cv i x)) then
            set1 r x (F32.add (get1 F32.zero r (x - 1)) (get2 F32.zero cv i x))
          else set1 r x (get1 F32.zero r (x - 1))) _ a i) by done.
        apply for_each_ext. intros x a'.
        unfold set2, get2. by destruct (negb _).
      - intros j Hj. unfold body. rewrite len_set1. apply Hl. by right. }
    apply Hgen. intros i Hi%elem_of_range.
    unfold full2, len. rewrite length_replicate. lia. }
  rewrite (loop1_val [] (fun i => i) body
    (fun y r => for_each (range 0 nx) (fun x r =>
      if negb (F32.isnan (get2 F32.zero cv y x)) then
        set1 r x (F32.add (get1 F32.zero r (x - 1)) (get2 F32.zero cv y x))
      else set1 r x (get1 F32.zero r (x - 1))) r)).
  - unfold step1_row. rewrite (rect_row ny nx) by done.
    unfold full2. rewrite get1_in by (unfold len; rewrite length_replicate; lia).
    rewrite lookup_replicate_2 by lia. done.
  - intros. unfold body. by rewrite len_set1.
  - intros i a Hi%elem_of_range Hne. unfold body.
    apply get1_set1_other; lia.
  - intros a Ha. unfold body. by rewrite get1_set1_same.
  - rewrite list_fmap_id. apply NoDup_range.
  - apply elem_of_range. lia.
  - unfold full2, len. rewrite length_replicate. lia.
Qed.

Lemma get1_default {A} (d d' : A) l i : 0 <= i < len l -> get1 d l i = get1 d' l i.
Proof.
  intros Hi. rewrite !get1_in by done.
  destruct (l !! Z.to_nat i) eqn:E; [done|].
  apply lookup_ge_None in E. unfold len in *. lia.
Qed.

Lemma get1_last {A} (d : A) l : 0 < len l -> get1 d l (-1) = get1 d l (len l - 1).
Proof.
  intros Hl. unfold get1, pyidx.
  destruct (Z.ltb_spec (-1) 0); [|lia].
  destruct (Z.ltb_spec (len l - 1) 0); [lia|].
  replace (len l + -1) with (len l - 1) by lia. done.
Qed.

(** X1: step 1 in general.  In every row of the integral image, column
    [x] holds the running sum of the costs of columns 0 to [x] in which a
    NaN cost adds nothing, and the extra last column, which index -1
    reads, holds 0. *)
Theorem cbca_step_1_running_sum cv ny nx y x :
  rect ny nx cv -> 0 <= y < ny -> 0 <= x < nx ->
  get2 F32.nan (cbca_step_1 cv) y x = running_sum (get1 [] cv y) x
  /\ get2 F32.nan (cbca_step_1 cv) y nx = F32.zero
  /\ get2 F32.nan (cbca_step_1 cv) y (-1) = F32.zero.
Proof.
  intros Hr Hy Hx. unfold get2.
  rewrite (cbca_step_1_rows cv ny nx) by done.
  pose proof (rect_row ny nx cv y Hy Hr) as Hc.
  destruct (step1_row_prefix (get1 [] cv y) nx (Z.to_nat nx) Hc ltac:(lia))
    as (Hlen & Hlow & Hhigh).
  unfold step1_row. rewrite Hc.
  replace (Z.of_nat (Z.to_nat nx)) with nx in * by lia.
  set (r := for_each (range 0 nx) _ _) in *.
  split; [|split].
  - rewrite (get1_default _ F32.zero) by lia. apply Hlow. lia.
  - rewrite (get1_default _ F32.zero) by lia. apply Hhigh. lia.
  - rewrite get1_last, Hlen by lia.
    replace (nx + 1 - 1) with nx by lia.
    rewrite (get1_default _ F32.zero) by lia. apply Hhigh. lia.
Qed.

Lemma cbca_step_1_running_sum_witness :
  get2 F32.nan (cbca_step_1 costs_nan) 0 2 = running_sum (get1 [] costs_nan 0) 2
  /\ get2 F32.nan (cbca_step_1 costs_nan) 0 3 = F32.zero
  /\ get2 F32.nan (cbca_step_1 costs_nan) 0 (-1) = F32.zero.
Proof.
  apply (cbca_step_1_running_sum costs_nan 1 3 0 2).
  - split; [reflexivity|]. repeat constructor.
  - lia.
  - lia.
Defined.

(** ** Step 3, in general *)

Lemma column_sum_step a x y :
  0 <= y ->
  column_sum a x (y + 1) = F32.add (column_sum a x y) (get2 F32.zero a (y + 1) x).
Proof.
  intros Hy. unfold column_sum.
  rewrite (range_snoc 1 (y + 1)) by lia. by rewrite foldl_app.
Qed.

Lemma step3_row step2 ny nx k a :
  1 <= k < ny -> step3_upto step2 ny nx k a ->
  step3_upto step2 ny nx (k + 1)
    (for_each (range 0 nx) (fun x step3 =>
       set2 step3 k x
         (F32.add (get2 F32.zero step3 (k - 1) x) (get2 F32.zero step2 k x))) a).
Proof.
  intros Hk (Hr & Hlow & Hhigh).
  set (body := fun (_ x : Z) (step3 : image) =>
    set2 step3 k x
      (F32.add (get2 F32.zero step3 (k - 1) x) (get2 F32.zero step2 k x))).
  change (step3_upto step2 ny nx (k + 1) (loop2 [k] (range 0 nx) body a)).
  set (I := fun b : image =>
    rect (ny + 1) nx b
    /\ forall x, 0 <= x -> get2 F32.zero b (k - 1) x = get2 F32.zero a (k - 1) x).
  assert (HI : forall y x b, I b -> I (body y x b)).
  { intros y0 x b [Hb Hrow]. split; [by apply rect_set2|].
    intros x' Hx'. unfold body, set2, get2.
    rewrite (get1_set1_other [] b) by lia. by apply Hrow. }
  split; [|split].
  - apply (loop2_inv I); [by split|]. intros. by apply HI.
  - intros y x Hy Hx. destruct (decide (y = k)) as [->|Hne].
    + rewrite (loop2_val F32.zero (fun i => i) body
        (fun _ => F32.add (get2 F32.zero a (k - 1) x) (get2 F32.zero step2 k x)) I
        [k] (range 0 nx) a k x).
      * replace k with (k - 1 + 1) at 3 by lia.
        rewrite column_sum_step by lia.
        replace (k - 1 + 1) with k by lia.
        f_equal. apply Hlow; lia.
      * done.
      * intros y0 x0 b Hy0%list_elem_of_singleton Hx0%elem_of_range Hne.
        subst y0. unfold body.
        apply get2_set2_other; try lia. congruence.
      * intros b [Hb Hrow]. unfold body.
        rewrite (get2_set2_same (ny + 1) nx) by (done || lia).
        f_equal. apply Hrow. lia.
      * apply NoDup_singleton.
      * rewrite list_fmap_id. apply NoDup_range.
      * by apply list_elem_of_singleton.
      * apply elem_of_range. lia.
      * by split.
    + rewrite (loop2_frame F32.zero (fun i => i)).
      * apply Hlow; lia.
      * intros y0 x0 b Hy0%list_elem_of_singleton Hx0%elem_of_range Hne'.
        subst y0. unfold body. apply get2_set2_other; try lia. congruence.
      * left. rewrite list_elem_of_singleton. lia.
  - intros y x Hy Hx.
    rewrite (loop2_frame F32.zero (fun i => i)).
    + apply Hhigh; lia.
    + intros y0 x0 b Hy0%list_elem_of_singleton Hx0%elem_of_range Hne'.
      subst y0. unfold body. apply get2_set2_other; try lia. congruence.
    + left. rewrite list_elem_of_singleton. lia.
Qed.

Lemma step3_rows step2 ny nx k :
  rect ny nx step2 -> 0 < ny -> (Z.of_nat k < ny) ->
  step3_upto step2 ny nx (1 + Z.of_nat k)
    (for_each (range 1 (1 + Z.of_nat k)) (fun y step3 =>
       for_each (range 0 nx) (fun x step3 =>
         set2 step3 y x
           (F32.add (get2 F32.zero step3 (y - 1) x) (get2 F32.zero step2 y x)))
       step3)
     (set1 (full2 F32.zero (ny + 1) nx) 0 (get1 [] step2 0))).
Proof.
  intros Hr Hny. induction k as [|k IH]; intros Hk.
  - rewrite range_nil by lia. simpl.
    assert (Hnx : 0 <= nx).
    { rewrite <- (rect_row ny nx step2 0) by (done || lia). apply len_nonneg. }
    assert (Hfull : rect (ny + 1) nx (full2 F32.zero (ny + 1) nx))
      by (apply rect_full2; lia).
    split; [|split].
    + destruct Hfull as [Hl Hf]. split; [by rewrite len_set1|].
      apply Forall_set1; [|done]. by apply (rect_row ny nx); try lia.
    + intros y x Hy Hx. assert (y = 0) as -> by lia.
      unfold get2 at 1. rewrite get1_set1_same by (destruct Hfull; lia).
      unfold column_sum. by rewrite range_nil by lia.
    + intros y x Hy Hx. unfold get2.
      rewrite get1_set1_other by lia. apply get2_full2; lia.
  - replace (1 + Z.of_nat (S k)) with (1 + Z.of_nat k + 1) by lia.
    rewrite range_snoc, for_each_snoc by lia.
    apply step3_row; [lia|]. apply IH. lia.
Qed.

Lemma cbca_step_3_upto step2 ny nx :
  rect ny nx step2 -> 0 < ny -> step3_upto step2 ny nx ny (cbca_step_3 step2).
Proof.
  intros Hr Hny.
  destruct (rect_dims ny nx step2) as [H0 H1]; [done..|].
  unfold cbca_step_3. rewrite H0, H1.
  pose proof (step3_rows step2 ny nx (Z.to_nat (ny - 1)) Hr Hny ltac:(lia)) as H.
  by replace (1 + Z.of_nat (Z.to_nat (ny - 1))) with ny in H by lia.
Qed.

(** X2: step 3 in general.  The vertical integral image has one more row
    than the horizontal costs; in every column, row [y] holds the sum of
    the costs of rows 0 to [y], added from top to bottom, and the extra
    last row, which index -1 reads, holds 0. *)
Theorem cbca_step_3_column_sum step2 ny nx y x :
  rect ny nx step2 -> 0 <= y < ny -> 0 <= x < nx ->
  rect (ny + 1) nx (cbca_step_3 step2)
  /\ get2 F32.nan (cbca_step_3 step2) y x = column_sum step2 x y
  /\ get2 F32.nan (cbca_step_3 step2) ny x = F32.zero
  /\ get2 F32.nan (cbca_step_3 step2) (-1) x = F32.zero.
Proof.
  intros Hr Hy Hx.
  destruct (cbca_step_3_upto step2 ny nx Hr ltac:(lia)) as (Hr3 & Hlow & Hhigh).
  assert (Hd : forall y', 0 <= y' <= ny ->
            get2 F32.nan (cbca_step_3 step2) y' x
            = get2 F32.zero (cbca_step_3 step2) y' x).
  { intros y' Hy'. unfold get2. apply get1_default.
    by rewrite (rect_row (ny + 1) nx) by (done || lia). }
  split; [done|]. split; [|split].
  - rewrite Hd by lia. apply Hlow; lia.
  - rewrite Hd by lia. apply Hhigh; lia.
  - unfold get2 at 1. rewrite get1_last by (destruct Hr3; lia).
    destruct Hr3 as [Hl Hf]. rewrite Hl. replace (ny + 1 - 1) with ny by lia.
    fold (get2 F32.nan (cbca_step_3 step2) ny x).
    rewrite Hd by lia. apply Hhigh; lia.
Qed.

Lemma cbca_step_3_column_sum_witness :
  rect (3 + 1) 1 (cbca_step_3 sum2_3x1)
  /\ get2 F32.nan (cbca_step_3 sum2_3x1) 2 0 = column_sum sum2_3x1 0 2
  /\ get2 F32.nan (cbca_step_3 sum2_3x1) 3 0 = F32.zero
  /\ get2 F32.nan (cbca_step_3 sum2_3x1) (-1) 0 = F32.zero.
Proof.
  apply (cbca_step_3_column_sum sum2_3x1 3 1 2 0).
  - split; [reflexivity|]. repeat constructor.
  - lia.
  - lia.
Defined.

(** X3: step 3 does not skip NaN.  A NaN horizontal cost in row [y0]
    makes the vertical integral NaN in that column from row [y0] down to
    the last row of the image. *)
Theorem cbca_step_3_nan_propagates step2 ny nx y0 y x :
  rect ny nx step2 -> 0 <= y0 <= y -> y < ny -> 0 <= x < nx ->
  F32.isnan (get2 F32.zero step2 y0 x) = true ->
  F32.isnan (get2 F32.zero (cbca_step_3 step2) y x) = true.
Proof.
  intros Hr Hy0 Hy Hx Hnan.
  destruct (cbca_step_3_upto step2 ny nx Hr ltac:(lia)) as (_ & Hlow & _).
  rewrite Hlow by lia.
  assert (Hnan_r : forall v, F32.add v F32.nan = F32.nan) by (by intros []).
  assert (Hcol : forall k : nat,
            F32.isnan (column_sum step2 x (y0 + Z.of_nat k)) = true).
  { induction k as [|k IH].
    - replace (y0 + Z.of_nat 0) with y0 by lia.
      destruct (decide (y0 = 0)) as [->|Hne].
      + unfold column_sum. by rewrite range_nil by lia.
      + replace y0 with (y0 - 1 + 1) by lia.
        rewrite column_sum_step by lia. replace (y0 - 1 + 1) with y0 by lia.
        destruct (get2 F32.zero step2 y0 x); try done. by rewrite Hnan_r.
    - replace (y0 + Z.of_nat (S k)) with (y0 + Z.of_nat k + 1) by lia.
      rewrite column_sum_step by lia.
      by destruct (column_sum step2 x (y0 + Z.of_nat k)). }
  specialize (Hcol (Z.to_nat (y - y0))).
  by replace (y0 + Z.of_nat (Z.to_nat (y - y0))) with y in Hcol by lia.
Qed.

Lemma cbca_step_3_nan_propagates_witness :
  F32.isnan (get2 F32.zero (cbca_step_3 column_nan) 2 0) = true.
Proof.
  apply (cbca_step_3_nan_propagates column_nan 3 1 1 2 0).
  - split; [reflexivity|]. repeat constructor.
  - lia.
  - lia.
  - lia.
  - reflexivity.
Defined.

(** ** Steps 2 and 4, the remaining cells *)

(** X4: for the [i]-th valid column [c] and the combined vertical arms
    [top] and [bot], the fully aggregated cost that step 4 writes at
    [(y, c)] is [step3[y + bot, c] - step3[y - top - 1, c]]. *)
Theorem cbca_step_4_cell step3 sum2 cl cr rc rcr ny nx y i :
  rect (ny + 1) nx step3 ->
  NoDup rc -> (forall c, c ∈ rc -> 0 <= c < nx) ->
  0 <= y < ny -> 0 <= i < len rc ->
  let c := get1 0 rc i in
  let c_right := get1 0 rcr i in
  let top := Z.min (get3 0 cl y c 2) (get3 0 cr y c_right 2) in
  let bot := Z.min (get3 0 cl y c 3) (get3 0 cr y c_right 3) in
  get2 F32.nan (cbca_step_4 step3 sum2 cl cr rc rcr).1 y c
  = F32.sub (get2 F32.zero step3 (y + bot) c)
            (get2 F32.zero step3 (y - top - 1) c).
Proof.
  intros Hr Hnd Hrc Hy Hi c c_right top bot.
  destruct (rect_dims (ny + 1) nx step3) as [Hny Hnx]; [lia|done|].
  rewrite cbca_step_4_loops, Hny, Hnx. cbn [fst].
  replace (ny + 1 - 1) with ny by lia. rewrite nrows_full2 by lia.
  assert (Hc : 0 <= c < nx).
  { apply Hrc. unfold c. rewrite <- (fmap_get1_range 0 rc) at 2.
    apply list_elem_of_fmap_2, elem_of_range. lia. }
  assert (Hkey : forall x, x ∈ range 0 (len rc) -> 0 <= get1 0 rc x < nx).
  { intros x Hx. apply Hrc. rewrite <- (fmap_get1_range 0 rc) at 2.
    by apply list_elem_of_fmap_2. }
  rewrite (loop2_val F32.nan (get1 0 rc) _
    (fun _ => F32.sub (get2 F32.zero step3 (y + bot) c)
                      (get2 F32.zero step3 (y - top - 1) c))
    (rect ny nx) _ _ _ y i).
  - done.
  - intros. by apply rect_set2.
  - intros y0 x0 a Hy0%elem_of_range Hx0%Hkey Hne. cbv zeta.
    apply get2_set2_other; try lia. congruence.
  - intros a Ha. cbv zeta. by rewrite (get2_set2_same ny nx).
  - apply NoDup_range.
  - by rewrite fmap_get1_range.
  - apply elem_of_range. lia.
  - apply elem_of_range. lia.
  - apply rect_full2; lia.
Qed.

Lemma cbca_step_4_cell_witness :
  get2 F32.nan (cbca_step_4 step3_3x1 sum2_3x1 cross_3x1 cross_3x1 [0] [0]).1 1 0
  = F32.sub (get2 F32.zero step3_3x1 2 0) (get2 F32.zero step3_3x1 (-1) 0).
Proof.
  apply (cbca_step_4_cell step3_3x1 sum2_3x1 cross_3x1 cross_3x1 [0] [0] 3 1 1 0).
  - split; [reflexivity|]. repeat constructor.
  - compute_done.
  - intros c Hc. rewrite !elem_of_cons, elem_of_nil in Hc. lia.
  - lia.
  - vm_compute. split; [discriminate|reflexivity].
Defined.

(** X5: steps 2 and 4 write the columns listed in [range_col] only.  At
    every other column the horizontal cost, the horizontal count and the
    aggregated cost are 0, and the total count is the horizontal count. *)
Theorem cbca_steps_other_columns step1 step3 sum2 cl cr rc rcr y c :
  (forall c0, c0 ∈ rc -> 0 <= c0) -> 0 <= y -> 0 <= c -> c ∉ rc ->
  get2 F32.zero (cbca_step_2 step1 cl cr rc rcr).1 y c = F32.zero
  /\ get2 F32.zero (cbca_step_2 step1 cl cr rc rcr).2 y c = F32.zero
  /\ get2 F32.zero (cbca_step_4 step3 sum2 cl cr rc rcr).1 y c = F32.zero
  /\ get2 F32.zero (cbca_step_4 step3 sum2 cl cr rc rcr).2 y c
     = get2 F32.zero sum2 y c.
Proof.
  intros Hrc Hy Hc Hn.
  destruct (cbca_step_2_outside step1 cl cr rc rcr y c) as [H1 H2]; [done..|].
  destruct (cbca_step_4_outside step3 sum2 cl cr rc rcr y c) as [H3 H4]; [done..|].
  done.
Qed.

Lemma cbca_steps_other_columns_witness :
  get2 F32.zero (cbca_step_2 step1_1x2 cross_1x2 cross_1x2 [0] [0]).1 0 1 = F32.zero
  /\ get2 F32.zero (cbca_step_2 step1_1x2 cross_1x2 cross_1x2 [0] [0]).2 0 1 = F32.zero
  /\ get2 F32.zero
       (cbca_step_4 [[f5; f3]; [F32.zero; F32.zero]] [[f2; f3]]
          cross_1x2 cross_1x2 [0] [0]).1 0 1 = F32.zero
  /\ get2 F32.zero
       (cbca_step_4 [[f5; f3]; [F32.zero; F32.zero]] [[f2; f3]]
          cross_1x2 cross_1x2 [0] [0]).2 0 1
     = get2 F32.zero [[f2; f3]] 0 1.
Proof.
  apply (cbca_steps_other_columns step1_1x2 [[f5; f3]; [F32.zero; F32.zero]]
           [[f2; f3]] cross_1x2 cross_1x2 [0] [0] 0 1).
  - intros c0 Hc. rewrite !elem_of_cons, elem_of_nil in Hc. lia.
  - lia.
  - lia.
  - intros Hc. rewrite !elem_of_cons, elem_of_nil in Hc. lia.
Defined.

(** X6: the shapes line up.  For a cost volume of [ny] rows and [nx]
    columns, the aggregated slice and the denominator that one layer
    yields have [ny] rows and [nx] columns, as the transposed
    accumulation into [agg[d]] needs. *)
Theorem aggregate_layer_shape cl cr cv ny nx nb d :
  box ny nx nb (cost_volume cv) -> 0 < ny -> 0 < nx ->
  rect ny nx (aggregate_layer cl cr cv d).1
  /\ rect ny nx (aggregate_layer cl cr cv d).2.
Proof.
  intros Hb Hny Hnx.
  destruct (box_dims ny nx nb (cost_volume cv)) as (H0 & H1 & H2); [done..|].
  rewrite aggregate_layer_passes. cbv zeta. cbn [fst snd]. rewrite H1.
  set (q := get1 0%Q (disp cv) d).
  set (cr_ := get1 [] cr (i_right q (subpixel cv))).
  set (rc := valid_columns nx q (ncols cr_)).
  set (rcr := valid_columns_right nx q (ncols cr_)).
  assert (Hs1 : rect ny (nx + 1) (cbca_step_1 (layer (cost_volume cv) d))).
  { apply cbca_step_1_rect; [lia|lia|]. by apply (layer_rect _ ny nx nb). }
  destruct (cbca_step_2_rect _ cl cr_ rc rcr ny nx ltac:(lia) ltac:(lia) Hs1)
    as [Hs2 Hc2].
  set (s2 := cbca_step_2 _ _ _ _ _) in *.
  split.
  - destruct (cbca_step_3_upto s2.1 ny nx Hs2 Hny) as (Hs3 & _ & _).
    destruct (rect_dims (ny + 1) nx (cbca_step_3 s2.1)) as [H3 H4]; [lia|done|].
    rewrite cbca_step_4_loops, H3, H4. cbn [fst].
    replace (ny + 1 - 1) with ny by lia.
    apply loop2_inv; [apply rect_full2; lia|].
    intros. by apply rect_set2.
  - destruct (cbca_step_4_rect (cbca_step_3 s2.1) s2.2 cl cr_ rc rcr ny nx Hc2)
      as [Hl Hf].
    unfold map2. split.
    + unfold len in *. by rewrite length_fmap.
    + apply Forall_fmap. eapply Forall_impl; [exact Hf|].
      intros r Hr. simpl. unfold len in *. by rewrite length_fmap.
Qed.

Lemma aggregate_layer_shape_witness :
  rect 1 2 (aggregate_layer cross_left_1x2 cross_right_1x2 (volume_1x2x2 f2) 1).1
  /\ rect 1 2 (aggregate_layer cross_left_1x2 cross_right_1x2 (volume_1x2x2 f2) 1).2.
Proof.
  apply (aggregate_layer_shape cross_left_1x2 cross_right_1x2 (volume_1x2x2 f2)
           1 2 2 1).
  - apply box_1x2x2.
  - lia.
  - lia.
Defined.

(** ** Cross support, further properties *)

(** X7: every arm is at most [max (len_arms - 1) 1]: a walk probes at most
    [len_arms - 1] samples and the minimum-region rule adds at most one.
    The support window so spans at most [2 * len_arms - 1] pixels when
    [len_arms >= 2], the side of the window in the update of [cmax]. *)
Theorem cross_support_arm_at_most img len_arms intensity ny nx y x k :
  rect ny nx img -> len_arms <= 32767 -> 0 <= y < ny -> 0 <= x < nx ->
  0 <= get3 0 (cross_support img len_arms intensity) y x k
    <= Z.max (len_arms - 1) 1.
Proof.
  intros Hr HL Hy Hx. rewrite (get3_cross_support _ _ _ ny nx) by done.
  by apply pixel_cross_bounds.
Qed.

Lemma cross_support_arm_at_most_witness :
  0 <= get3 0 (cross_support uniform5 2 F32.one) 2 2 0 <= Z.max (2 - 1) 1.
Proof.
  apply (cross_support_arm_at_most uniform5 2 F32.one 5 5 2 2 0).
  - split; [reflexivity|]. repeat constructor.
  - lia.
  - lia.
  - lia.
Defined.

(** X8: the tensor has the shape of the raster, with four channels. *)
Theorem cross_support_shape img len_arms intensity ny nx y x :
  rect ny nx img -> 0 <= y < ny -> 0 <= x < nx ->
  rect ny nx (cross_support img len_arms intensity)
  /\ len (get2 [] (cross_support img len_arms intensity) y x) = 4.
Proof.
  intros Hr Hy Hx. split.
  - destruct (rect_dims ny nx img) as [Hny Hnx]; [lia|done|].
    unfold cross_support. rewrite Hny, Hnx.
    apply for_each_inv; [apply rect_full3; lia|].
    intros y0 a _ Ha. apply for_each_inv; [done|].
    intros x0 c _ Hc. destruct (F32.isfinite _); [|done].
    destruct (walk_left _ _ _ _ _), (walk_right _ _ _ _ _),
             (walk_up _ _ _ _ _), (walk_bot _ _ _ _ _).
    unfold set3. by repeat apply rect_set2.
  - rewrite (cross_support_cell _ _ _ ny nx) by done.
    unfold pixel_cross. by destruct (F32.isfinite _).
Qed.

Lemma cross_support_shape_witness :
  rect 5 5 (cross_support uniform5 2 F32.one)
  /\ len (get2 [] (cross_support uniform5 2 F32.one) 2 2) = 4.
Proof.
  apply (cross_support_shape uniform5 2 F32.one 5 5 2 2).
  - split; [reflexivity|]. repeat constructor.
  - lia.
  - lia.
Defined.

(** A finite sample and an infinite one differ by at least any threshold
    that is a number; a NaN sample differs from nothing. *)
Lemma differs_infinite img intensity y x y' x' :
  F32.isfinite (get2 F32.zero img y x) = true ->
  F32.isfinite (get2 F32.zero img y' x') = false ->
  F32.isnan (get2 F32.zero img y' x') = false ->
  F32.isnan intensity = false ->
  differs img intensity y x y' x' = true.
Proof.
  unfold differs.
  destruct (get2 F32.zero img y x) as [s|s| |s m e],
           (get2 F32.zero img y' x') as [s'|s'| |s' m' e'],
           intensity as [[]|[]| |[] mi ei]; try done.
Qed.

Lemma differs_nan img intensity y x y' x' :
  F32.isnan (get2 F32.zero img y' x') = true ->
  differs img intensity y x y' x' = false.
Proof.
  unfold differs.
  destruct (get2 F32.zero img y x) as [s|s| |s m e],
           (get2 F32.zero img y' x') as [s'|s'| |s' m' e']; try done.
Qed.

(** X9: an infinite neighbour is never part of the support.  For a
    finite pixel, a maximal arm length between 2 and 32767, the largest
    [int16], and a threshold that is a number, the arm towards a
    neighbour whose value is infinite is 0.  The four conjuncts are the
    directions left, right, up and down. *)
Theorem cross_support_infinite_neighbour img len_arms intensity ny nx y x :
  rect ny nx img -> 0 <= y < ny -> 0 <= x < nx -> 2 <= len_arms <= 32767 ->
  F32.isfinite (get2 F32.zero img y x) = true ->
  F32.isnan intensity = false ->
  let invalid v := F32.isfinite v = false /\ F32.isnan v = false in
  (1 <= x -> invalid (get2 F32.zero img y (x - 1)) ->
   get3 0 (cross_support img len_arms intensity) y x 0 = 0)
  /\ (x < nx - 1 -> invalid (get2 F32.zero img y (x + 1)) ->
      get3 0 (cross_support img len_arms intensity) y x 1 = 0)
  /\ (1 <= y -> invalid (get2 F32.zero img (y - 1) x) ->
      get3 0 (cross_support img len_arms intensity) y x 2 = 0)
  /\ (y < ny - 1 -> invalid (get2 F32.zero img (y + 1) x) ->
      get3 0 (cross_support img len_arms intensity) y x 3 = 0).
Proof.
  intros Hr Hy Hx HL Hfin HT invalid.
  destruct (rect_dims ny nx img) as [Hny Hnx]; [lia|done|].
  rewrite !(get3_cross_support _ _ _ ny nx) by done.
  unfold pixel_cross. rewrite Hfin.
  split; [|split; [|split]]; intros Hin [Hinf Hnn].
  - change (arm_left img len_arms intensity y x = 0).
    unfold arm_left, walk_left. cbv zeta.
    rewrite range_down_cons by lia. simpl.
    rewrite differs_infinite by done. simpl.
    unfold min_region. rewrite Hinf. by destruct (1 <=? x).
  - change (arm_right img len_arms intensity y x = 0).
    unfold arm_right, walk_right. cbv zeta. rewrite Hnx.
    rewrite range_cons by lia. simpl.
    rewrite differs_infinite by done. simpl.
    unfold min_region. rewrite Hinf. by destruct (x <? nx - 1).
  - change (arm_up img len_arms intensity y x = 0).
    unfold arm_up, walk_up. cbv zeta.
    rewrite range_down_cons by lia. simpl.
    rewrite differs_infinite by done. simpl.
    unfold min_region. rewrite Hinf. by destruct (1 <=? y).
  - change (arm_bot img len_arms intensity y x = 0).
    unfold arm_bot, walk_bot. cbv zeta. rewrite Hny.
    rewrite range_cons by lia. simpl.
    rewrite differs_infinite by done. simpl.
    unfold min_region. rewrite Hinf. by destruct (y <? ny - 1).
Qed.

Lemma cross_support_infinite_neighbour_witness :
  get3 0 (cross_support raster_inf 2 F32.one) 0 0 1 = 0.
Proof.
  destruct (cross_support_infinite_neighbour raster_inf 2 F32.one 1 2 0 0)
    as (_ & Hr & _ & _).
  - split; [reflexivity|]. repeat constructor.
  - lia.
  - lia.
  - lia.
  - reflexivity.
  - reflexivity.
  - apply Hr; [lia|]. split; reflexivity.
Defined.

(** X10: a NaN neighbour does not stop a walk, which is why the rasters
    are given with NaN replaced by infinity.  For a finite pixel and a
    maximal arm length of at least 2, the arm towards a neighbour whose
    value is NaN is at least 1.  The four conjuncts are the directions
    left, right, up and down. *)
Theorem cross_support_nan_neighbour img len_arms intensity ny nx y x :
  rect ny nx img -> 0 <= y < ny -> 0 <= x < nx -> 2 <= len_arms <= 32767 ->
  F32.isfinite (get2 F32.zero img y x) = true ->
  (1 <= x -> F32.isnan (get2 F32.zero img y (x - 1)) = true ->
   1 <= get3 0 (cross_support img len_arms intensity) y x 0)
  /\ (x < nx - 1 -> F32.isnan (get2 F32.zero img y (x + 1)) = true ->
      1 <= get3 0 (cross_support img len_arms intensity) y x 1)
  /\ (1 <= y -> F32.isnan (get2 F32.zero img (y - 1) x) = true ->
      1 <= get3 0 (cross_support img len_arms intensity) y x 2)
  /\ (y < ny - 1 -> F32.isnan (get2 F32.zero img (y + 1) x) = true ->
      1 <= get3 0 (cross_support img len_arms intensity) y x 3).
Proof.
  intros Hr Hy Hx HL Hfin.
  destruct (rect_dims ny nx img) as [Hny Hnx]; [lia|done|].
  rewrite !(get3_cross_support _ _ _ ny nx) by done.
  unfold pixel_cross. rewrite Hfin.
  split; [|split; [|split]]; intros Hin Hnan.
  - change (1 <= arm_left img len_arms intensity y x).
    unfold arm_left, walk_left. cbv zeta.
    rewrite range_down_cons by lia. simpl. rewrite differs_nan by done.
    match goal with |- context [arm_walk ?s ?l ?n ?z] =>
      pose proof (arm_walk_bounds s l n z) as Hw;
      destruct (arm_walk s l n z) as [n' last] end.
    rewrite len_range_down in Hw. simpl in *.
    pose proof (min_region_bounds n' (1 <=? x) (get2 F32.zero img y last)).
    unfold min_region in *. rewrite int16_small; lia.
  - change (1 <= arm_right img len_arms intensity y x).
    unfold arm_right, walk_right. cbv zeta. rewrite Hnx.
    rewrite range_cons by lia. simpl. rewrite differs_nan by done.
    match goal with |- context [arm_walk ?s ?l ?n ?z] =>
      pose proof (arm_walk_bounds s l n z) as Hw;
      destruct (arm_walk s l n z) as [n' last] end.
    rewrite len_range in Hw. simpl in *.
    pose proof (min_region_bounds n' (x <? nx - 1) (get2 F32.zero img y last)).
    unfold min_region in *. rewrite int16_small; lia.
  - change (1 <= arm_up img len_arms intensity y x).
    unfold arm_up, walk_up. cbv zeta.
    rewrite range_down_cons by lia. simpl. rewrite differs_nan by done.
    match goal with |- context [arm_walk ?s ?l ?n ?z] =>
      pose proof (arm_walk_bounds s l n z) as Hw;
      destruct (arm_walk s l n z) as [n' last] end.
    rewrite len_range_down in Hw. simpl in *.
    pose proof (min_region_bounds n' (1 <=? y) (get2 F32.zero img last x)).
    unfold min_region in *. rewrite int16_small; lia.
  - change (1 <= arm_bot img len_arms intensity y x).
    unfold arm_bot, walk_bot. cbv zeta. rewrite Hny.
    rewrite range_cons by lia. simpl. rewrite differs_nan by done.
    match goal with |- context [arm_walk ?s ?l ?n ?z] =>
      pose proof (arm_walk_bounds s l n z) as Hw;
      destruct (arm_walk s l n z) as [n' last] end.
    rewrite len_range in Hw. simpl in *.
    pose proof (min_region_bounds n' (y <? ny - 1) (get2 F32.zero img last x)).
    unfold min_region in *. rewrite int16_small; lia.
Qed.

Lemma cross_support_nan_neighbour_witness :
  1 <= get3 0 (cross_support raster_nan 2 F32.one) 0 0 1.
Proof.
  destruct (cross_support_nan_neighbour raster_nan 2 F32.one 1 2 0 0)
    as (_ & Hr & _ & _).
  - split; [reflexivity|]. repeat constructor.
  - lia.
  - lia.
  - lia.
  - reflexivity.
  - apply Hr; [lia|reflexivity].
Defined.

(** ** The orchestrator, further properties *)

Lemma Qint_floor q : (0 <= q)%Q -> Qint q = Qfloor q.
Proof.
  intros Hq. unfold Qint.
  destruct (Qle_bool 0 q) eqn:E; [done|].
  apply Qle_bool_iff in Hq. congruence.
Qed.

(** The integer part of a rational in [0, n) is an integer in [0, n). *)
Lemma Qint_bounds q n : (0 <= q)%Q -> (q < inject_Z n)%Q -> 0 <= Qint q < n.
Proof.
  intros H0 Hn. rewrite Qint_floor by done. split.
  - change 0 with (Qfloor 0). by apply Qfloor_resp_le.
  - rewrite Zlt_Qlt. eapply Qle_lt_trans; [apply Qfloor_le|done].
Qed.

Lemma Qint_integer q k : (q == inject_Z k)%Q -> Qint q = k.
Proof.
  intros Hq. unfold Qint.
  destruct (Qle_bool 0 q); rewrite Hq; [apply Qfloor_Z|apply Qceiling_Z].
Qed.

Lemma Qfloor_multiple q s m :
  0 < s -> (q * inject_Z s == inject_Z m)%Q -> Qfloor q = m / s.
Proof.
  intros Hs Hq.
  assert (Hm : (q == m # Z.to_pos s)%Q).
  { unfold Qeq in *. simpl in *. rewrite Z2Pos.id by done. lia. }
  rewrite Hm. simpl. by rewrite Z2Pos.id.
Qed.

(** X11: the right image selected for a disparity of the grid.  For a
    subpixel factor [s] of 1, 2 or 4 and a disparity [m / s], negative
    or not, the index of the right cross support is [m mod s]; it lies
    in [0, s), so it selects one of the [s] shifted right images. *)
Theorem i_right_multiple q s m :
  s = 1 \/ s = 2 \/ s = 4 ->
  (q * inject_Z s == inject_Z m)%Q ->
  i_right q s = m mod s /\ 0 <= i_right q s < s.
Proof.
  intros Hs Hq.
  assert (Hs0 : 0 < s) by lia.
  assert (Hi : i_right q s = m mod s).
  { unfold i_right. apply Qint_integer. unfold Qfrac.
    rewrite (Qfloor_multiple q s m) by done.
    rewrite Z.mod_eq by lia.
    unfold Z.sub. rewrite inject_Z_plus, inject_Z_opp, inject_Z_mult.
    rewrite <- Hq. ring. }
  split; [done|]. rewrite Hi. apply Z.mod_pos_bound. lia.
Qed.

Lemma i_right_multiple_witness :
  i_right (-1 # 4) 4 = -1 mod 4 /\ 0 <= i_right (-1 # 4) 4 < 4.
Proof.
  apply (i_right_multiple (-1 # 4) 4 (-1)).
  - right. right. reflexivity.
  - reflexivity.
Defined.

Lemma valid_col_spec q w c :
  valid_col q w c = true
  <-> (0 <= inject_Z c + q)%Q /\ (inject_Z c + q < inject_Z w)%Q.
Proof.
  unfold valid_col, Qltb. rewrite andb_true_iff, negb_true_iff, Qle_bool_iff.
  split; intros [H0 H1]; (split; [done|]).
  - apply Qnot_le_lt. intros Hle. apply Qle_bool_iff in Hle. congruence.
  - destruct (Qle_bool _ _) eqn:E; [|done].
    apply Qle_bool_iff in E. by apply Qle_not_lt in E.
Qed.

(** X12: the column lists that the orchestrator hands to steps 2 and 4
    are well formed.  The left columns are distinct and inside the cost
    volume, the right columns are as many and lie inside the right image
    of [w] columns. *)
Theorem valid_columns_well_formed nx_ q w :
  NoDup (valid_columns nx_ q w)
  /\ (forall c, c ∈ valid_columns nx_ q w -> 0 <= c < nx_)
  /\ len (valid_columns_right nx_ q w) = len (valid_columns nx_ q w)
  /\ (forall c, c ∈ valid_columns_right nx_ q w -> 0 <= c < w).
Proof.
  split; [|split; [|split]].
  - apply NoDup_ListNoDup, List.NoDup_filter, NoDup_ListNoDup, NoDup_range.
  - intros c Hc%elem_of_valid_columns. lia.
  - unfold valid_columns_right, len. by rewrite length_fmap.
  - intros c Hc. unfold valid_columns_right in Hc.
    apply list_elem_of_fmap in Hc as (c0 & -> & Hc0).
    apply elem_of_valid_columns in Hc0 as [_ Hv].
    apply valid_col_spec in Hv as [H0 H1]. by apply Qint_bounds.
Qed.

Lemma Qint_inject n : 0 <= n -> Qint (inject_Z n) = n.
Proof.
  intros Hn. rewrite Qint_floor by (change 0%Q with (inject_Z 0); by rewrite <- Zle_Qle).
  apply Qfloor_Z.
Qed.

(** X13: whole disparities.  For a disparity that is an integer [d], the
    unshifted right image is selected, a column [c] is valid exactly when
    [0 <= c + d < w], and its right counterpart is column [c + d]. *)
Theorem integer_disparity d s nx_ w :
  i_right (inject_Z d) s = 0
  /\ (forall c, valid_col (inject_Z d) w c = (0 <=? c + d) && (c + d <? w))
  /\ valid_columns_right nx_ (inject_Z d) w
     = (fun c => c + d) <$> valid_columns nx_ (inject_Z d) w.
Proof.
  assert (Hv : forall c, valid_col (inject_Z d) w c = (0 <=? c + d) && (c + d <? w)).
  { intros c. apply eq_true_iff_eq.
    rewrite valid_col_spec, andb_true_iff, Z.leb_le, Z.ltb_lt.
    rewrite <- inject_Z_plus. change 0%Q with (inject_Z 0).
    by rewrite <- Zle_Qle, <- Zlt_Qlt. }
  split; [|split; [done|]].
  - unfold i_right, Qfrac. rewrite Qfloor_Z.
    assert (Hz : (((inject_Z d - inject_Z d) * inject_Z s) == 0)%Q) by ring.
    assert (0 <= Qint ((inject_Z d - inject_Z d) * inject_Z s) < 1); [|lia].
    apply Qint_bounds; rewrite Hz; done.
  - unfold valid_columns_right. apply list_fmap_ext.
    intros _ c Hc%list_elem_of_lookup_2.
    apply elem_of_valid_columns in Hc as [_ Hc]. rewrite Hv in Hc.
    apply andb_true_iff in Hc as [Hc%Z.leb_le _].
    rewrite <- inject_Z_plus. by apply Qint_inject.
Qed.

(** X15: the layers are aggregated independently.  Every cell of the
    output is the seed [(0 + cost) * 0] of its input cost plus the
    aggregated cost of its own layer, divided by the denominator of that
    layer. *)
Theorem cost_volume_aggregation_layers cbca_distance cl cr cv ny nx nb y x d :
  box ny nx nb (cost_volume cv) ->
  0 <= y < ny -> 0 <= x < nx -> 0 <= d < nb ->
  get3 F32.nan (cost_volume (cost_volume_aggregation cbca_distance cl cr cv)) y x d
  = F32.div
      (F32.add
         (F32.mul (F32.add F32.zero (get3 F32.zero (cost_volume cv) y x d)) F32.zero)
         (get2 F32.zero (aggregate_layer cl cr cv d).1 y x))
      (get2 F32.zero (aggregate_layer cl cr cv d).2 y x).
Proof.
  intros Hb Hy Hx Hd.
  rewrite <- (cost_volume_aggregation_cell cbca_distance cl cr cv ny nx nb) by done.
  destruct (box_dims ny nx nb (cost_volume cv)) as (H0 & H1 & H2); [lia|lia|done|].
  unfold cost_volume_aggregation. cbv zeta. cbn [cost_volume].
  rewrite H0, H1, H2.
  by rewrite !(get3_swapaxes02 _ nb nx ny).
Qed.

Lemma cost_volume_aggregation_layers_witness :
  get3 F32.nan
    (cost_volume
       (cost_volume_aggregation 2 cross_left_1x2 cross_right_1x2 (volume_1x2x2 f2)))
    0 1 0
  = F32.div
      (F32.add
         (F32.mul
            (F32.add F32.zero (get3 F32.zero (cost_volume (volume_1x2x2 f2)) 0 1 0))
            F32.zero)
         (get2 F32.zero
            (aggregate_layer cross_left_1x2 cross_right_1x2 (volume_1x2x2 f2) 0).1
            0 1))
      (get2 F32.zero
         (aggregate_layer cross_left_1x2 cross_right_1x2 (volume_1x2x2 f2) 0).2
         0 1).
Proof.
  apply (cost_volume_aggregation_layers 2 cross_left_1x2 cross_right_1x2
           (volume_1x2x2 f2) 1 2 2 0 1 0).
  - apply box_1x2x2.
  - lia.
  - lia.
  - lia.
Defined.

(** ** Configuration, further properties *)

Lemma with_defaults_lookup cfg k :
  with_defaults cfg !! k
  = match cfg !! k with Some v => Some v | None => default_of k end.
Proof.
  unfold with_defaults, default_of. cbv zeta.
  destruct (String.eqb_spec k "cbca_intensity") as [->|Hi].
  - destruct (cfg !! "cbca_intensity") as [v|] eqn:Ei.
    + destruct (cfg !! "cbca_distance") eqn:Ed; [by rewrite Ei|].
      by rewrite lookup_insert_ne, Ei.
    + rewrite (lookup_insert_ne _ "cbca_intensity" "cbca_distance") by done.
      destruct (cfg !! "cbca_distance") eqn:Ed.
      * by rewrite lookup_insert_eq.
      * by rewrite lookup_insert_ne, lookup_insert_eq.
  - destruct (String.eqb_spec k "cbca_distance") as [->|Hd].
    + destruct (cfg !! "cbca_intensity") as [v|] eqn:Ei.
      * destruct (cfg !! "cbca_distance") eqn:Ed; [by rewrite Ed|].
        by rewrite lookup_insert_eq.
      * rewrite (lookup_insert_ne _ "cbca_intensity" "cbca_distance") by done.
        destruct (cfg !! "cbca_distance") eqn:Ed.
        -- by rewrite lookup_insert_ne, Ed.
        -- by rewrite lookup_insert_eq.
    + destruct (cfg !! "cbca_intensity") as [v|] eqn:Ei.
      * destruct (cfg !! "cbca_distance") eqn:Ed.
        -- by destruct (cfg !! k).
        -- rewrite lookup_insert_ne by done. by destruct (cfg !! k).
      * rewrite (lookup_insert_ne _ "cbca_intensity" "cbca_distance") by done.
        destruct (cfg !! "cbca_distance") eqn:Ed.
        -- rewrite lookup_insert_ne by done. by destruct (cfg !! k).
        -- rewrite !lookup_insert_ne by done. by destruct (cfg !! k).
Qed.

Lemma check_conf_validate cfg :
  check_conf cfg
  = validate
      [ ("aggregation_method", And [Type_ TStr; Func (fun x => Some (PStr "cbca"))]);
        ("cbca_intensity", And [Type_ TFloat; Func gt_0]);
        ("cbca_distance", And [Type_ TInt; Func gt_0]) ]
      (with_defaults cfg).
Proof. done. Qed.

(** X16: a successful check returns the configuration it was given,
    completed: every entry of the input is kept as it is, and the keys
    [cbca_intensity] and [cbca_distance] that the input lacks hold the
    defaults 30.0 and 5. *)
Theorem check_conf_completes cfg cfg' k :
  check_conf cfg = Ok cfg' ->
  cfg' !! k = match cfg !! k with Some v => Some v | None => default_of k end.
Proof.
  rewrite check_conf_validate. unfold validate.
  destruct (_ && _); [|done]. intros [= <-]. apply with_defaults_lookup.
Qed.

Lemma check_conf_completes_witness :
  with_defaults conf_minimal !! "cbca_distance"
  = match conf_minimal !! "cbca_distance" with
    | Some v => Some v
    | None => default_of "cbca_distance"
    end.
Proof.
  apply (check_conf_completes conf_minimal (with_defaults conf_minimal)
           "cbca_distance").
  vm_compute. reflexivity.
Defined.

(** X17: a distance or an intensity that is not positive, or not of the
    type of the schema, is a configuration error whatever the rest of the
    configuration is.  In particular an intensity given as an integer is
    rejected. *)
Theorem check_conf_rejects cfg v :
  (cfg !! "cbca_distance" = Some v /\
     match v with PInt n => n <= 0 | PBool b => b = false | _ => True end)
  \/ (cfg !! "cbca_intensity" = Some v /\
        match v with PFloat x => SFltb (S754_zero false) x = false | _ => True end) ->
  check_conf cfg = CheckerError.
Proof.
  intros H. rewrite check_conf_validate. unfold validate.
  destruct (forallb _ _) eqn:E; [|done]. exfalso.
  cbn [forallb] in E. rewrite !andb_true_iff in E.
  destruct E as (_ & Hi & Hd & _).
  rewrite with_defaults_lookup in Hi, Hd.
  destruct H as [[Hv Hbad]|[Hv Hbad]]; rewrite Hv in *.
  - destruct v as [s|x|n|[]|]; try done. cbn in Hd.
    destruct (Z.ltb_spec 0 n); [lia|done].
  - destruct v as [s|x|n|[]|]; try done. cbn in Hi. by rewrite Hbad in Hi.
Qed.

Lemma check_conf_rejects_witness :
  check_conf (<["cbca_intensity" := PInt 30]> conf_minimal) = CheckerError.
Proof.
  apply (check_conf_rejects (<["cbca_intensity" := PInt 30]> conf_minimal)
           (PInt 30)).
  right. split; [reflexivity|exact I].
Defined.

(** X18: a configuration without [aggregation_method], or with a key that
    the schema does not know, is a configuration error. *)
Theorem check_conf_keys cfg :
  cfg !! "aggregation_method" = None
  \/ (exists k, is_Some (cfg !! k) /\ k <> "aggregation_method"
               /\ k <> "cbca_intensity" /\ k <> "cbca_distance") ->
  check_conf cfg = CheckerError.
Proof.
  intros H. rewrite check_conf_validate. unfold validate.
  destruct (_ && _) eqn:E; [|done]. exfalso.
  apply andb_true_iff in E as [Hf Hdom].
  destruct H as [Hm|(k & [v Hk] & H1 & H2 & H3)].
  - cbn [forallb] in Hf. rewrite with_defaults_lookup, Hm in Hf. done.
  - apply bool_decide_eq_true in Hdom.
    assert (Hin : k ∈ dom (with_defaults cfg)).
    { apply elem_of_dom. rewrite with_defaults_lookup, Hk. by eexists. }
    apply Hdom, elem_of_list_to_set in Hin. cbn in Hin.
    rewrite !elem_of_cons, elem_of_nil in Hin. tauto.
Qed.

Lemma check_conf_keys_witness :
  check_conf (<["filter" := PStr "median"]> conf_minimal) = CheckerError.
Proof.
  apply (check_conf_keys (<["filter" := PStr "median"]> conf_minimal)).
  right. exists "filter"%string.
  split; [|split; [|split]].
  - exists (PStr "median"). reflexivity.
  - discriminate.
  - discriminate.
  - discriminate.
Defined.

(** ** Raster helpers *)

Lemma range_shift a k : range a (a + k) = (fun i => a + i) <$> seqZ 0 k.
Proof.
  unfold range. replace (a + k - a) with k by lia.
  replace (seqZ a k) with (seqZ (a + 0) k) by (f_equal; lia).
  symmetry. apply (fmap_add_seqZ a 0 k).
Qed.

Lemma check_inside_image_spec img r c x y :
  rect r c img -> 0 < r ->
  check_inside_image img x y = (0 <=? x) && (x <? r) && ((0 <=? y) && (y <? c)).
Proof.
  intros Hr H0. unfold check_inside_image.
  destruct (rect_dims r c img) as [-> ->]; done.
Qed.

Lemma corners_inside h x y r c :
  0 <= h ->
  (0 <=? x - h) && (x - h <? r) && ((0 <=? y - h) && (y - h <? c))
  && ((0 <=? x + h) && (x + h <? r) && ((0 <=? y + h) && (y + h <? c)))
  = (h <=? x) && (x <? r - h) && ((h <=? y) && (y <? c - h)).
Proof.
  intros Hh. apply eq_true_iff_eq.
  rewrite !andb_true_iff, !Z.leb_le, !Z.ltb_lt. lia.
Qed.

Lemma sub_image_clipped img r c r0 r1 c0 c1 :
  rect r c img -> 0 < r -> 0 <= r0 -> 0 <= r1 -> 0 <= c0 -> 0 <= c1 ->
  sub_image img r0 r1 c0 c1
  = (fun row => (fun col => get2 F32.zero img row col)
                  <$> range (Z.min c c0) (Z.min c c1))
      <$> range (Z.min r r0) (Z.min r r1).
Proof.
  intros Hr H0 Hr0 Hr1 Hc0 Hc1.
  destruct (rect_dims r c img) as [Hnr Hnc]; [done..|].
  assert (Hc : 0 <= c) by (rewrite <- Hnc; unfold ncols, len; lia).
  unfold sub_image. rewrite Hnr, Hnc.
  unfold slice, slice_bound, pyidx.
  destruct (Z.ltb_spec r0 0), (Z.ltb_spec r1 0),
           (Z.ltb_spec c0 0), (Z.ltb_spec c1 0); try lia.
  rewrite !Z.max_r by lia. by rewrite !(Z.min_comm c), !(Z.min_comm r).
Qed.

(** X19: on a raster of [r] rows and [c] columns, [compute_mean_patch]
    with half window [h = win_size / 2] raises [IndexError] unless
    [h <= x < r - h] and [h <= y < c - h]: [x] is checked against the
    number of rows and [y] against the number of columns.  Otherwise it
    returns the mean of the rows [y - h .. y + h] and the columns
    [x - h .. x + h] that the raster has, so of fewer than
    [(2 h + 1) * (2 h + 1)] samples when the raster is not square and
    the window exceeds it. *)
Theorem compute_mean_patch_window mean img r c x y win_size :
  rect r c img -> 0 < r -> 0 <= win_size ->
  let h := win_size / 2 in
  compute_mean_patch mean img x y win_size
  = if (h <=? x) && (x <? r - h) && ((h <=? y) && (y <? c - h)) then
      Returns (mean
        ((fun row => (fun col => get2 F32.zero img row col)
                       <$> range (Z.min c (x - h)) (Z.min c (x + h + 1)))
           <$> range (Z.min r (y - h)) (Z.min r (y + h + 1))))
    else IndexError.
Proof.
  intros Hr H0 Hw h. unfold compute_mean_patch. cbv zeta. cbn [fst snd].
  rewrite Z.quot_div_nonneg by lia. fold h.
  assert (Hh : 0 <= h) by (apply Z.div_pos; lia).
  rewrite !(check_inside_image_spec img r c) by done.
  rewrite corners_inside by done.
  destruct ((h <=? x) && (x <? r - h) && ((h <=? y) && (y <? c - h))) eqn:E;
    [|done].
  rewrite !andb_true_iff, !Z.leb_le, !Z.ltb_lt in E.
  by rewrite (sub_image_clipped img r c) by (done || lia).
Qed.

Lemma compute_mean_patch_window_witness :
  compute_mean_patch mean_by_rows (full2 f3 2 5) 1 2 2 = IndexError.
Proof.
  apply (compute_mean_patch_window mean_by_rows (full2 f3 2 5) 2 5 1 2 2).
  - split; [reflexivity|]. repeat constructor.
  - lia.
  - lia.
Defined.

(** X20: on a square raster of side [n] the window is complete: when no
    error is raised, the mean is taken over the [2 h + 1] rows and
    [2 h + 1] columns centred on row [y] and column [x], so a window of
    side [win_size + 1] when [win_size] is even. *)
Theorem compute_mean_patch_square mean img n x y win_size :
  rect n n img -> 0 < n -> 0 <= win_size ->
  let h := win_size / 2 in
  h <= x < n - h -> h <= y < n - h ->
  compute_mean_patch mean img x y win_size
  = Returns (mean
      (tabulate (2 * h + 1) (fun i =>
         tabulate (2 * h + 1) (fun j =>
           get2 F32.zero img (y - h + i) (x - h + j))))).
Proof.
  intros Hr H0 Hw h Hx Hy.
  assert (Hh : 0 <= h) by (apply Z.div_pos; lia).
  unfold compute_mean_patch. cbv zeta. cbn [fst snd].
  rewrite Z.quot_div_nonneg by lia. fold h.
  rewrite !(check_inside_image_spec img n n) by done.
  rewrite corners_inside by done.
  destruct (Z.leb_spec h x), (Z.ltb_spec x (n - h)),
           (Z.leb_spec h y), (Z.ltb_spec y (n - h)); try lia.
  cbn [andb]. do 2 f_equal.
  rewrite (sub_image_clipped img n n) by (done || lia).
  rewrite !Z.min_r by lia.
  replace (y + h + 1) with (y - h + (2 * h + 1)) by lia.
  replace (x + h + 1) with (x - h + (2 * h + 1)) by lia.
  rewrite !range_shift. unfold tabulate.
  rewrite <- list_fmap_compose. apply list_fmap_ext. intros _ i _. simpl.
  by rewrite <- list_fmap_compose.
Qed.

Lemma compute_mean_patch_square_witness :
  compute_mean_patch mean_by_rows uniform5 2 3 2
  = Returns (mean_by_rows
      (tabulate (2 * (2 / 2) + 1) (fun i =>
         tabulate (2 * (2 / 2) + 1) (fun j =>
           get2 F32.zero uniform5 (3 - 2 / 2 + i) (2 - 2 / 2 + j))))).
Proof.
  apply (compute_mean_patch_square mean_by_rows uniform5 5 2 3 2).
  - split; [reflexivity|]. repeat constructor.
  - lia.
  - lia.
  - change (2 / 2) with 1. lia.
  - change (2 / 2) with 1. lia.
Defined.

(** ** Image pyramid *)

Lemma get1_levels {D} br s k (d : D) i :
  0 <= i <= Z.of_nat k ->
  get1 d (levels br s k d) i = downsampled br s (Z.to_nat i) d.
Proof.
  intros Hi. unfold levels. rewrite get1_in.
  - rewrite list_lookup_fmap, lookup_seq_lt by lia. done.
  - unfold len. rewrite length_fmap, length_seq. lia.
Qed.

Lemma len_levels {D} br s k (d : D) : len (levels br s k d) = Z.of_nat k + 1.
Proof. unfold levels, len. rewrite length_fmap, length_seq. lia. Qed.

Lemma pyramid_loop {D} br (l r : D) s xs :
  for_each xs (fun _ '(pyramid_left, pyramid_right) =>
      (pyramid_left
         ++ [create_downsampled_dataset br (get1 l pyramid_left (-1)) s],
       pyramid_right
         ++ [create_downsampled_dataset br (get1 r pyramid_right (-1)) s]))
    ([l], [r])
  = (levels br s (length xs) l, levels br s (length xs) r).
Proof.
  induction xs as [|x xs IH] using rev_ind; [done|].
  rewrite for_each_snoc, IH, length_app. simpl length.
  rewrite Nat.add_1_r.
  rewrite !get1_last by (rewrite len_levels; lia).
  rewrite !len_levels, !get1_levels by lia.
  replace (Z.to_nat (Z.of_nat (length xs) + 1 - 1)) with (length xs) by lia.
  unfold levels at 3 4. rewrite (seq_S (S (length xs))), !fmap_app. done.
Qed.

Lemma prepare_pyramid_levels {D} br (l r : D) n s :
  prepare_pyramid br l r n s
  = (reverse (levels br s (Z.to_nat (n - 1)) l),
     reverse (levels br s (Z.to_nat (n - 1)) r)).
Proof.
  unfold prepare_pyramid. rewrite pyramid_loop.
  unfold range. rewrite length_seqZ. by rewrite Z.sub_0_r.
Qed.

Lemma get1_reverse_levels {D} br s k (d : D) i :
  0 <= i <= Z.of_nat k ->
  get1 d (reverse (levels br s k d)) i = downsampled br s (k - Z.to_nat i) d.
Proof.
  intros Hi.
  assert (Hlen : length (levels br s k d) = S k).
  { unfold levels. by rewrite length_fmap, length_seq. }
  rewrite get1_in by (unfold len; rewrite length_reverse; lia).
  rewrite reverse_lookup by lia. rewrite Hlen.
  unfold levels. rewrite list_lookup_fmap, lookup_seq_lt by lia.
  simpl. by replace (S k - S (Z.to_nat i))%nat with (k - Z.to_nat i)%nat by lia.
Qed.

Lemma pyramid_of_levels {D} br s n (d : D) :
  pyramid_of br s (Z.max 1 n) d (reverse (levels br s (Z.to_nat (n - 1)) d)).
Proof.
  set (k := Z.to_nat (n - 1)).
  assert (Hk : Z.of_nat k + 1 = Z.max 1 n) by lia.
  assert (Hlen : len (reverse (levels br s k d)) = Z.max 1 n).
  { unfold len. rewrite length_reverse. fold (len (levels br s k d)).
    by rewrite len_levels. }
  split; [done|]. split.
  - rewrite get1_last by lia. rewrite Hlen, get1_reverse_levels by lia.
    replace (k - Z.to_nat (Z.max 1 n - 1))%nat with 0%nat by lia. done.
  - intros i Hi. rewrite !get1_reverse_levels by lia.
    replace (k - Z.to_nat i)%nat with (S (k - Z.to_nat (i + 1))) by lia.
    done.
Qed.

(** X21: [prepare_pyramid] returns, for each image, [max 1 num_scales]
    levels ordered from the coarsest to the original: the last level is
    the image itself and every other level is the downsampling of the
    level that follows it.  A number of scales below 1 gives the image
    alone. *)
Theorem prepare_pyramid_coarse_to_fine {D} br (img_left img_right : D)
    num_scales scale_factor :
  pyramid_of br scale_factor (Z.max 1 num_scales) img_left
    (prepare_pyramid br img_left img_right num_scales scale_factor).1
  /\ pyramid_of br scale_factor (Z.max 1 num_scales) img_right
       (prepare_pyramid br img_left img_right num_scales scale_factor).2.
Proof.
  rewrite prepare_pyramid_levels. split; apply pyramid_of_levels.
Qed.

Lemma downsampled_one {D} br k (d : D) : downsampled br 1 k d = d.
Proof. induction k as [|k IH]; [done|]. simpl. by rewrite IH. Qed.

(** X22: with a scale factor of 1 nothing is resampled: the pyramid
    holds [max 1 num_scales] copies of the input image. *)
Theorem prepare_pyramid_scale_one {D} br (img_left img_right : D) num_scales :
  prepare_pyramid br img_left img_right num_scales 1
  = (replicate (Z.to_nat (Z.max 1 num_scales)) img_left,
     replicate (Z.to_nat (Z.max 1 num_scales)) img_right).
Proof.
  rewrite prepare_pyramid_levels.
  assert (H : forall d : D,
    reverse (levels br 1 (Z.to_nat (num_scales - 1)) d)
    = replicate (Z.to_nat (Z.max 1 num_scales)) d).
  { intros d. symmetry. apply replicate_as_Forall. split.
    - rewrite length_reverse. unfold levels.
      rewrite length_fmap, length_seq. lia.
    - apply Forall_reverse, Forall_fmap, Forall_forall. intros i _.
      simpl. symmetry. apply downsampled_one. }
  by rewrite !H.
Qed.

(** ** Shifted right images *)

(** X23: the right image that the aggregation selects for a disparity
    is the one shifted by the fractional part of that disparity.  For a
    subpixel factor [s] of 1, 2 or 4 and a disparity whose fractional
    part is [k / s], [i_right] is [k], and element [k] of
    [shift_right_img] is the input image when [k = 0] and otherwise the
    image sampled at column [k * (4 / s)] of each group of four zoomed
    columns, with its coordinates offset by [k / s]. *)
Theorem shift_right_img_selected zoom img_right s q k :
  s = 1 \/ s = 2 \/ s = 4 ->
  0 <= k < s ->
  (Qfrac q == inject_Z k / inject_Z s)%Q ->
  i_right q s = k
  /\ len (shift_right_img zoom img_right s) = s
  /\ shift_right_img zoom img_right s !! Z.to_nat (i_right q s)
     = Some (shifted_by zoom img_right s k).
Proof.
  intros Hs Hk Hq.
  assert (Hi : i_right q s = k).
  { unfold i_right. apply Qint_integer. rewrite Hq. field.
    intros H. change 0%Q with (inject_Z 0) in H.
    rewrite inject_Z_injective in H. lia. }
  split; [done|]. rewrite Hi.
  destruct Hs as [->|[->| ->]].
  - assert (k = 0) as -> by lia. done.
  - assert (k = 0 \/ k = 1) as [->| ->] by lia; done.
  - assert (k = 0 \/ k = 1 \/ k = 2 \/ k = 3) as [->|[->|[->| ->]]] by lia;
      done.
Qed.

Lemma shift_right_img_selected_witness :
  i_right (3 # 2) 2 = 1
  /\ len (shift_right_img zoom_nearest right_1x3 2) = 2
  /\ shift_right_img zoom_nearest right_1x3 2 !! Z.to_nat (i_right (3 # 2) 2)
     = Some (shifted_by zoom_nearest right_1x3 2 1).
Proof.
  apply (shift_right_img_selected zoom_nearest right_1x3 2 (3 # 2) 1).
  - right. left. reflexivity.
  - lia.
  - reflexivity.
Defined.

Lemma Qceiling_unique x m :
  (inject_Z (m - 1) < x)%Q -> (x <= inject_Z m)%Q -> Qceiling x = m.
Proof.
  intros Hl Hu.
  pose proof (Qle_ceiling x) as H1. pose proof (Qceiling_lt x) as H2.
  assert (Ha : (inject_Z (m - 1) < inject_Z (Qceiling x))%Q)
    by (eapply Qlt_le_trans; eauto).
  assert (Hb : (inject_Z (Qceiling x - 1) < inject_Z m)%Q)
    by (eapply Qlt_le_trans; eauto).
  rewrite <- Zlt_Qlt in Ha, Hb. lia.
Qed.

Lemma len_every_4th_row k (row : list f32) nx :
  1 <= nx -> 1 <= k <= 3 -> len row = 4 * nx - 3 ->
  len ((fun j => get1 F32.zero row (k + 4 * j))
         <$> seqZ 0 ((len row - k + 3) / 4)) = nx - 1.
Proof.
  intros Hnx Hk Hrow. unfold len at 1. rewrite length_fmap, length_seqZ, Hrow.
  assert ((4 * nx - 3 - k + 3) / 4 = nx - 1) as ->; [|lia].
  symmetry. apply (Z.div_unique _ _ _ (4 - k)); lia.
Qed.

(** X24: a shifted right image has one column less than the image it
    is made from.  When the image has [nx] consecutive column
    coordinates and the zoom returns rows of [4 nx - 3] samples, the
    image shifted from column [k] (1, 2 or 3) by an offset strictly
    between 0 and 1 has [nx - 1] columns: sample [x] of a row is sample
    [4 x + k] of the zoomed row, and coordinate [x] is coordinate [x] of
    the input plus the offset. *)
Theorem shifted_one_column_less zoom img_right ny nx k offset :
  1 <= ny -> 1 <= nx -> 1 <= k <= 3 ->
  (0 < offset)%Q -> (offset < 1)%Q ->
  len (col img_right) = nx ->
  (forall x, 0 <= x < nx ->
     (get1 0 (col img_right) x == get1 0 (col img_right) 0 + inject_Z x)%Q) ->
  rect ny (4 * nx - 3) (zoom (im img_right)) ->
  let sh := shifted zoom img_right k offset in
  rect ny (nx - 1) (im sh)
  /\ len (col sh) = nx - 1
  /\ (forall y x, 0 <= y < ny -> 0 <= x < nx - 1 ->
        get2 F32.zero (im sh) y x
        = get2 F32.zero (zoom (im img_right)) y (4 * x + k))
  /\ (forall x, 0 <= x < nx - 1 ->
        (get1 0 (col sh) x == get1 0 (col img_right) x + offset)%Q).
Proof.
  intros Hny Hnx Hk Ho0 Ho1 Hlen Hcol [Hzr Hzc] sh.
  assert (Hceil :
    Qceiling (get1 0%Q (col img_right) (-1)
              - (get1 0%Q (col img_right) 0 + offset)) = nx - 1).
  { rewrite get1_last, Hlen by lia. rewrite (Hcol (nx - 1)) by lia.
    set (a := get1 0%Q (col img_right) 0). set (m := nx - 1).
    assert (E : (inject_Z (m - 1) == inject_Z m - 1)%Q).
    { unfold Z.sub. rewrite inject_Z_plus. reflexivity. }
    apply Qceiling_unique.
    - rewrite E. apply Qlt_minus_iff.
      setoid_replace (a + inject_Z m - (a + offset) + - (inject_Z m - 1))%Q
        with (1 + - offset)%Q using relation Qeq by ring.
      exact (proj1 (Qlt_minus_iff offset 1) Ho1).
    - apply Qle_minus_iff.
      setoid_replace (inject_Z m + - (a + inject_Z m - (a + offset)))%Q
        with offset using relation Qeq by ring.
      by apply Qlt_le_weak. }
  assert (Hrows : rect ny (nx - 1) (im sh)).
  { split.
    - simpl. unfold every_4th, len. rewrite length_fmap. exact Hzr.
    - simpl. unfold every_4th. apply Forall_fmap.
      eapply Forall_impl; [exact Hzc|]. intros row Hrow. simpl.
      by apply len_every_4th_row. }
  split; [done|]. split; [|split].
  - simpl. unfold arange, len. rewrite length_fmap, length_seqZ, Hceil. lia.
  - intros y x Hy Hx. simpl. unfold every_4th, get2.
    assert (Hin : 0 <= y < len (zoom (im img_right))) by lia.
    rewrite (get1_in [] (_ <$> _)) by (unfold len; rewrite length_fmap; exact Hin).
    rewrite list_lookup_fmap.
    rewrite (get1_in [] (zoom _)) by done.
    destruct (zoom (im img_right) !! Z.to_nat y) as [row|] eqn:E.
    2:{ apply lookup_ge_None in E. unfold len in Hin. lia. }
    simpl.
    assert (Hrow : len row = 4 * nx - 3).
    { eapply (Forall_lookup_1 _ _ _ _ Hzc E). }
    rewrite get1_in by (rewrite (len_every_4th_row k row nx); done || lia).
    rewrite list_lookup_fmap, lookup_seqZ_lt.
    + simpl. f_equal. lia.
    + rewrite Hrow.
      assert ((4 * nx - 3 - k + 3) / 4 = nx - 1) as ->; [|lia].
      symmetry. apply (Z.div_unique _ _ _ (4 - k)); lia.
  - intros x Hx. simpl. unfold arange.
    rewrite get1_in by (unfold len; rewrite length_fmap, length_seqZ, Hceil; lia).
    rewrite list_lookup_fmap, lookup_seqZ_lt by (rewrite Hceil; lia).
    simpl. rewrite (Hcol x) by lia.
    replace (0 + Z.of_nat (Z.to_nat x)) with x by lia. ring.
Qed.

Lemma shifted_one_column_less_witness :
  let sh := shifted zoom_nearest right_1x3 2 (1 # 2) in
  rect 1 (3 - 1) (im sh)
  /\ len (col sh) = 3 - 1
  /\ (forall y x, 0 <= y < 1 -> 0 <= x < 3 - 1 ->
        get2 F32.zero (im sh) y x
        = get2 F32.zero (zoom_nearest (im right_1x3)) y (4 * x + 2))
  /\ (forall x, 0 <= x < 3 - 1 ->
        (get1 0 (col sh) x == get1 0 (col right_1x3) x + (1 # 2))%Q).
Proof.
  apply (shifted_one_column_less zoom_nearest right_1x3 1 3 2 (1 # 2)).
  - lia.
  - lia.
  - lia.
  - reflexivity.
  - reflexivity.
  - reflexivity.
  - intros x Hx. assert (x = 0 \/ x = 1 \/ x = 2) as [->|[->| ->]] by lia;
      reflexivity.
  - split; [reflexivity|]. repeat constructor.
Defined.
